(** * Round-Robin scheduling simulator: the engine of [src/app.js]

    A shallow embedding of the simulation core of [app.js] (the
    tick-driven scheduler, its ready queue, CPU slot and clock) and the
    properties of it that the specification states.  The three.js scene
    and the rendering of the tables are left out; the history list is
    kept as the list of its entries.

    JavaScript objects are shared by reference: [processes] holds the
    process objects, while [readyQueue] and [currentCPU.proc] hold
    references to the same objects.  The store is the list [processes];
    a reference is the position of the object in that list. *)

From Stdlib Require Import ZArith Lia.
From stdpp Require Import base list strings sorting.

Local Open Scope Z_scope.

(** ** Data *)

(** An entry of [initialProcesses]. *)
Record procDef := ProcDef {
  d_id : string;
  d_burstTime : Z;
  d_arrivalTime : Z;
  d_color : string
}.

(** A process object as [deepReset] builds it.  The field [id] of the
    source is [pid] here.  [completionTime] is [null] until the process
    finishes. *)
Record process := Process {
  pid : string;
  burstTime : Z;
  arrivalTime : Z;
  color : string;
  remainingTime : Z;
  waitingTime : Z;
  completionTime : option Z;
  arrived : bool;
  finished : bool
}.

(** The object held by [currentCPU]: a reference to the running process
    and the rest of its quantum. *)
Record cpuSlot := CpuSlot {
  proc : nat;
  qLeft : Z
}.

(** The texts that [logEvent] receives. *)
Inductive event :=
  | EvArrived (p : string)          (* "<id> arrived and joined Ready Queue" *)
  | EvMovedToCPU (p : string)       (* "<id> moved to CPU" *)
  | EvFinished (p : string) (ct : Z) (* "<id> finished (CT=<ct>)" *)
  | EvQuantumExpired (p : string).  (* "<id> quantum expired, returned to Ready Queue" *)

(** The module-level variables of the simulation.  [quantumInput] is the
    value of [parseInt(quantumInput.value, 10)], [None] when it is not a
    finite number; [tickHandle] says whether an interval handle is held;
    [historyList] is the list of entries [[t=...] text].
    [quantumDisplayEl] is the number shown as the quantum. *)
Record state := State {
  processes : list process;
  readyQueue : list nat;
  currentTime : Z;
  running : bool;
  tickHandle : bool;
  currentCPU : option cpuSlot;
  finishedOrder : list string;
  quantumInput : option Z;
  quantumDisplayEl : Z;
  historyList : list (Z * event)
}.

(** *** Field updates *)

Definition set_arrived (b : bool) (p : process) : process :=
  Process (pid p) (burstTime p) (arrivalTime p) (color p)
          (remainingTime p) (waitingTime p) (completionTime p) b (finished p).

Definition set_waitingTime (w : Z) (p : process) : process :=
  Process (pid p) (burstTime p) (arrivalTime p) (color p)
          (remainingTime p) w (completionTime p) (arrived p) (finished p).

Definition set_remainingTime (r : Z) (p : process) : process :=
  Process (pid p) (burstTime p) (arrivalTime p) (color p)
          r (waitingTime p) (completionTime p) (arrived p) (finished p).

Definition set_finished (b : bool) (p : process) : process :=
  Process (pid p) (burstTime p) (arrivalTime p) (color p)
          (remainingTime p) (waitingTime p) (completionTime p) (arrived p) b.

Definition set_completionTime (c : option Z) (p : process) : process :=
  Process (pid p) (burstTime p) (arrivalTime p) (color p)
          (remainingTime p) (waitingTime p) c (arrived p) (finished p).

Definition with_processes (ps : list process) (s : state) : state :=
  State ps (readyQueue s) (currentTime s) (running s) (tickHandle s)
        (currentCPU s) (finishedOrder s) (quantumInput s)
        (quantumDisplayEl s) (historyList s).

Definition with_readyQueue (rq : list nat) (s : state) : state :=
  State (processes s) rq (currentTime s) (running s) (tickHandle s)
        (currentCPU s) (finishedOrder s) (quantumInput s)
        (quantumDisplayEl s) (historyList s).

Definition with_currentTime (t : Z) (s : state) : state :=
  State (processes s) (readyQueue s) t (running s) (tickHandle s)
        (currentCPU s) (finishedOrder s) (quantumInput s)
        (quantumDisplayEl s) (historyList s).

Definition with_currentCPU (c : option cpuSlot) (s : state) : state :=
  State (processes s) (readyQueue s) (currentTime s) (running s)
        (tickHandle s) c (finishedOrder s) (quantumInput s)
        (quantumDisplayEl s) (historyList s).

Definition with_finishedOrder (fo : list string) (s : state) : state :=
  State (processes s) (readyQueue s) (currentTime s) (running s)
        (tickHandle s) (currentCPU s) fo (quantumInput s)
        (quantumDisplayEl s) (historyList s).

Definition with_quantumInput (q : option Z) (s : state) : state :=
  State (processes s) (readyQueue s) (currentTime s) (running s)
        (tickHandle s) (currentCPU s) (finishedOrder s) q
        (quantumDisplayEl s) (historyList s).

Definition with_quantumDisplayEl (q : Z) (s : state) : state :=
  State (processes s) (readyQueue s) (currentTime s) (running s)
        (tickHandle s) (currentCPU s) (finishedOrder s) (quantumInput s)
        q (historyList s).

Definition with_historyList (h : list (Z * event)) (s : state) : state :=
  State (processes s) (readyQueue s) (currentTime s) (running s)
        (tickHandle s) (currentCPU s) (finishedOrder s) (quantumInput s)
        (quantumDisplayEl s) h.

Definition with_timer (r h : bool) (s : state) : state :=
  State (processes s) (readyQueue s) (currentTime s) r h
        (currentCPU s) (finishedOrder s) (quantumInput s)
        (quantumDisplayEl s) (historyList s).

(** ** Operations *)

(** [getQuantum]: the parsed input when it is a finite number above 0,
    else 1. *)
Definition getQuantum (s : state) : Z :=
  match quantumInput s with
  | Some q => if 0 <? q then q else 1
  | None => 1
  end.

(** [logEvent]: appends the text, stamped with the clock. *)
Definition logEvent (e : event) (s : state) : state :=
  with_historyList (historyList s ++ [(currentTime s, e)]) s.

(** [moveToFinished], without the animation: the id joins
    [finishedOrder] unless it is there. *)
Definition moveToFinished (p : process) (s : state) : state :=
  if bool_decide (pid p ∈ finishedOrder s) then s
  else with_finishedOrder (finishedOrder s ++ [pid p]) s.

(** The body of the loop of [arrivalsStep] at the object at position
    [i]: [p.arrived = true; readyQueue.push(p); logEvent(...)]. *)
Definition arrive (s : state) (i : nat) : state :=
  match processes s !! i with
  | Some p =>
      if negb (arrived p) && (arrivalTime p <=? currentTime s)
      then logEvent (EvArrived (pid p))
             (with_readyQueue (readyQueue s ++ [i])
                (with_processes (alter (set_arrived true) i (processes s)) s))
      else s
  | None => s
  end.

(** [arrivalsStep]: [for (const p of processes)], in the order of the
    array. *)
Definition arrivalsStep (s : state) : state :=
  foldl arrive s (seq 0 (length (processes s))).

(** [allFinished]: [processes.every(p => p.finished)]. *)
Definition allFinished (s : state) : bool :=
  forallb finished (processes s).

(** [stopSim] and [startSim]. *)
Definition stopSim (s : state) : state := with_timer false false s.

Definition startSim (s : state) : state :=
  if running s then s else with_timer true true s.

(** Step 2 of [tick]: dispatch when the CPU is idle and the queue is not
    empty; [readyQueue.shift()] takes the head. *)
Definition dispatch (s : state) : state :=
  match currentCPU s, readyQueue s with
  | None, next :: rest =>
      let s' := with_currentCPU (Some (CpuSlot next (getQuantum s)))
                  (with_readyQueue rest s) in
      match processes s !! next with
      | Some p => logEvent (EvMovedToCPU (pid p)) s'
      | None => s'
      end
  | _, _ => s
  end.

(** [q.waitingTime += 1] and [p.remainingTime = Math.max(0, ... - 1)]. *)
Definition incWaiting (p : process) : process :=
  set_waitingTime (waitingTime p + 1) p.

Definition runUnit (p : process) : process :=
  set_remainingTime (Z.max 0 (remainingTime p - 1)) p.

(** Step 3 of [tick] with the CPU occupied by [c], up to the advance of
    the clock: every object of the queue waits one unit
    ([for (const q of readyQueue) q.waitingTime += 1]), the running one
    executes one unit, the quantum goes down, the time goes up. *)
Definition waitQueue (ps : list process) (rq : list nat) : list process :=
  foldl (fun ps q => alter incWaiting q ps) ps rq.

Definition execUnit (c : cpuSlot) (s : state) : state :=
  let ps := waitQueue (processes s) (readyQueue s) in
  let ps := alter runUnit (proc c) ps in
  with_currentTime (currentTime s + 1)
    (with_currentCPU (Some (CpuSlot (proc c) (Z.max 0 (qLeft c - 1))))
       (with_processes ps s)).

(** [p.finished = true; p.completionTime = currentTime] at clock [t]. *)
Definition finishAt (t : Z) (p : process) : process :=
  set_completionTime (Some t) (set_finished true p).

(** The completion / quantum expiry handling on the running object [i]
    (the variable [p] of [tick]). *)
Definition settle (i : nat) (s : state) : state :=
  match processes s !! i with
  | Some p =>
      if remainingTime p =? 0 then
        let p' := finishAt (currentTime s) p in
        let s := with_processes (<[i := p']> (processes s)) s in
        let s := logEvent (EvFinished (pid p') (currentTime s)) s in
        let s := moveToFinished p' s in
        with_currentCPU None s
      else
        match currentCPU s with
        | Some c =>
            if qLeft c =? 0 then
              let s := with_readyQueue (readyQueue s ++ [i]) s in
              let s := logEvent (EvQuantumExpired (pid p)) s in
              with_currentCPU None s
            else s
        | None => s
        end
  | None => s
  end.

(** The state of [tick] after steps 1 and 2. *)
Definition dispatched (s : state) : state := dispatch (arrivalsStep s).

(** The state of [tick] just before the completion / quantum expiry
    handling (CPU occupied) or at the end of the idle branch. *)
Definition executed (s : state) : state :=
  let s2 := dispatched s in
  match currentCPU s2 with
  | Some c => arrivalsStep (execUnit c s2)
  | None => arrivalsStep (with_currentTime (currentTime s2 + 1) s2)
  end.

(** The state of [tick] before the final test of [allFinished]: the
    handling of completion and quantum expiry is in the branch of the
    occupied CPU only. *)
Definition settled (s : state) : state :=
  match currentCPU (dispatched s) with
  | Some c => settle (proc c) (executed s)
  | None => executed s
  end.

(** [tick]; the rendering calls are left out. *)
Definition tick (s : state) : state :=
  let s3 := settled s in
  if allFinished s3 then stopSim s3 else s3.

(** The objects that [deepReset] builds from [initialProcesses]. *)
Definition freshProcess (d : procDef) : process :=
  Process (d_id d) (d_burstTime d) (d_arrivalTime d) (d_color d)
          (d_burstTime d) 0 None false false.

(** [deepReset], over the table [initialProcesses]. *)
Definition deepReset (initialProcesses : list procDef) (s : state) : state :=
  State (freshProcess <$> initialProcesses) [] 0 false false None []
        (quantumInput s) (getQuantum s) [].

(** [resetSim]. *)
Definition resetSim (initialProcesses : list procDef) (s : state) : state :=
  deepReset initialProcesses (stopSim s).

(** The listener of the quantum field: the new value is shown. *)
Definition onQuantumInput (q : option Z) (s : state) : state :=
  let s := with_quantumInput q s in
  with_quantumDisplayEl (getQuantum s) s.

(** The table of the source. *)
Definition initialProcesses : list procDef :=
  [ ProcDef "P1" 8 0 "#e91e63";
    ProcDef "P2" 5 2 "#9c27b0";
    ProcDef "P3" 12 4 "#3f51b5";
    ProcDef "P4" 6 6 "#009688" ].

(** The values of the module-level variables when the script is loaded,
    with the quantum field holding [q]. *)
Definition loaded (q : option Z) : state :=
  State [] [] 0 false false None [] q 0 [].

(** The waiting time that [renderStats] shows for a finished process:
    [TAT - burstTime] with [TAT = completionTime - arrivalTime]. *)
Definition statsWT (p : process) : option Z :=
  match completionTime p with
  | Some ct => Some ((ct - arrivalTime p) - burstTime p)
  | None => None
  end.

(** [n] calls of [tick]. *)
Definition ticks (n : nat) (s : state) : state := Nat.iter n tick s.

(** The states that the page can be in: after a reset, and from there by
    ticks, by editing the quantum field and by the start button. *)
Inductive reachable (defs : list procDef) : state → Prop :=
  | reach_reset s : reachable defs (deepReset defs s)
  | reach_tick s : reachable defs s → reachable defs (tick s)
  | reach_input q s : reachable defs s → reachable defs (onQuantumInput q s)
  | reach_start s : reachable defs s → reachable defs (startSim s)
  | reach_stop s : reachable defs s → reachable defs (stopSim s).

(** The scenario of two processes of the specification (quantum 2):
    its table, its reset state, and the shape of its two objects. *)
Definition scenarioB : list procDef :=
  [ ProcDef "P1" 3 0 "#e91e63"; ProcDef "P2" 2 1 "#9c27b0" ].

Definition startB : state := deepReset scenarioB (loaded (Some 2)).

Definition objP1 (r w : Z) (ct : option Z) (a f : bool) : process :=
  Process "P1" 3 0 "#e91e63" r w ct a f.

Definition objP2 (r w : Z) (ct : option Z) (a f : bool) : process :=
  Process "P2" 2 1 "#9c27b0" r w ct a f.

(** A variant in which P2 arrives at time 2, the instant at which the
    quantum of P1 expires; its state after one tick. *)
Definition scenarioB' : list procDef :=
  [ ProcDef "P1" 3 0 "#e91e63"; ProcDef "P2" 2 2 "#9c27b0" ].

Definition midB' : state := ticks 1 (deepReset scenarioB' (loaded (Some 2))).

(** ** Closed forms, invariants and measures used below *)

(** *** The arrival scan in closed form *)

(** The test of the loop of [arrivalsStep] at clock [t]. *)
Definition arrives (t : Z) (p : process) : bool :=
  negb (arrived p) && (arrivalTime p <=? t).

Definition arr (t : Z) (p : process) : process :=
  if arrives t p then set_arrived true p else p.

(** The references pushed by a scan of [ps], whose first object is at
    position [i], and the entries logged. *)
Fixpoint newly (t : Z) (i : nat) (ps : list process) : list nat :=
  match ps with
  | [] => []
  | p :: ps' => (if arrives t p then [i] else []) ++ newly t (S i) ps'
  end.

Fixpoint newEvents (t : Z) (ps : list process) : list (Z * event) :=
  match ps with
  | [] => []
  | p :: ps' => (if arrives t p then [(t, EvArrived (pid p))] else []) ++ newEvents t ps'
  end.

(** *** Mutual exclusion of queue, CPU slot and finished set *)

(** The references of the queue are distinct, and point to arrived,
    unfinished objects; so does the reference of the CPU slot, which is
    not in the queue; a finished object has arrived. *)
Record Excl (s : state) : Prop := {
  excl_nodup : NoDup (readyQueue s);
  excl_queue : ∀ i, i ∈ readyQueue s →
    ∃ p, processes s !! i = Some p ∧ arrived p = true ∧ finished p = false;
  excl_cpu : ∀ c, currentCPU s = Some c →
    (proc c ∉ readyQueue s) ∧
    (∃ p, processes s !! proc c = Some p ∧ arrived p = true ∧ finished p = false);
  excl_fin : ∀ i p, processes s !! i = Some p → finished p = true → arrived p = true
}.

(** What one executed unit does to the object at position [i]. *)
Definition unitEffect (c : cpuSlot) (s : state) (i : nat) : process → process :=
  if decide (i = proc c) then runUnit
  else if decide (i ∈ readyQueue s) then incWaiting
  else λ p, p.

(** *** Accounting of waiting and executed units *)

(** The reference held by the CPU slot. *)
Definition cpuRef (s : state) : option nat := proc <$> currentCPU s.

(** For every object: a positive burst; before its arrival nothing has
    been counted and its arrival time is at least [lo]; between arrival
    and completion it is in the queue or on the CPU and the units it has
    waited plus the units it has executed are the time since its arrival;
    once finished, its waiting time is the one [renderStats] derives. *)
Record Acct (lo : Z) (s : state) : Prop := {
  acct_valid : ∀ i p, processes s !! i = Some p → 0 < burstTime p;
  acct_new : ∀ i p, processes s !! i = Some p → arrived p = false →
    waitingTime p = 0 ∧ remainingTime p = burstTime p ∧ lo ≤ arrivalTime p;
  acct_live : ∀ i p, processes s !! i = Some p →
    arrived p = true → finished p = false →
    (i ∈ readyQueue s ∨ cpuRef s = Some i) ∧
    0 ≤ remainingTime p ∧
    (cpuRef s ≠ Some i → 0 < remainingTime p) ∧
    waitingTime p + (burstTime p - remainingTime p) = currentTime s - arrivalTime p;
  acct_done : ∀ i p, processes s !! i = Some p → finished p = true →
    remainingTime p = 0 ∧
    ∃ ct, completionTime p = Some ct ∧
          waitingTime p = (ct - arrivalTime p) - burstTime p ∧
          ct ≤ currentTime s
}.

(** The object on the CPU between two ticks still has work to do. *)
Definition CpuPos (s : state) : Prop :=
  ∀ c p, currentCPU s = Some c → processes s !! proc c = Some p →
         0 < remainingTime p.

(** *** The invariant of the engine *)

Definition Inv (s : state) : Prop :=
  Excl s ∧ Acct (currentTime s) s ∧ CpuPos s.

(** The definitions that the specification takes as valid input:
    positive bursts and arrival times that are not negative. *)
Definition validDefs (defs : list procDef) : Prop :=
  Forall (λ d, 0 < d_burstTime d ∧ 0 ≤ d_arrivalTime d) defs.

(** *** What the handling of completion does to the store *)

Definition settleEffect (j : nat) (s : state) (i : nat) : process → process :=
  if decide (i = j) then
    match processes s !! j with
    | Some p => if remainingTime p =? 0 then finishAt (currentTime s) else λ q, q
    | None => λ q, q
    end
  else λ q, q.

(** The fields that no step of the simulation writes. *)
Definition stat (p : process) : string * Z * Z * string :=
  (pid p, burstTime p, arrivalTime p, color p).

(** *** Concrete states *)

(** A state left by three ticks of the table of the source, in which the
    quantum field has then been set to 0. *)
Definition zeroQuantumState : state :=
  onQuantumInput (Some 0) (ticks 3 (deepReset initialProcesses (loaded (Some 2)))).

(** *** Termination *)

Definition sumZ (l : list Z) : Z := foldr Z.add 0 l.

(** The sum of the bursts and the largest arrival time of a table. *)
Definition sumBurst (defs : list procDef) : Z := sumZ (d_burstTime <$> defs).

Definition maxArrival (defs : list procDef) : Z :=
  foldr Z.max 0 (d_arrivalTime <$> defs).

(** The work left. *)
Definition totalRemaining (s : state) : Z := sumZ (remainingTime <$> processes s).

(** A tick is idle when the CPU slot is empty after the dispatch step:
    [tick] then takes its [else] branch. *)
Definition isIdleTick (s : state) : bool :=
  match currentCPU (dispatched s) with
  | Some _ => false
  | None => true
  end.

(** The idle ticks among the first [n] ticks from [s]. *)
Fixpoint idleTicks (n : nat) (s : state) : Z :=
  match n with
  | O => 0
  | S n' => idleTicks n' s + (if isIdleTick (ticks n' s) then 1 else 0)
  end.

(** The bound on the ticks still needed. *)
Definition ticksLeft (defs : list procDef) (s : state) : Z :=
  totalRemaining s + Z.max 0 (maxArrival defs - currentTime s).

(** A table with a gap between the end of the first process and the
    arrival of the second, and its reset state. *)
Definition gapDefs : list procDef :=
  [ ProcDef "P1" 1 0 "#e91e63"; ProcDef "P2" 1 10 "#9c27b0" ].

Definition startGap : state := deepReset gapDefs (loaded (Some 2)).

(** ** Further definitions: one tick on one object, the finished lane *)

(** What a whole tick does to the object at position [i]: the first
    scan, then (CPU occupied) the executed unit, the second scan and the
    completion handling, or (CPU idle) the second scan alone. *)
Definition tickEffect (s : state) (i : nat) (p : process) : process :=
  match currentCPU (dispatched s) with
  | Some c =>
      settleEffect (proc c) (executed s) i
        (arr (currentTime s + 1)
           (unitEffect c (dispatched s) i (arr (currentTime s) p)))
  | None => arr (currentTime s + 1) (arr (currentTime s) p)
  end.

(** The fields of the engine proper, without the timer flags and the
    quantum field. *)
Definition sameEngine (s s' : state) : Prop :=
  processes s' = processes s ∧ readyQueue s' = readyQueue s ∧
  currentTime s' = currentTime s ∧ currentCPU s' = currentCPU s ∧
  finishedOrder s' = finishedOrder s ∧ historyList s' = historyList s.

(** [finishedOrder.indexOf(x)]: the first position of [x], -1 when [x]
    does not occur. *)
Fixpoint indexOf (l : list string) (x : string) : Z :=
  match l with
  | [] => -1
  | y :: l' =>
      if bool_decide (y = x) then 0
      else let r := indexOf l' x in if r <? 0 then -1 else r + 1
  end.

(** The slot of [moveToFinished] in the finished lane:
    [idx = index >= 0 ? index : finishedOrder.length]. *)
Definition finishedSlot (p : process) (s : state) : Z :=
  let index := indexOf (finishedOrder s) (pid p) in
  if 0 <=? index then index else Z.of_nat (length (finishedOrder s)).

(** The units accounted to a process so far: those it has waited plus
    those it has executed. *)
Definition accounted (p : process) : Z :=
  waitingTime p + (burstTime p - remainingTime p).

(** The quantum that the process on the CPU has left, 0 with the CPU
    idle. *)
Definition cpuQuantumLeft (s : state) : Z :=
  match currentCPU s with
  | Some c => qLeft c
  | None => 0
  end.

(** *** The figures of [renderStats] *)

(** [p.completionTime] as a number in a subtraction: [null] counts as
    0. *)
Definition ctNum (p : process) : Z :=
  match completionTime p with
  | Some ct => ct
  | None => 0
  end.

(** [processes.filter(p => p.finished)]. *)
Definition statsFinished (s : state) : list process :=
  List.filter finished (processes s).

(** The row of a finished process: id, completion time, [TAT] and
    [WT]. *)
Definition statsRow (p : process) : string * Z * Z * Z :=
  (pid p, ctNum p, ctNum p - arrivalTime p, (ctNum p - arrivalTime p) - burstTime p).

(** The two sums of [renderStats], before the division by
    [finished.length]: [finished.reduce((s, p) => s + ..., 0)]. *)
Definition sumTAT (s : state) : Z :=
  foldl (λ acc p, acc + (ctNum p - arrivalTime p)) 0 (statsFinished s).

Definition sumWT (s : state) : Z :=
  foldl (λ acc p, acc + ((ctNum p - arrivalTime p) - burstTime p)) 0
        (statsFinished s).

(** The process on the CPU needs no more than the quantum it has
    left. *)
Definition fitsQuantum (s : state) : Prop :=
  ∀ c p, currentCPU s = Some c → processes s !! proc c = Some p →
         remainingTime p ≤ qLeft c.

(** * Proofs *)

(** ** The arrival scan in closed form *)

Lemma foldl_arrive (rest pre : list process) (s : state) :
  processes s = pre ++ rest →
  foldl arrive s (seq (length pre) (length rest)) =
  State (pre ++ (arr (currentTime s) <$> rest))
        (readyQueue s ++ newly (currentTime s) (length pre) rest)
        (currentTime s) (running s) (tickHandle s) (currentCPU s)
        (finishedOrder s) (quantumInput s) (quantumDisplayEl s)
        (historyList s ++ newEvents (currentTime s) rest).
Proof.
  revert pre s. induction rest as [|p rest IH]; intros pre s Hps.
  - destruct s; simpl in *. rewrite !app_nil_r in *. by subst.
  - cbn [length seq foldl].
    assert (Hlook : processes s !! length pre = Some p)
      by (rewrite Hps; apply list_lookup_middle; reflexivity).
    unfold arrive at 2. rewrite Hlook.
    cbn [fmap list_fmap newly newEvents]. unfold arr at 1.
    fold (arrives (currentTime s) p).
    destruct (arrives (currentTime s) p) eqn:Ha.
    + set (s' := logEvent _ _).
      assert (Hps' : processes s' = (pre ++ [set_arrived true p]) ++ rest).
      { subst s'. cbn. rewrite Hps.
        rewrite alter_app_r_alt by lia. rewrite Nat.sub_diag. cbn.
        by rewrite <- app_assoc. }
      specialize (IH _ _ Hps').
      rewrite length_app in IH. cbn [length] in IH.
      replace (length pre + 1)%nat with (S (length pre)) in IH by lia.
      rewrite IH. subst s'. cbn.
      by rewrite <- !app_assoc.
    + assert (Hps' : processes s = (pre ++ [p]) ++ rest)
        by (rewrite Hps; by rewrite <- app_assoc).
      specialize (IH _ _ Hps').
      rewrite length_app in IH. cbn [length] in IH.
      replace (length pre + 1)%nat with (S (length pre)) in IH by lia.
      rewrite IH. cbn. by rewrite <- !app_assoc.
Qed.

Lemma arrivalsStep_eq (s : state) :
  arrivalsStep s =
  State (arr (currentTime s) <$> processes s)
        (readyQueue s ++ newly (currentTime s) 0 (processes s))
        (currentTime s) (running s) (tickHandle s) (currentCPU s)
        (finishedOrder s) (quantumInput s) (quantumDisplayEl s)
        (historyList s ++ newEvents (currentTime s) (processes s)).
Proof. unfold arrivalsStep. exact (foldl_arrive (processes s) [] s eq_refl). Qed.

Lemma elem_of_newly (t : Z) (ps : list process) (i j : nat) :
  j ∈ newly t i ps ↔
  (i ≤ j)%nat ∧ ∃ p, ps !! (j - i)%nat = Some p ∧ arrives t p = true.
Proof.
  revert i. induction ps as [|p ps IH]; intros i; cbn [newly].
  - split; [by intros ?%elem_of_nil | by intros (_ & ? & ? & _)].
  - rewrite elem_of_app, IH. split.
    + intros [Hj | (Hle & q & Hq & Ha)].
      * destruct (arrives t p) eqn:Ha; [|by apply elem_of_nil in Hj].
        apply list_elem_of_singleton in Hj as ->.
        split; [lia|]. exists p. by rewrite Nat.sub_diag.
      * split; [lia|]. exists q. split; [|done].
        replace (j - i)%nat with (S (j - S i)) by lia. done.
    + intros (Hle & q & Hq & Ha).
      destruct (decide (j = i)) as [->|Hne].
      * left. rewrite Nat.sub_diag in Hq. simplify_eq/=. rewrite Ha.
        by apply list_elem_of_singleton.
      * right. split; [lia|]. exists q. split; [|done].
        replace (j - i)%nat with (S (j - S i)) in Hq by lia. done.
Qed.

Lemma NoDup_newly (t : Z) (ps : list process) (i : nat) : NoDup (newly t i ps).
Proof.
  revert i. induction ps as [|p ps IH]; intros i; cbn [newly].
  - constructor.
  - destruct (arrives t p); [|apply IH].
    cbn. constructor; [|apply IH].
    rewrite elem_of_newly. lia.
Qed.

(** ** Mutual exclusion of queue, CPU slot and finished set *)

Lemma arr_arrived (t : Z) (p : process) :
  arrived (arr t p) = arrived p || arrives t p.
Proof.
  unfold arr, arrives. destruct p as [? ? a ? ? ? ? b ?]; cbn.
  by destruct b, (a <=? t).
Qed.

Lemma arr_finished (t : Z) (p : process) : finished (arr t p) = finished p.
Proof. unfold arr. by destruct (arrives t p). Qed.

Lemma arrives_not_arrived (t : Z) (p : process) :
  arrives t p = true → arrived p = false.
Proof. unfold arrives. by destruct (arrived p). Qed.

Lemma Excl_arrivalsStep (s : state) : Excl s → Excl (arrivalsStep s).
Proof.
  intros [Hnd Hq Hc Hf]. rewrite arrivalsStep_eq. split; cbn.
  - apply NoDup_app. split; [done|]. split; [|apply NoDup_newly].
    intros i Hi (_ & p & Hp & Ha)%elem_of_newly.
    rewrite Nat.sub_0_r in Hp.
    destruct (Hq i Hi) as (p' & Hp' & Harr & _). simplify_eq.
    apply arrives_not_arrived in Ha. congruence.
  - intros i [Hi | (_ & p & Hp & Ha)%elem_of_newly]%elem_of_app.
    + destruct (Hq i Hi) as (p & Hp & Harr & Hfin).
      exists (arr (currentTime s) p). rewrite list_lookup_fmap, Hp.
      by rewrite arr_arrived, arr_finished, Harr.
    + rewrite Nat.sub_0_r in Hp.
      exists (arr (currentTime s) p). rewrite list_lookup_fmap, Hp.
      rewrite arr_arrived, arr_finished, Ha, orb_true_r.
      repeat split. destruct (finished p) eqn:Hfin; [|done].
      apply arrives_not_arrived in Ha. specialize (Hf _ _ Hp Hfin). congruence.
  - intros c Hcpu. destruct (Hc c Hcpu) as (Hnin & p & Hp & Harr & Hfin). split.
    + intros [Hi | (_ & p' & Hp' & Ha)%elem_of_newly]%elem_of_app; [done|].
      rewrite Nat.sub_0_r in Hp'. simplify_eq.
      apply arrives_not_arrived in Ha. congruence.
    + exists (arr (currentTime s) p). rewrite list_lookup_fmap, Hp.
      by rewrite arr_arrived, arr_finished, Harr.
  - intros i p' Hp' Hfin. rewrite list_lookup_fmap in Hp'.
    destruct (processes s !! i) as [p|] eqn:Hp; simplify_eq/=.
    rewrite arr_finished in Hfin. rewrite arr_arrived.
    by rewrite (Hf _ _ Hp Hfin).
Qed.

Lemma dispatch_processes (s : state) : processes (dispatch s) = processes s.
Proof.
  unfold dispatch. destruct (currentCPU s), (readyQueue s) as [|n r]; try done.
  by destruct (processes s !! n).
Qed.

Lemma dispatch_currentTime (s : state) : currentTime (dispatch s) = currentTime s.
Proof.
  unfold dispatch. destruct (currentCPU s), (readyQueue s) as [|n r]; try done.
  by destruct (processes s !! n).
Qed.

Lemma dispatch_spec (s : state) :
  match currentCPU s, readyQueue s with
  | None, next :: rest =>
      currentCPU (dispatch s) = Some (CpuSlot next (getQuantum s)) ∧
      readyQueue (dispatch s) = rest
  | _, _ => dispatch s = s
  end.
Proof.
  unfold dispatch. destruct (currentCPU s), (readyQueue s) as [|n r]; try done.
  by destruct (processes s !! n).
Qed.

Lemma Excl_dispatch (s : state) : Excl s → Excl (dispatch s).
Proof.
  intros HE. pose proof (dispatch_spec s) as Hd.
  destruct (currentCPU s) as [c|] eqn:Hcpu; [by rewrite Hd|].
  destruct (readyQueue s) as [|n r] eqn:Hrq; [by rewrite Hd|].
  destruct Hd as [Hc Hr]. destruct HE as [Hnd Hq _ Hf].
  rewrite Hrq in Hnd, Hq. apply NoDup_cons in Hnd as [Hn Hnd].
  split; rewrite ?dispatch_processes, ?Hr; try done.
  - intros i Hi. apply Hq. by right.
  - intros c. rewrite Hc. intros [= <-]. cbn. split; [done|].
    apply Hq. by left.
Qed.

Lemma waitQueue_length (rq : list nat) (ps : list process) :
  length (waitQueue ps rq) = length ps.
Proof.
  revert ps. induction rq as [|q rq IH]; intros ps; [done|].
  cbn. unfold waitQueue in IH. by rewrite IH, length_alter.
Qed.

Lemma waitQueue_lookup_notin (rq : list nat) (ps : list process) (j : nat) :
  j ∉ rq → waitQueue ps rq !! j = ps !! j.
Proof.
  revert ps. induction rq as [|q rq IH]; intros ps Hj; [done|].
  apply not_elem_of_cons in Hj as [Hne Hj].
  cbn. unfold waitQueue in IH. rewrite IH by done.
  by apply list_lookup_alter_ne.
Qed.

Lemma waitQueue_lookup_in (rq : list nat) (ps : list process) (j : nat) :
  NoDup rq → j ∈ rq → waitQueue ps rq !! j = incWaiting <$> ps !! j.
Proof.
  revert ps. induction rq as [|q rq IH]; intros ps Hnd Hj.
  - by apply elem_of_nil in Hj.
  - apply NoDup_cons in Hnd as [Hq Hnd]. cbn.
    apply elem_of_cons in Hj as [->|Hj].
    + fold (waitQueue (alter incWaiting q ps) rq).
      rewrite waitQueue_lookup_notin by done. apply list_lookup_alter_eq.
    + unfold waitQueue in IH. rewrite IH by done.
      rewrite list_lookup_alter_ne; [done|]. by intros ->.
Qed.

Lemma execUnit_lookup (c : cpuSlot) (s : state) (i : nat) :
  NoDup (readyQueue s) → proc c ∉ readyQueue s →
  processes (execUnit c s) !! i = unitEffect c s i <$> processes s !! i.
Proof.
  intros Hnd Hc. unfold execUnit, unitEffect. cbn.
  destruct (decide (i = proc c)) as [->|Hne].
  - rewrite list_lookup_alter_eq. by rewrite waitQueue_lookup_notin.
  - rewrite list_lookup_alter_ne by done.
    destruct (decide (i ∈ readyQueue s)) as [Hi|Hi].
    + by apply waitQueue_lookup_in.
    + rewrite waitQueue_lookup_notin by done. by rewrite option_fmap_id.
Qed.

Lemma unitEffect_arrived c s i p : arrived (unitEffect c s i p) = arrived p.
Proof. unfold unitEffect. by repeat case_decide. Qed.

Lemma unitEffect_finished c s i p : finished (unitEffect c s i p) = finished p.
Proof. unfold unitEffect. by repeat case_decide. Qed.

Lemma Excl_execUnit (c : cpuSlot) (s : state) :
  currentCPU s = Some c → Excl s → Excl (execUnit c s).
Proof.
  intros Hcpu [Hnd Hq Hc Hf].
  destruct (Hc c Hcpu) as (Hnin & pc & Hpc & Hac & Hfc).
  split.
  - done.
  - intros i Hi. destruct (Hq i Hi) as (p & Hp & Ha & Hfin).
    exists (unitEffect c s i p). rewrite execUnit_lookup, Hp by done.
    by rewrite unitEffect_arrived, unitEffect_finished.
  - intros c' Hc'.
    assert (proc c' = proc c) as -> by (cbn in Hc'; by simplify_eq).
    split; [done|].
    exists (unitEffect c s (proc c) pc). rewrite execUnit_lookup, Hpc by done.
    by rewrite unitEffect_arrived, unitEffect_finished.
  - intros i p' Hp'. rewrite execUnit_lookup in Hp' by done.
    destruct (processes s !! i) as [p|] eqn:Hp; simplify_eq/=.
    rewrite unitEffect_arrived, unitEffect_finished. eauto.
Qed.

(** [moveToFinished] writes [finishedOrder] only. *)
Lemma moveToFinished_frame (p : process) (s : state) :
  processes (moveToFinished p s) = processes s ∧
  readyQueue (moveToFinished p s) = readyQueue s ∧
  currentTime (moveToFinished p s) = currentTime s ∧
  currentCPU (moveToFinished p s) = currentCPU s ∧
  historyList (moveToFinished p s) = historyList s.
Proof. unfold moveToFinished. by case_bool_decide. Qed.

(** The three outcomes of the completion / quantum expiry handling. *)
Lemma settle_finish (i : nat) (s : state) (p : process) :
  processes s !! i = Some p → remainingTime p = 0 →
  processes (settle i s) = <[i := finishAt (currentTime s) p]> (processes s) ∧
  readyQueue (settle i s) = readyQueue s ∧
  currentTime (settle i s) = currentTime s ∧
  currentCPU (settle i s) = None ∧
  historyList (settle i s) =
    historyList s ++ [(currentTime s, EvFinished (pid p) (currentTime s))].
Proof.
  intros Hp Hr. unfold settle. rewrite Hp, Hr. cbn [Z.eqb].
  cbv zeta. unfold moveToFinished. by case_bool_decide.
Qed.

Lemma settle_expire (i : nat) (s : state) (p : process) (c : cpuSlot) :
  processes s !! i = Some p → remainingTime p ≠ 0 →
  currentCPU s = Some c → qLeft c = 0 →
  processes (settle i s) = processes s ∧
  readyQueue (settle i s) = readyQueue s ++ [i] ∧
  currentTime (settle i s) = currentTime s ∧
  currentCPU (settle i s) = None ∧
  historyList (settle i s) =
    historyList s ++ [(currentTime s, EvQuantumExpired (pid p))].
Proof.
  intros Hp Hr Hc Hq. unfold settle. rewrite Hp, Hc, Hq.
  apply Z.eqb_neq in Hr as ->. done.
Qed.

Lemma settle_continue (i : nat) (s : state) (p : process) (c : cpuSlot) :
  processes s !! i = Some p → remainingTime p ≠ 0 →
  currentCPU s = Some c → qLeft c ≠ 0 →
  settle i s = s.
Proof.
  intros Hp Hr Hc Hq. unfold settle. rewrite Hp, Hc.
  apply Z.eqb_neq in Hr as ->. by apply Z.eqb_neq in Hq as ->.
Qed.

Lemma Excl_ext (s s' : state) :
  processes s' = processes s → readyQueue s' = readyQueue s →
  currentCPU s' = currentCPU s → Excl s → Excl s'.
Proof. intros Hp Hq Hc [? ? ? ?]. split; rewrite ?Hp, ?Hq, ?Hc; done. Qed.

Lemma Excl_settle (c : cpuSlot) (s : state) :
  currentCPU s = Some c → Excl s → Excl (settle (proc c) s).
Proof.
  intros Hcpu HE. pose proof HE as [Hnd Hq Hc Hf].
  destruct (Hc c Hcpu) as (Hnin & p & Hp & Ha & Hfin).
  destruct (decide (remainingTime p = 0)) as [Hr|Hr].
  - destruct (settle_finish _ _ _ Hp Hr) as (Hps & Hrq & _ & Hc' & _).
    split; rewrite ?Hps, ?Hrq, ?Hc'; try done.
    + intros i Hi. destruct (Hq i Hi) as (q & Hq' & ? & ?).
      exists q. rewrite list_lookup_insert_ne; [done|]. by intros <-.
    + intros i q Hi. destruct (decide (i = proc c)) as [->|Hne].
      * rewrite list_lookup_insert_eq in Hi by (by eapply lookup_lt_Some).
        by simplify_eq.
      * rewrite list_lookup_insert_ne in Hi by done. eauto.
  - destruct (decide (qLeft c = 0)) as [Hz|Hz].
    + destruct (settle_expire _ _ _ _ Hp Hr Hcpu Hz) as (Hps & Hrq & _ & Hc' & _).
      split; rewrite ?Hps, ?Hrq, ?Hc'; try done.
      * apply NoDup_app. split; [done|]. split; [|apply NoDup_singleton].
        intros i Hi ->%list_elem_of_singleton. done.
      * intros i [Hi | ->%list_elem_of_singleton]%elem_of_app; eauto.
    + by rewrite (settle_continue _ _ _ _ Hp Hr Hcpu Hz).
Qed.

Lemma Excl_with_currentTime (t : Z) (s : state) : Excl s → Excl (with_currentTime t s).
Proof. by apply Excl_ext. Qed.

Lemma Excl_stopSim (s : state) : Excl s → Excl (stopSim s).
Proof. by apply Excl_ext. Qed.

Lemma arrivalsStep_currentCPU (s : state) : currentCPU (arrivalsStep s) = currentCPU s.
Proof. by rewrite arrivalsStep_eq. Qed.

Lemma arrivalsStep_currentTime (s : state) : currentTime (arrivalsStep s) = currentTime s.
Proof. by rewrite arrivalsStep_eq. Qed.

Lemma Excl_dispatched (s : state) : Excl s → Excl (dispatched s).
Proof. intros. by apply Excl_dispatch, Excl_arrivalsStep. Qed.

Lemma Excl_executed (s : state) : Excl s → Excl (executed s).
Proof.
  intros HE%Excl_dispatched. unfold executed.
  destruct (currentCPU (dispatched s)) as [c|] eqn:Hc.
  - by apply Excl_arrivalsStep, Excl_execUnit.
  - by apply Excl_arrivalsStep, Excl_with_currentTime.
Qed.

(** The CPU slot after the executed unit and the scan behind it still
    refers to the same object. *)
Lemma executed_currentCPU (s : state) (c : cpuSlot) :
  currentCPU (dispatched s) = Some c →
  currentCPU (executed s) = Some (CpuSlot (proc c) (Z.max 0 (qLeft c - 1))).
Proof. intros Hc. unfold executed. rewrite Hc. by rewrite arrivalsStep_currentCPU. Qed.

Lemma Excl_tick (s : state) : Excl s → Excl (tick s).
Proof.
  intros HE. unfold tick.
  assert (Excl (match currentCPU (dispatched s) with
                | Some c => settle (proc c) (executed s)
                | None => executed s
                end)) as HE'.
  { destruct (currentCPU (dispatched s)) as [c|] eqn:Hc.
    - apply (Excl_settle (CpuSlot (proc c) (Z.max 0 (qLeft c - 1)))).
      + by apply executed_currentCPU.
      + by apply Excl_executed.
    - by apply Excl_executed. }
  destruct (allFinished _); [by apply Excl_stopSim | done].
Qed.

Lemma Excl_deepReset (defs : list procDef) (s : state) : Excl (deepReset defs s).
Proof.
  split; cbn.
  - constructor.
  - by intros i ?%elem_of_nil.
  - done.
  - intros i p Hp. rewrite list_lookup_fmap in Hp.
    destruct (defs !! i); by simplify_eq/=.
Qed.

Lemma Excl_reachable (defs : list procDef) (s : state) : reachable defs s → Excl s.
Proof.
  induction 1 as [s|s _ IH|q s _ IH|s _ IH|s _ IH].
  - apply Excl_deepReset.
  - by apply Excl_tick.
  - revert IH. by apply Excl_ext.
  - revert IH. apply Excl_ext; unfold startSim; by destruct (running s).
  - by apply Excl_stopSim.
Qed.

(** ** Accounting of waiting and executed units *)

Lemma Acct_weaken (lo lo' : Z) (s : state) : lo' ≤ lo → Acct lo s → Acct lo' s.
Proof.
  intros Hle [Hv Hn Hl Hd]. split; try done.
  intros i p Hp Ha. destruct (Hn i p Hp Ha) as (? & ? & ?). repeat split; [done..|lia].
Qed.

Lemma arrives_le (t : Z) (p : process) : arrives t p = true → arrivalTime p ≤ t.
Proof. unfold arrives. intros [_ H]%andb_true_iff. lia. Qed.

Lemma not_arrives_gt (t : Z) (p : process) :
  arrived p = false → arrives t p = false → t < arrivalTime p.
Proof. unfold arrives. intros ->. cbn. lia. Qed.

Lemma arr_id (t : Z) (p : process) : arrives t p = false → arr t p = p.
Proof. unfold arr. by intros ->. Qed.

Lemma arrived_not_arrives (t : Z) (p : process) :
  arrived p = true → arrives t p = false.
Proof. unfold arrives. by intros ->. Qed.

Lemma Acct_arrivalsStep (s : state) :
  Excl s → Acct (currentTime s) s → Acct (currentTime s + 1) (arrivalsStep s).
Proof.
  intros HE [Hv Hn Hl Hd]. rewrite arrivalsStep_eq.
  set (t := currentTime s). split; cbn.
  - intros i p' Hp'. rewrite list_lookup_fmap in Hp'.
    destruct (processes s !! i) as [p|] eqn:Hp; simplify_eq/=.
    unfold arr. destruct (arrives t p); cbn; eauto.
  - intros i p' Hp' Ha'. rewrite list_lookup_fmap in Hp'.
    destruct (processes s !! i) as [p|] eqn:Hp; simplify_eq/=.
    rewrite arr_arrived in Ha'. apply orb_false_iff in Ha' as [Ha Hnot].
    rewrite arr_id by done. destruct (Hn i p Hp Ha) as (? & ? & ?).
    pose proof (not_arrives_gt t p Ha Hnot). repeat split; [done..|lia].
  - intros i p' Hp' Ha' Hf'. rewrite list_lookup_fmap in Hp'.
    destruct (processes s !! i) as [p|] eqn:Hp; simplify_eq/=.
    rewrite arr_finished in Hf'. rewrite arr_arrived in Ha'.
    destruct (arrived p) eqn:Ha.
    + rewrite arr_id by (by apply arrived_not_arrives).
      destruct (Hl i p Hp Ha Hf') as ([Hin|Hc] & ? & ? & ?).
      * repeat split; try done. left. apply elem_of_app. by left.
      * repeat split; try done. by right.
    + cbn in Ha'. destruct (Hn i p Hp Ha) as (Hw & Hr & Hlo).
      pose proof (arrives_le t p Ha') as Hle. pose proof (Hv i p Hp) as Hb.
      unfold arr. rewrite Ha'. cbn. repeat split; try lia.
      left. apply elem_of_app. right. apply elem_of_newly.
      split; [lia|]. exists p. by rewrite Nat.sub_0_r.
  - intros i p' Hp' Hf'. rewrite list_lookup_fmap in Hp'.
    destruct (processes s !! i) as [p|] eqn:Hp; simplify_eq/=.
    rewrite arr_finished in Hf'.
    rewrite arr_id
      by (apply arrived_not_arrives; by eapply (excl_fin s HE)).
    by apply (Hd i).
Qed.

Lemma Acct_dispatch (lo : Z) (s : state) :
  Excl s → CpuPos s → Acct lo s → Acct lo (dispatch s) ∧ CpuPos (dispatch s).
Proof.
  intros HE HP HA. pose proof (dispatch_spec s) as Hd.
  destruct (currentCPU s) as [c|] eqn:Hcpu; [by rewrite Hd|].
  destruct (readyQueue s) as [|n r] eqn:Hrq; [by rewrite Hd|].
  destruct Hd as [Hc Hr]. destruct HA as [Hv Hn Hl Hdn].
  assert (Href : cpuRef s = None) by (unfold cpuRef; by rewrite Hcpu).
  assert (Href' : cpuRef (dispatch s) = Some n) by (unfold cpuRef; by rewrite Hc).
  split.
  - split; rewrite ?dispatch_processes, ?dispatch_currentTime, ?Hr, ?Href'; try done.
    intros i p Hp Ha Hf. destruct (Hl i p Hp Ha Hf) as (Hin & ? & Hpos & ?).
    rewrite Hrq, Href in Hin. rewrite Href in Hpos. repeat split; try done.
    + destruct Hin as [[->|Hin]%elem_of_cons|?]; [by right|by left|done].
    + intros _. by apply Hpos.
  - intros c' p. rewrite Hc, dispatch_processes. intros [= <-] Hp. cbn in Hp.
    assert (Hnq : n ∈ readyQueue s) by (rewrite Hrq; by left).
    destruct (excl_queue s HE n Hnq) as (p' & Hp' & Ha & Hf).
    assert (p' = p) as -> by congruence.
    destruct (Hl n p Hp' Ha Hf) as (_ & _ & Hpos & _).
    apply Hpos. by rewrite Href.
Qed.

Lemma Acct_execUnit (c : cpuSlot) (s : state) :
  currentCPU s = Some c → Excl s → CpuPos s →
  Acct (currentTime s + 1) s →
  Acct (currentTime s + 1) (execUnit c s).
Proof.
  intros Hcpu HE HP [Hv Hn Hl Hd]. pose proof HE as [Hnd Hq Hc Hf].
  destruct (Hc c Hcpu) as (Hnin & pc & Hpc & Hac & Hfc).
  assert (Href : cpuRef s = Some (proc c)) by (unfold cpuRef; by rewrite Hcpu).
  assert (Hnew : ∀ i p, processes s !! i = Some p →
                        arrived p = false ∨ finished p = true →
                        unitEffect c s i p = p).
  { intros i p Hp Hor. unfold unitEffect.
    destruct (decide (i = proc c)) as [->|_].
    - simplify_eq. destruct Hor; congruence.
    - destruct (decide (i ∈ readyQueue s)) as [Hi|_]; [|done].
      destruct (Hq i Hi) as (p' & ? & ? & ?). simplify_eq.
      destruct Hor; congruence. }
  split.
  - intros i p' Hp'. rewrite execUnit_lookup in Hp' by done.
    destruct (processes s !! i) as [p|] eqn:Hp; simplify_eq/=.
    unfold unitEffect. repeat case_decide; cbn; eauto.
  - intros i p' Hp' Ha'. rewrite execUnit_lookup in Hp' by done.
    destruct (processes s !! i) as [p|] eqn:Hp; simplify_eq/=.
    rewrite unitEffect_arrived in Ha'. rewrite Hnew by eauto. eauto.
  - intros i p' Hp' Ha' Hf'. rewrite execUnit_lookup in Hp' by done.
    destruct (processes s !! i) as [p|] eqn:Hp; simplify_eq/=.
    rewrite unitEffect_arrived in Ha'. rewrite unitEffect_finished in Hf'.
    destruct (Hl i p Hp Ha' Hf') as (Hin & Hge & Hpos & Heq).
    change (readyQueue (execUnit c s)) with (readyQueue s).
    change (cpuRef (execUnit c s)) with (Some (proc c)).
    change (currentTime (execUnit c s)) with (currentTime s + 1).
    rewrite Href in Hin, Hpos. unfold unitEffect.
    destruct (decide (i = proc c)) as [->|Hne].
    + assert (p = pc) as -> by congruence.
      pose proof (HP c pc Hcpu Hpc). cbn.
      repeat split; [by right|lia|done|lia].
    + assert (i ∈ readyQueue s) as Hi by (destruct Hin as [?|[= ?]]; done).
      rewrite decide_True by done. cbn.
      assert (0 < remainingTime p) by (apply Hpos; congruence).
      repeat split; [by left|lia|done|lia].
  - intros i p' Hp' Hf'. rewrite execUnit_lookup in Hp' by done.
    destruct (processes s !! i) as [p|] eqn:Hp; simplify_eq/=.
    rewrite unitEffect_finished in Hf'. rewrite Hnew by eauto.
    destruct (Hd i p Hp Hf') as (? & ct & ? & ? & ?).
    split; [done|]. exists ct. repeat split; [done..|lia].
Qed.

Lemma Acct_settle (lo : Z) (c : cpuSlot) (s : state) :
  currentCPU s = Some c → Excl s → Acct lo s →
  Acct lo (settle (proc c) s) ∧ CpuPos (settle (proc c) s).
Proof.
  intros Hcpu HE [Hv Hn Hl Hd]. pose proof HE as [Hnd Hq Hc Hf].
  destruct (Hc c Hcpu) as (Hnin & p & Hp & Ha & Hfin).
  assert (Href : cpuRef s = Some (proc c)) by (unfold cpuRef; by rewrite Hcpu).
  destruct (Hl _ p Hp Ha Hfin) as (_ & Hge & _ & Heq).
  destruct (decide (remainingTime p = 0)) as [Hr|Hr].
  - destruct (settle_finish _ _ _ Hp Hr) as (Hps & Hrq & Ht & Hc' & _).
    assert (Href' : cpuRef (settle (proc c) s) = None)
      by (unfold cpuRef; by rewrite Hc').
    assert (Hlk : ∀ i q, processes (settle (proc c) s) !! i = Some q →
              (i = proc c ∧ q = finishAt (currentTime s) p) ∨
              (i ≠ proc c ∧ processes s !! i = Some q)).
    { intros i q. rewrite Hps. destruct (decide (i = proc c)) as [->|Hne].
      - rewrite list_lookup_insert_eq by (by eapply lookup_lt_Some).
        intros [= <-]. by left.
      - rewrite list_lookup_insert_ne by done. by right. }
    split; [|by intros c' q; rewrite Hc'].
    split; rewrite ?Hrq, ?Ht, ?Href'.
    + intros i q [[-> ->]|[_ Hi]]%Hlk; cbn; eauto.
    + intros i q [[-> ->]|[_ Hi]]%Hlk; cbn; [congruence|eauto].
    + intros i q [[-> ->]|[Hne Hi]]%Hlk; cbn; [done|].
      intros Ha' Hf'. destruct (Hl i q Hi Ha' Hf') as (Hin & ? & Hpos & ?).
      rewrite Href in Hin, Hpos.
      repeat split; try done.
      * destruct Hin as [?|[= ?]]; [by left|done].
      * intros _. apply Hpos. congruence.
    + intros i q [[-> ->]|[_ Hi]]%Hlk; cbn; [|eauto].
      intros _. split; [done|]. exists (currentTime s).
      repeat split; [|lia]. lia.
  - destruct (decide (qLeft c = 0)) as [Hz|Hz].
    + destruct (settle_expire _ _ _ _ Hp Hr Hcpu Hz) as (Hps & Hrq & Ht & Hc' & _).
      assert (Href' : cpuRef (settle (proc c) s) = None)
        by (unfold cpuRef; by rewrite Hc').
      split; [|by intros c' q; rewrite Hc'].
      split; rewrite ?Hps, ?Hrq, ?Ht, ?Href'; try done.
      intros i q Hi Ha' Hf'. destruct (Hl i q Hi Ha' Hf') as (Hin & ? & Hpos & ?).
      rewrite Href in Hin, Hpos. repeat split; try done.
      * left. apply elem_of_app.
        destruct Hin as [?|[= <-]]; [by left|right; by apply list_elem_of_singleton].
      * intros _. destruct (decide (i = proc c)) as [->|Hne].
        -- simplify_eq. lia.
        -- apply Hpos. congruence.
    + rewrite (settle_continue _ _ _ _ Hp Hr Hcpu Hz). split; [done|].
      intros c' q Hc' Hq'. simplify_eq. lia.
Qed.

Lemma Acct_idle (lo t' : Z) (s : state) :
  currentCPU s = None → readyQueue s = [] → currentTime s ≤ t' →
  Acct lo s → Acct lo (with_currentTime t' s).
Proof.
  intros Hcpu Hrq Hle [Hv Hn Hl Hd]. split; cbn; try done.
  - intros i p Hp Ha Hf. destruct (Hl i p Hp Ha Hf) as ([Hin|Hc] & _).
    + rewrite Hrq in Hin. by apply elem_of_nil in Hin.
    + unfold cpuRef in Hc. by rewrite Hcpu in Hc.
  - intros i p Hp Hf. destruct (Hd i p Hp Hf) as (? & ct & ? & ? & ?).
    split; [done|]. exists ct. repeat split; [done..|lia].
Qed.

(** An idle CPU after the dispatch step means an empty queue. *)
Lemma dispatch_idle (s : state) :
  currentCPU (dispatch s) = None → currentCPU s = None ∧ readyQueue s = [] ∧ dispatch s = s.
Proof.
  intros Hc. pose proof (dispatch_spec s) as Hd.
  destruct (currentCPU s) as [c|] eqn:Hcpu.
  - rewrite Hd, Hcpu in Hc. done.
  - destruct (readyQueue s) as [|n r] eqn:Hrq; [done|].
    destruct Hd as [Hd _]. congruence.
Qed.

(** ** The invariant of the engine *)

Lemma Acct_ext (lo : Z) (s s' : state) :
  processes s' = processes s → readyQueue s' = readyQueue s →
  currentCPU s' = currentCPU s → currentTime s' = currentTime s →
  Acct lo s → Acct lo s'.
Proof.
  intros Hp Hq Hc Ht [? ? ? ?].
  split; unfold cpuRef; rewrite ?Hp, ?Hq, ?Hc, ?Ht; done.
Qed.

Lemma CpuPos_ext (s s' : state) :
  processes s' = processes s → currentCPU s' = currentCPU s →
  CpuPos s → CpuPos s'.
Proof. intros Hp Hc H c p. rewrite Hp, Hc. apply H. Qed.

Lemma Inv_ext (s s' : state) :
  processes s' = processes s → readyQueue s' = readyQueue s →
  currentCPU s' = currentCPU s → currentTime s' = currentTime s →
  Inv s → Inv s'.
Proof.
  intros Hp Hq Hc Ht (HE & HA & HP). unfold Inv. rewrite Ht. split; [|split].
  - revert HE. by apply Excl_ext.
  - revert HA. by apply Acct_ext.
  - revert HP. by apply CpuPos_ext.
Qed.

Lemma arr_remainingTime (t : Z) (p : process) :
  remainingTime (arr t p) = remainingTime p.
Proof. unfold arr. by destruct (arrives t p). Qed.

Lemma CpuPos_arrivalsStep (s : state) : CpuPos s → CpuPos (arrivalsStep s).
Proof.
  intros H c p'. rewrite arrivalsStep_eq. cbn. intros Hc Hp'.
  rewrite list_lookup_fmap in Hp'.
  destruct (processes s !! proc c) as [p|] eqn:Hp; simplify_eq/=.
  rewrite arr_remainingTime. eauto.
Qed.

Lemma dispatched_currentTime (s : state) : currentTime (dispatched s) = currentTime s.
Proof. unfold dispatched. by rewrite dispatch_currentTime, arrivalsStep_currentTime. Qed.

Lemma executed_currentTime (s : state) : currentTime (executed s) = currentTime s + 1.
Proof.
  unfold executed. destruct (currentCPU (dispatched s));
    rewrite arrivalsStep_currentTime; cbn; by rewrite dispatched_currentTime.
Qed.

Lemma Inv_dispatched (s : state) :
  Inv s →
  Excl (dispatched s) ∧ Acct (currentTime s + 1) (dispatched s) ∧ CpuPos (dispatched s).
Proof.
  intros (HE & HA & HP). split; [by apply Excl_dispatched|].
  apply Acct_dispatch.
  - by apply Excl_arrivalsStep.
  - by apply CpuPos_arrivalsStep.
  - by apply Acct_arrivalsStep.
Qed.

Lemma Inv_executed (s : state) :
  Inv s → Excl (executed s) ∧ Acct (currentTime s + 1) (executed s).
Proof.
  intros HI. split; [apply Excl_executed, HI|].
  destruct (Inv_dispatched s HI) as (HE & HA & HP).
  pose proof (dispatched_currentTime s) as Ht.
  unfold executed. destruct (currentCPU (dispatched s)) as [c|] eqn:Hc.
  - apply (Acct_weaken (currentTime (execUnit c (dispatched s)) + 1)).
    { cbn. lia. }
    apply Acct_arrivalsStep; [by apply Excl_execUnit|].
    change (currentTime (execUnit c (dispatched s)))
      with (currentTime (dispatched s) + 1).
    apply Acct_execUnit; try done. by rewrite Ht.
  - destruct (dispatch_idle (arrivalsStep s) Hc) as (Hc' & Hrq & Heq).
    change (dispatched s = arrivalsStep s) in Heq. rewrite Heq in HA |- *.
    set (s' := with_currentTime _ _).
    apply (Acct_weaken (currentTime s' + 1)); [subst s'; cbn; rewrite arrivalsStep_currentTime; lia|].
    apply Acct_arrivalsStep.
    + subst s'. apply Excl_with_currentTime, Excl_arrivalsStep, HI.
    + subst s'. cbn. rewrite arrivalsStep_currentTime.
      apply Acct_idle; try done. rewrite arrivalsStep_currentTime. lia.
Qed.

Lemma tick_settled (s : state) :
  tick s = if allFinished (settled s) then stopSim (settled s) else settled s.
Proof. done. Qed.

Lemma settle_currentTime (i : nat) (s : state) :
  currentTime (settle i s) = currentTime s.
Proof.
  unfold settle. destruct (processes s !! i) as [p|]; [|done].
  destruct (remainingTime p =? 0).
  - cbv zeta. unfold moveToFinished. by case_bool_decide.
  - destruct (currentCPU s) as [c|]; [|done]. by destruct (qLeft c =? 0).
Qed.

Lemma settled_currentTime (s : state) : currentTime (settled s) = currentTime s + 1.
Proof.
  unfold settled. destruct (currentCPU (dispatched s));
    rewrite ?settle_currentTime; apply executed_currentTime.
Qed.

Lemma Inv_settled (s : state) : Inv s → Inv (settled s).
Proof.
  intros HI. destruct (Inv_executed s HI) as [HE HA].
  unfold Inv. rewrite settled_currentTime. unfold settled.
  destruct (currentCPU (dispatched s)) as [c|] eqn:Hc.
  - pose proof (executed_currentCPU s c Hc) as Hc'.
    split.
    + by apply (Excl_settle _ _ Hc').
    + by apply (Acct_settle _ _ _ Hc').
  - split; [done|]. split; [done|].
    intros c p Hc'. unfold executed in Hc'. rewrite Hc in Hc'.
    rewrite arrivalsStep_currentCPU in Hc'. cbn in Hc'. congruence.
Qed.

Lemma Inv_tick (s : state) : Inv s → Inv (tick s).
Proof.
  intros HI%Inv_settled. rewrite tick_settled.
  destruct (allFinished (settled s)); [|done].
  revert HI. by apply Inv_ext.
Qed.

Lemma Inv_deepReset (defs : list procDef) (s : state) :
  validDefs defs → Inv (deepReset defs s).
Proof.
  intros Hv. split; [apply Excl_deepReset|]. split; [|done].
  assert (Hlk : ∀ i p, (freshProcess <$> defs) !! i = Some p →
            ∃ d, p = freshProcess d ∧ 0 < d_burstTime d ∧ 0 ≤ d_arrivalTime d).
  { intros i p Hp. rewrite list_lookup_fmap in Hp.
    destruct (defs !! i) as [d|] eqn:Hd; simplify_eq/=.
    exists d. split; [done|]. by apply (Forall_lookup_1 _ _ _ _ Hv Hd). }
  split; cbn.
  - intros i p (d & -> & ? & ?)%Hlk. done.
  - intros i p (d & -> & ? & ?)%Hlk _. done.
  - intros i p (d & -> & ? & ?)%Hlk. done.
  - intros i p (d & -> & ? & ?)%Hlk. done.
Qed.

Lemma Inv_reachable (defs : list procDef) (s : state) :
  validDefs defs → reachable defs s → Inv s.
Proof.
  intros Hv. induction 1 as [s|s _ IH|q s _ IH|s _ IH|s _ IH].
  - by apply Inv_deepReset.
  - by apply Inv_tick.
  - revert IH. by apply Inv_ext.
  - revert IH. apply Inv_ext; unfold startSim; by destruct (running s).
  - revert IH. by apply Inv_ext.
Qed.

(** ** What the handling of completion does to the store *)

Lemma settle_lookup (j : nat) (s : state) (i : nat) :
  processes (settle j s) !! i = settleEffect j s i <$> processes s !! i.
Proof.
  unfold settleEffect.
  destruct (processes s !! j) as [p|] eqn:Hp.
  - destruct (decide (remainingTime p = 0)) as [Hr|Hr].
    + destruct (settle_finish _ _ _ Hp Hr) as (-> & _).
      rewrite Hr. cbn [Z.eqb]. destruct (decide (i = j)) as [->|Hne].
      * rewrite list_lookup_insert_eq by (by eapply lookup_lt_Some).
        by rewrite Hp.
      * rewrite list_lookup_insert_ne by done. by rewrite option_fmap_id.
    + assert (processes (settle j s) = processes s) as ->.
      { destruct (currentCPU s) as [c|] eqn:Hc.
        - destruct (decide (qLeft c = 0)) as [Hz|Hz].
          + by destruct (settle_expire _ _ _ _ Hp Hr Hc Hz) as (-> & _).
          + by rewrite (settle_continue _ _ _ _ Hp Hr Hc Hz).
        - unfold settle. rewrite Hp, Hc. by apply Z.eqb_neq in Hr as ->. }
      apply Z.eqb_neq in Hr as ->.
      destruct (decide (i = j)); by rewrite option_fmap_id.
  - unfold settle. rewrite Hp.
    destruct (decide (i = j)); by rewrite option_fmap_id.
Qed.

Lemma settleEffect_cases (j : nat) (s : state) (i : nat) (p : process) :
  settleEffect j s i p = p ∨
  (i = j ∧ settleEffect j s i p = finishAt (currentTime s) p).
Proof.
  unfold settleEffect. destruct (decide (i = j)) as [->|]; [|by left].
  destruct (processes s !! j) as [q|]; [|by left].
  destruct (remainingTime q =? 0); [by right|by left].
Qed.

(** The queue needs no distinct references for this: an object is
    altered as many times as it occurs. *)
Lemma waitQueue_lookup (rq : list nat) (ps : list process) (j : nat) :
  ∃ k : nat, waitQueue ps rq !! j = Nat.iter k incWaiting <$> ps !! j.
Proof.
  revert ps. induction rq as [|q rq IH]; intros ps.
  - exists 0%nat. cbn. by rewrite option_fmap_id.
  - cbn. destruct (IH (alter incWaiting q ps)) as [k Hk].
    unfold waitQueue in Hk. rewrite Hk.
    destruct (decide (q = j)) as [->|Hne].
    + exists (S k). rewrite list_lookup_alter_eq.
      destruct (ps !! j) as [p|]; [|done].
      change (Some (Nat.iter k incWaiting (incWaiting p)) =
              Some (Nat.iter (S k) incWaiting p)).
      by rewrite Nat.iter_succ_r.
    + exists k. by rewrite list_lookup_alter_ne.
Qed.

Lemma iter_incWaiting (k : nat) (p : process) :
  stat (Nat.iter k incWaiting p) = stat p ∧
  remainingTime (Nat.iter k incWaiting p) = remainingTime p ∧
  arrived (Nat.iter k incWaiting p) = arrived p ∧
  finished (Nat.iter k incWaiting p) = finished p ∧
  completionTime (Nat.iter k incWaiting p) = completionTime p.
Proof.
  induction k as [|k IH]; [done|].
  destruct IH as (Hs & Hr & Ha & Hf & Hc).
  change (Nat.iter (S k) incWaiting p) with (incWaiting (Nat.iter k incWaiting p)).
  by rewrite <- Hs, <- Hr, <- Ha, <- Hf, <- Hc.
Qed.

Lemma arr_stat (t : Z) (p : process) : stat (arr t p) = stat p.
Proof. unfold arr. by destruct (arrives t p). Qed.

Lemma arr_waitingTime (t : Z) (p : process) : waitingTime (arr t p) = waitingTime p.
Proof. unfold arr. by destruct (arrives t p). Qed.

Lemma settleEffect_stat j s i p : stat (settleEffect j s i p) = stat p.
Proof. by destruct (settleEffect_cases j s i p) as [->|[_ ->]]. Qed.

Lemma settleEffect_remainingTime j s i p :
  remainingTime (settleEffect j s i p) = remainingTime p.
Proof. by destruct (settleEffect_cases j s i p) as [->|[_ ->]]. Qed.

Lemma settleEffect_waitingTime j s i p :
  waitingTime (settleEffect j s i p) = waitingTime p.
Proof. by destruct (settleEffect_cases j s i p) as [->|[_ ->]]. Qed.

(** The object that [execUnit] leaves at the reference of the CPU. *)
Lemma execUnit_lookup_cpu (c : cpuSlot) (s : state) (p : process) :
  processes s !! proc c = Some p →
  ∃ p', processes (execUnit c s) !! proc c = Some p' ∧
        stat p' = stat p ∧
        remainingTime p' = Z.max 0 (remainingTime p - 1) ∧
        arrived p' = arrived p ∧ finished p' = finished p ∧
        completionTime p' = completionTime p.
Proof.
  intros Hp. unfold execUnit. cbn. rewrite list_lookup_alter_eq.
  destruct (waitQueue_lookup (readyQueue s) (processes s) (proc c)) as [k ->].
  rewrite Hp. exists (runUnit (Nat.iter k incWaiting p)). split; [done|].
  destruct (iter_incWaiting k p) as (Hs & Hr & Ha & Hf & Hc).
  change (stat (runUnit (Nat.iter k incWaiting p)))
    with (stat (Nat.iter k incWaiting p)).
  cbn. by rewrite Hr.
Qed.

Lemma execUnit_stat (c : cpuSlot) (s : state) (i : nat) :
  stat <$> processes (execUnit c s) !! i = stat <$> processes s !! i.
Proof.
  unfold execUnit. cbn.
  destruct (waitQueue_lookup (readyQueue s) (processes s) i) as [k Hk].
  destruct (decide (proc c = i)) as [<-|Hne].
  - rewrite list_lookup_alter_eq, Hk. destruct (processes s !! proc c) as [p|]; [|done].
    destruct (iter_incWaiting k p) as (Hs & _).
    change (Some (stat (Nat.iter k incWaiting p)) = Some (stat p)). by rewrite Hs.
  - rewrite list_lookup_alter_ne, Hk by done.
    destruct (processes s !! i) as [p|]; [|done].
    destruct (iter_incWaiting k p) as (Hs & _).
    change (Some (stat (Nat.iter k incWaiting p)) = Some (stat p)). by rewrite Hs.
Qed.

Lemma arrivalsStep_lookup (s : state) (i : nat) :
  processes (arrivalsStep s) !! i = arr (currentTime s) <$> processes s !! i.
Proof. rewrite arrivalsStep_eq. cbn. apply list_lookup_fmap. Qed.

Lemma arrivalsStep_stat (s : state) (i : nat) :
  stat <$> processes (arrivalsStep s) !! i = stat <$> processes s !! i.
Proof.
  rewrite arrivalsStep_lookup. destruct (processes s !! i) as [p|]; [|done].
  cbn. by rewrite arr_stat.
Qed.

Lemma settle_stat (j : nat) (s : state) (i : nat) :
  stat <$> processes (settle j s) !! i = stat <$> processes s !! i.
Proof.
  rewrite settle_lookup. destruct (processes s !! i) as [p|]; [|done].
  cbn. by rewrite settleEffect_stat.
Qed.

Lemma tick_stat (s : state) (i : nat) :
  stat <$> processes (tick s) !! i = stat <$> processes s !! i.
Proof.
  rewrite tick_settled.
  assert (stat <$> processes (settled s) !! i = stat <$> processes s !! i) as H.
  { assert (stat <$> processes (dispatched s) !! i = stat <$> processes s !! i) as Hd
      by (unfold dispatched; by rewrite dispatch_processes, arrivalsStep_stat).
    assert (stat <$> processes (executed s) !! i = stat <$> processes s !! i) as He.
    { unfold executed. destruct (currentCPU (dispatched s)).
      - by rewrite arrivalsStep_stat, execUnit_stat.
      - by rewrite arrivalsStep_stat. }
    unfold settled. destruct (currentCPU (dispatched s)); [|done].
    by rewrite settle_stat. }
  by destruct (allFinished (settled s)).
Qed.

Lemma reachable_stat (defs : list procDef) (s : state) (i : nat) :
  reachable defs s →
  stat <$> processes s !! i =
  (λ d, (d_id d, d_burstTime d, d_arrivalTime d, d_color d)) <$> defs !! i.
Proof.
  induction 1 as [s|s _ IH|q s _ IH|s _ IH|s _ IH]; try done.
  - cbn. rewrite list_lookup_fmap. by destruct (defs !! i).
  - by rewrite tick_stat.
  - unfold startSim. by destruct (running s).
Qed.

Lemma reachable_ticks (defs : list procDef) (n : nat) (s : state) :
  reachable defs s → reachable defs (ticks n s).
Proof. intros H. induction n as [|n IH]; [done|]. cbn. by constructor. Qed.

(** ** The properties of the specification *)

(** Validity of a concrete table of definitions. *)
Ltac valid_defs :=
  unfold validDefs; repeat (constructor; [cbn; split; lia|]); constructor.

(** C1. Waiting/turnaround identity: in every state the page can reach
    from a reset over valid definitions, a finished process has
    [remainingTime] 0, a completion time, and a tracked [waitingTime]
    that is exactly [(completionTime - arrivalTime) - burstTime], the
    value [renderStats] derives. *)
Theorem C1_waiting_turnaround_identity
    (defs : list procDef) (s : state) (i : nat) (p : process) :
  validDefs defs → reachable defs s →
  processes s !! i = Some p → finished p = true →
  remainingTime p = 0 ∧
  statsWT p = Some (waitingTime p) ∧
  ∃ ct, completionTime p = Some ct ∧
        waitingTime p = (ct - arrivalTime p) - burstTime p.
Proof.
  intros Hv Hr Hp Hf.
  destruct (Inv_reachable defs s Hv Hr) as (_ & HA & _).
  destruct (acct_done _ _ HA i p Hp Hf) as (Hz & ct & Hct & Hw & _).
  split; [done|]. split; [|by exists ct].
  unfold statsWT. rewrite Hct. by rewrite Hw.
Qed.

Lemma C1_waiting_turnaround_identity_witness :
  remainingTime (objP1 0 2 (Some 5) true true) = 0 ∧
  statsWT (objP1 0 2 (Some 5) true true)
    = Some (waitingTime (objP1 0 2 (Some 5) true true)) ∧
  ∃ ct, completionTime (objP1 0 2 (Some 5) true true) = Some ct ∧
        waitingTime (objP1 0 2 (Some 5) true true)
          = (ct - arrivalTime (objP1 0 2 (Some 5) true true))
            - burstTime (objP1 0 2 (Some 5) true true).
Proof.
  apply (C1_waiting_turnaround_identity scenarioB (ticks 5 startB) 0%nat).
  - valid_defs.
  - apply reachable_ticks. constructor.
  - reflexivity.
  - reflexivity.
Defined.

(** C2. Scenario B (quantum 2; P1 burst 3 arrival 0; P2 burst 2
    arrival 1), tick by tick from the reset state: P1 runs during ticks
    1 and 2; P2 is not in the queue before the unit of tick 1 is executed
    and is enqueued by the scan behind it, at clock 1; at the end of
    tick 2 P1 is preempted and queued behind P2; P2 runs during ticks 3
    and 4 and finishes with completion time 4; P1 resumes and finishes
    with completion time 5; the waiting times are 2 for P1 and 1 for
    P2. *)
Theorem C2_scenario_B :
  (* tick 1 *)
  currentCPU (dispatched startB) = Some (CpuSlot 0 2) ∧
  readyQueue (dispatched startB) = [] ∧
  processes (ticks 1 startB) =
    [objP1 2 0 None true false; objP2 2 0 None true false] ∧
  readyQueue (ticks 1 startB) = [1%nat] ∧
  currentCPU (ticks 1 startB) = Some (CpuSlot 0 1) ∧
  historyList (ticks 1 startB) =
    [(0, EvArrived "P1"); (0, EvMovedToCPU "P1"); (1, EvArrived "P2")] ∧
  (* tick 2 *)
  processes (ticks 2 startB) =
    [objP1 1 0 None true false; objP2 2 1 None true false] ∧
  readyQueue (ticks 2 startB) = [1%nat; 0%nat] ∧
  currentCPU (ticks 2 startB) = None ∧
  (* tick 3 *)
  processes (ticks 3 startB) =
    [objP1 1 1 None true false; objP2 1 1 None true false] ∧
  readyQueue (ticks 3 startB) = [0%nat] ∧
  currentCPU (ticks 3 startB) = Some (CpuSlot 1 1) ∧
  (* tick 4 *)
  processes (ticks 4 startB) =
    [objP1 1 2 None true false; objP2 0 1 (Some 4) true true] ∧
  readyQueue (ticks 4 startB) = [0%nat] ∧
  currentCPU (ticks 4 startB) = None ∧
  currentTime (ticks 4 startB) = 4 ∧
  (* tick 5 *)
  processes (ticks 5 startB) =
    [objP1 0 2 (Some 5) true true; objP2 0 1 (Some 4) true true] ∧
  readyQueue (ticks 5 startB) = [] ∧
  currentCPU (ticks 5 startB) = None ∧
  currentTime (ticks 5 startB) = 5 ∧
  allFinished (ticks 5 startB) = true ∧
  historyList (ticks 5 startB) =
    [(0, EvArrived "P1"); (0, EvMovedToCPU "P1"); (1, EvArrived "P2");
     (2, EvQuantumExpired "P1"); (2, EvMovedToCPU "P2");
     (4, EvFinished "P2" 4); (4, EvMovedToCPU "P1"); (5, EvFinished "P1" 5)].
Proof. vm_compute. repeat split. Qed.

(** C7. Mutual exclusion: in every state reached from a reset by ticks
    (and the other controls), the references of the ready queue are
    distinct, none of them is the one of the CPU slot, the objects in
    the queue or on the CPU have arrived, and a finished process is
    neither in the queue nor on the CPU. *)
Theorem C7_mutual_exclusion (defs : list procDef) (s : state) :
  reachable defs s →
  NoDup (readyQueue s) ∧
  (∀ i, i ∈ readyQueue s → cpuRef s ≠ Some i) ∧
  (∀ i p, processes s !! i = Some p → finished p = true →
          (i ∉ readyQueue s) ∧ cpuRef s ≠ Some i) ∧
  (∀ i p, processes s !! i = Some p → arrived p = false →
          (i ∉ readyQueue s) ∧ cpuRef s ≠ Some i).
Proof.
  intros [Hnd Hq Hc Hf]%Excl_reachable.
  assert (Hcpu : ∀ i, cpuRef s = Some i →
            (i ∉ readyQueue s) ∧
            ∃ p, processes s !! i = Some p ∧ arrived p = true ∧ finished p = false).
  { unfold cpuRef. intros i Hi. destruct (currentCPU s) as [c|] eqn:Hcs; [|done].
    cbn in Hi. injection Hi as <-. by apply Hc. }
  split; [done|]. split; [|split].
  - intros i Hi Hci. by destruct (Hcpu i Hci).
  - intros i p Hp Hfin. split.
    + intros Hi. destruct (Hq i Hi) as (p' & ? & _ & ?). congruence.
    + intros Hci. destruct (Hcpu i Hci) as (_ & p' & ? & _ & ?). congruence.
  - intros i p Hp Ha. split.
    + intros Hi. destruct (Hq i Hi) as (p' & ? & ? & _). congruence.
    + intros Hci. destruct (Hcpu i Hci) as (_ & p' & ? & ? & _). congruence.
Qed.

Lemma C7_mutual_exclusion_witness :
  NoDup (readyQueue (ticks 2 startB)) ∧
  (∀ i, i ∈ readyQueue (ticks 2 startB) → cpuRef (ticks 2 startB) ≠ Some i) ∧
  (∀ i p, processes (ticks 2 startB) !! i = Some p → finished p = true →
          (i ∉ readyQueue (ticks 2 startB)) ∧ cpuRef (ticks 2 startB) ≠ Some i) ∧
  (∀ i p, processes (ticks 2 startB) !! i = Some p → arrived p = false →
          (i ∉ readyQueue (ticks 2 startB)) ∧ cpuRef (ticks 2 startB) ≠ Some i).
Proof.
  apply (C7_mutual_exclusion scenarioB).
  apply reachable_ticks. constructor.
Defined.

(** C8. Monotone clock: every call of [tick] advances [currentTime] by
    exactly 1, with the CPU occupied or idle, before completion or after
    it; so [n] ticks advance it by [n].  Neither the steps inside a tick
    other than the advance (arrival scan, dispatch, completion handling)
    nor the start and stop controls and the quantum field change the
    clock. *)
Theorem C8_monotone_clock (s : state) :
  currentTime (tick s) = currentTime s + 1 ∧
  (∀ n, currentTime (ticks n s) = currentTime s + Z.of_nat n) ∧
  currentTime (arrivalsStep s) = currentTime s ∧
  currentTime (dispatch s) = currentTime s ∧
  (∀ i, currentTime (settle i s) = currentTime s) ∧
  currentTime (startSim s) = currentTime s ∧
  currentTime (stopSim s) = currentTime s ∧
  (∀ q, currentTime (onQuantumInput q s) = currentTime s).
Proof.
  assert (Ht : ∀ s, currentTime (tick s) = currentTime s + 1).
  { intros s'. rewrite tick_settled.
    destruct (allFinished (settled s')); apply settled_currentTime. }
  split; [apply Ht|]. split.
  { induction n as [|n IH]; [cbn; lia|].
    change (ticks (S n) s) with (tick (ticks n s)). rewrite Ht, IH. lia. }
  split; [apply arrivalsStep_currentTime|].
  split; [apply dispatch_currentTime|].
  split; [intros i; apply settle_currentTime|].
  split; [unfold startSim; by destruct (running s)|].
  done.
Qed.

Lemma arrives_iff (t : Z) (p : process) :
  arrives t p = true ↔ arrived p = false ∧ arrivalTime p ≤ t.
Proof.
  unfold arrives. rewrite andb_true_iff, negb_true_iff, Z.leb_le. done.
Qed.

Lemma tick_frame (s : state) :
  processes (tick s) = processes (settled s) ∧
  readyQueue (tick s) = readyQueue (settled s) ∧
  currentCPU (tick s) = currentCPU (settled s) ∧
  currentTime (tick s) = currentTime (settled s) ∧
  historyList (tick s) = historyList (settled s) ∧
  finishedOrder (tick s) = finishedOrder (settled s).
Proof. rewrite tick_settled. by destruct (allFinished (settled s)). Qed.

(** C3. When the process on the CPU is preempted on quantum expiry (its
    remaining time after the unit is not 0 and its quantum is used up),
    the references that the scan at the new clock value pushes (exactly
    the objects not yet arrived whose arrival time is at most that
    value) are in the queue before the preempted one is pushed: the
    queue at the end of the tick is the queue after dispatch, then these
    arrivals, then the preempted process as last element; the expiry is
    logged after the arrivals. *)
Theorem C3_preempted_behind_arrivals (s : state) (c : cpuSlot) (p : process) :
  currentCPU (dispatched s) = Some c →
  processes (executed s) !! proc c = Some p →
  remainingTime p ≠ 0 → Z.max 0 (qLeft c - 1) = 0 →
  ∃ scan : list nat,
    (∀ i, i ∈ scan ↔
          ∃ q, processes (execUnit c (dispatched s)) !! i = Some q ∧
               arrived q = false ∧ arrivalTime q ≤ currentTime s + 1) ∧
    readyQueue (executed s) = readyQueue (dispatched s) ++ scan ∧
    readyQueue (tick s) = readyQueue (dispatched s) ++ scan ++ [proc c] ∧
    last (readyQueue (tick s)) = Some (proc c) ∧
    currentCPU (tick s) = None ∧
    historyList (tick s) =
      historyList (executed s) ++ [(currentTime s + 1, EvQuantumExpired (pid p))].
Proof.
  intros Hc Hp Hr Hq.
  pose proof (executed_currentCPU s c Hc) as Hc'.
  pose proof (executed_currentTime s) as Ht.
  destruct (settle_expire (proc c) (executed s) p _ Hp Hr Hc' Hq)
    as (_ & Hrq & _ & Hcpu & Hlog).
  destruct (tick_frame s) as (_ & -> & -> & _ & -> & _).
  unfold settled. rewrite Hc, Hrq, Hcpu, Hlog, Ht.
  assert (Hex : readyQueue (executed s) =
                readyQueue (dispatched s) ++
                newly (currentTime s + 1) 0 (processes (execUnit c (dispatched s)))).
  { unfold executed. rewrite Hc, arrivalsStep_eq. cbn.
    by rewrite dispatched_currentTime. }
  exists (newly (currentTime s + 1) 0 (processes (execUnit c (dispatched s)))).
  split; [|split; [done|split; [|split; [|done]]]].
  - intros i. rewrite elem_of_newly, Nat.sub_0_r.
    setoid_rewrite arrives_iff. split.
    + intros (_ & q & ? & ? & ?). by exists q.
    + intros (q & ? & ? & ?). split; [lia|]. by exists q.
  - by rewrite Hex, <- app_assoc.
  - apply last_snoc.
Qed.

Lemma C3_preempted_behind_arrivals_witness :
  ∃ scan : list nat,
    (∀ i, i ∈ scan ↔
          ∃ q, processes (execUnit (CpuSlot 0 1) (dispatched midB')) !! i = Some q ∧
               arrived q = false ∧ arrivalTime q ≤ currentTime midB' + 1) ∧
    readyQueue (executed midB') = readyQueue (dispatched midB') ++ scan ∧
    readyQueue (tick midB') =
      readyQueue (dispatched midB') ++ scan ++ [proc (CpuSlot 0 1)] ∧
    last (readyQueue (tick midB')) = Some (proc (CpuSlot 0 1)) ∧
    currentCPU (tick midB') = None ∧
    historyList (tick midB') =
      historyList (executed midB') ++
      [(currentTime midB' + 1, EvQuantumExpired (pid (objP1 1 0 None true false)))].
Proof.
  apply (C3_preempted_behind_arrivals midB' (CpuSlot 0 1) (objP1 1 0 None true false)).
  - reflexivity.
  - reflexivity.
  - cbn. lia.
  - reflexivity.
Defined.

(** C4. In a tick with the CPU occupied by the object [p0] with quantum
    [qLeft c], the object afterwards has remaining time
    [max 0 (remainingTime p0 - 1)].  When that is 0 the process is marked
    finished with the clock after the increment as completion time, the
    CPU slot is cleared and nothing is pushed on the queue, whatever the
    quantum left.  Only when it is not 0 and the quantum left is 0 is the
    process pushed at the tail of the queue (and the slot cleared);
    otherwise it stays on the CPU with the decremented quantum. *)
Theorem C4_completion_before_expiry (s : state) (c : cpuSlot) (p0 : process) :
  currentCPU (dispatched s) = Some c →
  processes (dispatched s) !! proc c = Some p0 →
  let r' := Z.max 0 (remainingTime p0 - 1) in
  let q' := Z.max 0 (qLeft c - 1) in
  ∃ p', processes (tick s) !! proc c = Some p' ∧
        remainingTime p' = r' ∧
        (r' = 0 →
           finished p' = true ∧
           completionTime p' = Some (currentTime s + 1) ∧
           currentCPU (tick s) = None ∧
           readyQueue (tick s) = readyQueue (executed s)) ∧
        (r' ≠ 0 → q' = 0 →
           finished p' = finished p0 ∧
           completionTime p' = completionTime p0 ∧
           currentCPU (tick s) = None ∧
           readyQueue (tick s) = readyQueue (executed s) ++ [proc c]) ∧
        (r' ≠ 0 → q' ≠ 0 →
           finished p' = finished p0 ∧
           completionTime p' = completionTime p0 ∧
           currentCPU (tick s) = Some (CpuSlot (proc c) q') ∧
           readyQueue (tick s) = readyQueue (executed s)).
Proof.
  intros Hc Hp0 r' q'.
  pose proof (executed_currentCPU s c Hc) as Hc'. fold q' in Hc'.
  pose proof (executed_currentTime s) as Ht.
  destruct (execUnit_lookup_cpu c (dispatched s) p0 Hp0)
    as (p1 & Hp1 & _ & Hr1 & _ & Hf1 & Hct1).
  assert (Hp2 : processes (executed s) !! proc c =
                Some (arr (currentTime s + 1) p1)).
  { unfold executed. rewrite Hc, arrivalsStep_lookup, Hp1. cbn.
    by rewrite dispatched_currentTime. }
  set (p2 := arr (currentTime s + 1) p1) in *.
  assert (Hr2 : remainingTime p2 = r') by (subst p2; by rewrite arr_remainingTime).
  assert (Hf2 : finished p2 = finished p0) by (subst p2; by rewrite arr_finished).
  assert (Hct2 : completionTime p2 = completionTime p0).
  { subst p2. unfold arr. by destruct (arrives _ p1). }
  destruct (tick_frame s) as (-> & -> & -> & _).
  unfold settled. rewrite Hc.
  destruct (decide (r' = 0)) as [Hz|Hnz].
  - destruct (settle_finish (proc c) (executed s) p2 Hp2) as (Hps & Hrq & _ & Hcpu & _);
      [congruence|].
    exists (finishAt (currentTime s + 1) p2). rewrite Hps, Hrq, Hcpu, Ht.
    split; [apply list_lookup_insert_eq; by eapply lookup_lt_Some|].
    split; [done|]. split; [done|]. split; intros; done.
  - assert (Hrne : remainingTime p2 ≠ 0) by congruence.
    destruct (decide (q' = 0)) as [Hq|Hq].
    + destruct (settle_expire (proc c) (executed s) p2 _ Hp2 Hrne Hc' Hq)
        as (Hps & Hrq & _ & Hcpu & _).
      exists p2. rewrite Hps, Hrq, Hcpu.
      split; [done|]. split; [done|]. split; [done|]. split; intros; done.
    + rewrite (settle_continue (proc c) (executed s) p2 _ Hp2 Hrne Hc' Hq).
      exists p2. split; [done|]. split; [done|]. split; [done|].
      split; [done|]. intros _ _. by rewrite Hc'.
Qed.

Lemma C4_completion_before_expiry_witness :
  ∃ p', processes (tick (ticks 3 startB)) !! 1%nat = Some p' ∧
        remainingTime p' = 0 ∧
        (0 = 0 →
           finished p' = true ∧
           completionTime p' = Some (currentTime (ticks 3 startB) + 1) ∧
           currentCPU (tick (ticks 3 startB)) = None ∧
           readyQueue (tick (ticks 3 startB)) = readyQueue (executed (ticks 3 startB))) ∧
        (0 ≠ 0 → 0 = 0 →
           finished p' = finished (objP2 1 1 None true false) ∧
           completionTime p' = completionTime (objP2 1 1 None true false) ∧
           currentCPU (tick (ticks 3 startB)) = None ∧
           readyQueue (tick (ticks 3 startB)) =
             readyQueue (executed (ticks 3 startB)) ++ [1%nat]) ∧
        (0 ≠ 0 → 0 ≠ 0 →
           finished p' = finished (objP2 1 1 None true false) ∧
           completionTime p' = completionTime (objP2 1 1 None true false) ∧
           currentCPU (tick (ticks 3 startB)) = Some (CpuSlot 1 0) ∧
           readyQueue (tick (ticks 3 startB)) = readyQueue (executed (ticks 3 startB))).
Proof.
  apply (C4_completion_before_expiry (ticks 3 startB) (CpuSlot 1 1)
           (objP2 1 1 None true false)); reflexivity.
Defined.

(** An object that has not arrived after the first scan of a tick is
    not touched by the executed unit; the tick leaves its waiting time as
    it was. *)
Lemma tick_not_arrived (s : state) (i : nat) (p1 : process) :
  Excl s →
  processes (dispatched s) !! i = Some p1 → arrived p1 = false →
  ∃ p', processes (tick s) !! i = Some p' ∧ waitingTime p' = waitingTime p1.
Proof.
  intros HE Hp1 Ha1. pose proof (Excl_dispatched s HE) as [Hnd Hq Hc _].
  destruct (tick_frame s) as (-> & _).
  unfold settled, executed.
  destruct (currentCPU (dispatched s)) as [c|] eqn:Hcpu.
  - destruct (Hc c eq_refl) as (Hnin & pc & Hpc & Hac & _).
    rewrite settle_lookup, arrivalsStep_lookup, execUnit_lookup by done.
    rewrite Hp1. eexists. split; [done|].
    rewrite settleEffect_waitingTime, arr_waitingTime.
    unfold unitEffect. destruct (decide (i = proc c)) as [->|_]; [congruence|].
    destruct (decide (i ∈ readyQueue (dispatched s))) as [Hi|_]; [|done].
    destruct (Hq i Hi) as (q & ? & ? & _). congruence.
  - rewrite arrivalsStep_lookup. cbn. rewrite Hp1. eexists. split; [done|].
    by rewrite arr_waitingTime.
Qed.

(** C10. A process that arrives during the scan behind the executed
    unit of a tick (not arrived after the first scan of the tick, arrived
    at its end) has at the end of that tick the waiting time it had
    before it: the increment of the queue residents is applied before
    that scan. *)
Theorem C10_no_wait_in_arrival_tick
    (defs : list procDef) (s : state) (i : nat) (p p1 p' : process) :
  reachable defs s →
  processes s !! i = Some p →
  processes (dispatched s) !! i = Some p1 → arrived p1 = false →
  processes (tick s) !! i = Some p' → arrived p' = true →
  waitingTime p' = waitingTime p ∧ i ∉ readyQueue (dispatched s).
Proof.
  intros HE%Excl_reachable Hp Hp1 Ha1 Hp' _.
  destruct (tick_not_arrived s i p1 HE Hp1 Ha1) as (p'' & Hp'' & Hw).
  assert (p'' = p') as -> by congruence.
  split.
  - rewrite Hw. unfold dispatched in Hp1.
    rewrite dispatch_processes, arrivalsStep_lookup, Hp in Hp1.
    injection Hp1 as <-. apply arr_waitingTime.
  - intros Hi. destruct (excl_queue _ (Excl_dispatched s HE) i Hi) as (q & ? & ? & _).
    congruence.
Qed.

Lemma C10_no_wait_in_arrival_tick_witness :
  waitingTime (objP2 2 0 None true false) = waitingTime (objP2 2 0 None false false) ∧
  1%nat ∉ readyQueue (dispatched startB).
Proof.
  apply (C10_no_wait_in_arrival_tick scenarioB startB 1%nat
           (objP2 2 0 None false false) (objP2 2 0 None false false)
           (objP2 2 0 None true false)).
  - constructor.
  - reflexivity.
  - reflexivity.
  - reflexivity.
  - reflexivity.
  - reflexivity.
Defined.

(** C5, as stated, fails: with the quantum field at 0 the reset is not
    refused.  The state changes (the clock goes from 3 back to 0), the
    quantum shown is 1, and the first tick after the reset dispatches P1
    with quantum 1. *)
Lemma C5_counterexample :
  quantumInput zeroQuantumState = Some 0 ∧
  currentTime zeroQuantumState = 3 ∧
  resetSim initialProcesses zeroQuantumState ≠ zeroQuantumState ∧
  currentTime (resetSim initialProcesses zeroQuantumState) = 0 ∧
  quantumDisplayEl (resetSim initialProcesses zeroQuantumState) = 1 ∧
  currentCPU (dispatched (startSim (resetSim initialProcesses zeroQuantumState)))
    = Some (CpuSlot 0 1).
Proof. vm_compute. repeat split. discriminate. Qed.

(** C5, amended.  A quantum that is not a finite number above 0 is
    replaced by the default quantum 1: [getQuantum] returns 1, the reset
    builds the same fresh state as for any other quantum (clock 0, empty
    queue, idle CPU, fresh process records, empty log) and shows 1, and
    the first dispatch after it grants quantum 1. *)
Theorem C5_invalid_quantum_defaults_to_1 (defs : list procDef) (s : state) :
  (quantumInput s = None ∨ ∃ q, quantumInput s = Some q ∧ q ≤ 0) →
  getQuantum s = 1 ∧
  resetSim defs s =
    State (freshProcess <$> defs) [] 0 false false None []
          (quantumInput s) 1 [] ∧
  (∀ c, currentCPU (dispatched (resetSim defs s)) = Some c → qLeft c = 1).
Proof.
  intros Hq.
  assert (Hg : getQuantum s = 1).
  { unfold getQuantum. destruct Hq as [->|(q & -> & Hle)]; [done|].
    by apply Z.ltb_ge in Hle as ->. }
  split; [done|]. split.
  - unfold resetSim, deepReset. cbn.
    change (getQuantum (stopSim s)) with (getQuantum s). by rewrite Hg.
  - intros c Hc. unfold dispatched in Hc.
    pose proof (dispatch_spec (arrivalsStep (resetSim defs s))) as Hd.
    rewrite arrivalsStep_currentCPU in Hd. cbn [resetSim deepReset currentCPU] in Hd.
    destruct (readyQueue (arrivalsStep (resetSim defs s))) as [|n r].
    + rewrite Hd, arrivalsStep_currentCPU in Hc. done.
    + destruct Hd as [Hd _]. rewrite Hd in Hc. injection Hc as <-. cbn [qLeft].
      rewrite arrivalsStep_eq. done.
Qed.

Lemma C5_invalid_quantum_defaults_to_1_witness :
  getQuantum zeroQuantumState = 1 ∧
  resetSim initialProcesses zeroQuantumState =
    State (freshProcess <$> initialProcesses) [] 0 false false None []
          (quantumInput zeroQuantumState) 1 [] ∧
  (∀ c, currentCPU (dispatched (resetSim initialProcesses zeroQuantumState)) = Some c →
        qLeft c = 1).
Proof.
  apply (C5_invalid_quantum_defaults_to_1 initialProcesses zeroQuantumState).
  right. exists 0. split; [reflexivity | lia].
Defined.

Lemma allFinished_lookup (s : state) :
  allFinished s = true ↔ ∀ i p, processes s !! i = Some p → finished p = true.
Proof.
  unfold allFinished. induction (processes s) as [|q ps IH]; cbn.
  - split; [by intros _ i p ?|done].
  - rewrite andb_true_iff, IH. split.
    + intros [Hq Hps] [|i] p Hp; [by simplify_eq/=|by apply (Hps i)].
    + intros H. split; [by apply (H 0%nat)|]. intros i p Hp. by apply (H (S i)).
Qed.

Lemma scan_all_arrived (t : Z) (i : nat) (ps : list process) :
  (∀ j p, ps !! j = Some p → arrived p = true) →
  arr t <$> ps = ps ∧ newly t i ps = [] ∧ newEvents t ps = [].
Proof.
  revert i. induction ps as [|q ps IH]; intros i H; [done|].
  assert (Hq : arrives t q = false)
    by (apply arrived_not_arrives; by apply (H 0%nat)).
  destruct (IH (S i)) as (H1 & H2 & H3); [intros j p Hp; by apply (H (S j))|].
  cbn. rewrite H2, H3, Hq. split; [|done].
  change (arr t q :: (arr t <$> ps) = q :: ps). by rewrite H1, arr_id.
Qed.

Lemma arrivalsStep_all_arrived (s : state) :
  (∀ j p, processes s !! j = Some p → arrived p = true) → arrivalsStep s = s.
Proof.
  intros H. rewrite arrivalsStep_eq.
  destruct (scan_all_arrived (currentTime s) 0 (processes s) H) as (-> & -> & ->).
  rewrite !app_nil_r. by destruct s.
Qed.

(** After completion a tick only moves the clock (and stops the
    timer). *)
Lemma tick_all_finished (s : state) :
  Excl s → allFinished s = true →
  tick s = stopSim (with_currentTime (currentTime s + 1) s).
Proof.
  intros [Hnd Hq Hc Hf] Hall.
  pose proof (proj1 (allFinished_lookup s) Hall) as Hfin.
  assert (Harr : ∀ j p, processes s !! j = Some p → arrived p = true) by eauto.
  assert (Hrq : readyQueue s = []).
  { destruct (readyQueue s) as [|n r]; [done|].
    destruct (Hq n) as (p & Hp & _ & Hnf); [by left|].
    rewrite (Hfin n p Hp) in Hnf. done. }
  assert (Hcpu : currentCPU s = None).
  { destruct (currentCPU s) as [c|]; [|done].
    destruct (Hc c eq_refl) as (_ & p & Hp & _ & Hnf).
    rewrite (Hfin _ p Hp) in Hnf. done. }
  assert (Hd : dispatched s = s).
  { unfold dispatched. rewrite arrivalsStep_all_arrived by done.
    pose proof (dispatch_spec s) as Hd. by rewrite Hcpu, Hrq in Hd. }
  assert (He : settled s = with_currentTime (currentTime s + 1) s).
  { unfold settled, executed. rewrite Hd, Hcpu.
    by apply arrivalsStep_all_arrived. }
  rewrite tick_settled, He.
  change (allFinished (with_currentTime (currentTime s + 1) s)) with (allFinished s).
  by rewrite Hall.
Qed.

(** C6, as stated, fails: in the state that ends scenario B, where all
    processes are finished, one more tick moves the clock from 5 to 6. *)
Lemma C6_counterexample :
  allFinished (ticks 5 startB) = true ∧
  currentTime (ticks 5 startB) = 5 ∧
  currentTime (tick (ticks 5 startB)) = 6 ∧
  tick (ticks 5 startB) ≠ ticks 5 startB.
Proof. vm_compute. repeat split. discriminate. Qed.

(** C6, amended.  In every reachable state in which all processes are
    finished, a further tick leaves the ready queue, the CPU slot, all
    process records, the log and the finished order unchanged; it
    advances the clock by exactly 1 and leaves the timer stopped. *)
Theorem C6_tick_after_completion (defs : list procDef) (s : state) :
  reachable defs s → allFinished s = true →
  tick s = stopSim (with_currentTime (currentTime s + 1) s) ∧
  processes (tick s) = processes s ∧
  readyQueue (tick s) = [] ∧ readyQueue s = [] ∧
  currentCPU (tick s) = None ∧ currentCPU s = None ∧
  historyList (tick s) = historyList s ∧
  finishedOrder (tick s) = finishedOrder s ∧
  currentTime (tick s) = currentTime s + 1 ∧
  running (tick s) = false ∧
  allFinished (tick s) = true.
Proof.
  intros HE%Excl_reachable Hall.
  pose proof (tick_all_finished s HE Hall) as Ht.
  assert (Hrq : readyQueue s = []).
  { destruct (readyQueue s) as [|n r] eqn:Hr; [done|].
    destruct (excl_queue s HE n) as (p & Hp & _ & Hnf); [rewrite Hr; by left|].
    rewrite (proj1 (allFinished_lookup s) Hall n p Hp) in Hnf. done. }
  assert (Hcpu : currentCPU s = None).
  { destruct (currentCPU s) as [c|] eqn:Hc; [|done].
    destruct (excl_cpu s HE c Hc) as (_ & p & Hp & _ & Hnf).
    rewrite (proj1 (allFinished_lookup s) Hall _ p Hp) in Hnf. done. }
  rewrite Ht. cbn. by rewrite Hrq, Hcpu.
Qed.

Lemma C6_tick_after_completion_witness :
  tick (ticks 5 startB) =
    stopSim (with_currentTime (currentTime (ticks 5 startB) + 1) (ticks 5 startB)) ∧
  processes (tick (ticks 5 startB)) = processes (ticks 5 startB) ∧
  readyQueue (tick (ticks 5 startB)) = [] ∧ readyQueue (ticks 5 startB) = [] ∧
  currentCPU (tick (ticks 5 startB)) = None ∧ currentCPU (ticks 5 startB) = None ∧
  historyList (tick (ticks 5 startB)) = historyList (ticks 5 startB) ∧
  finishedOrder (tick (ticks 5 startB)) = finishedOrder (ticks 5 startB) ∧
  currentTime (tick (ticks 5 startB)) = currentTime (ticks 5 startB) + 1 ∧
  running (tick (ticks 5 startB)) = false ∧
  allFinished (tick (ticks 5 startB)) = true.
Proof.
  apply (C6_tick_after_completion scenarioB (ticks 5 startB)).
  - apply reachable_ticks. constructor.
  - reflexivity.
Defined.

(** ** The input precondition *)

(** The identity between the tracked waiting time and the one
    [renderStats] derives rests on the validity of the table: with a
    burst of 0 the process still occupies the CPU for one tick, and with
    a negative arrival time it arrives at clock 0. *)
Lemma identity_needs_valid_defs :
  (processes (ticks 1 (deepReset [ProcDef "P1" 0 0 "#e91e63"] (loaded (Some 2)))) !! 0%nat
     = Some (Process "P1" 0 0 "#e91e63" 0 0 (Some 1) true true) ∧
   statsWT (Process "P1" 0 0 "#e91e63" 0 0 (Some 1) true true) = Some 1) ∧
  (processes (ticks 1 (deepReset [ProcDef "P1" 1 (-2) "#e91e63"] (loaded (Some 2)))) !! 0%nat
     = Some (Process "P1" 1 (-2) "#e91e63" 0 0 (Some 1) true true) ∧
   statsWT (Process "P1" 1 (-2) "#e91e63" 0 0 (Some 1) true true) = Some 2).
Proof. vm_compute. repeat split. Qed.

(** ** Termination *)

Lemma sumZ_alter (f : Z → Z) (l : list Z) (i : nat) (x : Z) :
  l !! i = Some x → sumZ (alter f i l) = sumZ l - x + f x.
Proof.
  revert i. induction l as [|y l IH]; intros [|i] Hi; simplify_eq/=.
  - lia.
  - rewrite (IH i Hi). lia.
Qed.

Lemma sumZ_nonneg (l : list Z) :
  (∀ j y, l !! j = Some y → 0 ≤ y) → 0 ≤ sumZ l.
Proof.
  induction l as [|y l IH]; intros H; [done|].
  pose proof (H 0%nat y eq_refl).
  assert (0 ≤ sumZ l) by (apply IH; intros j z; apply (H (S j))).
  cbn. fold (sumZ l). lia.
Qed.

Lemma sumZ_lookup_le (l : list Z) (i : nat) (x : Z) :
  (∀ j y, l !! j = Some y → 0 ≤ y) → l !! i = Some x → x ≤ sumZ l.
Proof.
  revert i. induction l as [|y l IH]; intros i Hnn Hi; [done|].
  assert (Hl : ∀ j z, l !! j = Some z → 0 ≤ z) by (intros j z; apply (Hnn (S j))).
  pose proof (Hnn 0%nat y eq_refl) as Hy.
  pose proof (sumZ_nonneg l Hl) as Hs.
  cbn. fold (sumZ l).
  destruct i as [|i]; simplify_eq/=; [lia|].
  specialize (IH i Hl Hi). lia.
Qed.

Lemma maxArrival_ge (defs : list procDef) (i : nat) (d : procDef) :
  defs !! i = Some d → d_arrivalTime d ≤ maxArrival defs.
Proof.
  unfold maxArrival. revert i. induction defs as [|e defs IH]; intros [|i] Hi;
    simplify_eq/=; [lia|].
  specialize (IH i Hi). lia.
Qed.

Lemma maxArrival_nonneg (defs : list procDef) : 0 ≤ maxArrival defs.
Proof. unfold maxArrival. induction defs as [|e defs IH]; cbn; lia. Qed.

Lemma not_allFinished (s : state) :
  allFinished s = false → ∃ i p, processes s !! i = Some p ∧ finished p = false.
Proof.
  unfold allFinished. induction (processes s) as [|q ps IH]; cbn; [done|].
  intros [Hq|Hps]%andb_false_iff.
  - by exists 0%nat, q.
  - destruct (IH Hps) as (i & p & ? & ?). by exists (S i), p.
Qed.

Lemma ticks_S (n : nat) (s : state) : ticks (S n) s = tick (ticks n s).
Proof. done. Qed.

Lemma ticks_S_r (n : nat) (s : state) : ticks (S n) s = ticks n (tick s).
Proof. unfold ticks. apply Nat.iter_succ_r. Qed.

Lemma dispatched_lookup (s : state) (i : nat) :
  processes (dispatched s) !! i = arr (currentTime s) <$> processes s !! i.
Proof. unfold dispatched. by rewrite dispatch_processes, arrivalsStep_lookup. Qed.

Lemma unitEffect_remainingTime (c : cpuSlot) (s : state) (i : nat) (p : process) :
  remainingTime (unitEffect c s i p) =
  if decide (i = proc c) then Z.max 0 (remainingTime p - 1) else remainingTime p.
Proof. unfold unitEffect. by repeat case_decide. Qed.

(** A tick with the CPU occupied takes one unit off the work left. *)
Lemma tick_remaining_busy (s : state) (c : cpuSlot) :
  Inv s → currentCPU (dispatched s) = Some c →
  totalRemaining (tick s) = totalRemaining s - 1.
Proof.
  intros HI Hc. destruct (Inv_dispatched s HI) as (HE & _ & HP).
  pose proof HE as [Hnd _ Hcpu _].
  destruct (Hcpu c Hc) as (Hnin & pc & Hpc & _).
  pose proof (HP c pc Hc Hpc) as Hpos.
  rewrite dispatched_lookup in Hpc.
  destruct (processes s !! proc c) as [p|] eqn:Hp; [|done].
  cbn in Hpc. injection Hpc as <-. rewrite arr_remainingTime in Hpos.
  unfold totalRemaining. destruct (tick_frame s) as (-> & _).
  assert (remainingTime <$> processes (settled s) =
          alter (λ r, r - 1) (proc c) (remainingTime <$> processes s)) as ->.
  { apply list_eq. intros i. rewrite list_lookup_fmap.
    unfold settled, executed. rewrite Hc.
    rewrite settle_lookup, arrivalsStep_lookup, execUnit_lookup by done.
    rewrite dispatched_lookup.
    destruct (decide (i = proc c)) as [->|Hne].
    - rewrite list_lookup_alter_eq, list_lookup_fmap, Hp. cbn. f_equal.
      rewrite settleEffect_remainingTime, arr_remainingTime.
      rewrite unitEffect_remainingTime, decide_True by done.
      rewrite arr_remainingTime. lia.
    - rewrite list_lookup_alter_ne, list_lookup_fmap by done.
      destruct (processes s !! i) as [q|]; [|done]. cbn. f_equal.
      rewrite settleEffect_remainingTime, arr_remainingTime.
      rewrite unitEffect_remainingTime, decide_False by done.
      by rewrite arr_remainingTime. }
  rewrite (sumZ_alter _ _ (proc c) (remainingTime p)); [lia|].
  by rewrite list_lookup_fmap, Hp.
Qed.

(** An idle tick leaves it as it is. *)
Lemma tick_remaining_idle (s : state) :
  currentCPU (dispatched s) = None → totalRemaining (tick s) = totalRemaining s.
Proof.
  intros Hc. unfold totalRemaining. destruct (tick_frame s) as (-> & _).
  f_equal. apply list_eq. intros i. rewrite !list_lookup_fmap.
  unfold settled, executed. rewrite Hc. rewrite arrivalsStep_lookup. cbn.
  rewrite dispatched_lookup.
  destruct (processes s !! i) as [q|]; [|done]. cbn.
  by rewrite !arr_remainingTime.
Qed.

Lemma tick_remaining (s : state) :
  Inv s →
  totalRemaining (tick s) = totalRemaining s - (if isIdleTick s then 0 else 1).
Proof.
  intros HI. unfold isIdleTick.
  destruct (currentCPU (dispatched s)) as [c|] eqn:Hc.
  - by apply (tick_remaining_busy s c).
  - rewrite tick_remaining_idle by done. lia.
Qed.

(** On an idle tick every unfinished process is still to arrive. *)
Lemma idle_tick_before_arrival (s : state) (i : nat) (p : process) :
  Inv s → isIdleTick s = true →
  processes s !! i = Some p → finished p = false →
  currentTime s < arrivalTime p.
Proof.
  intros HI Hidle Hp Hf. destruct (Inv_dispatched s HI) as (_ & HA & _).
  unfold isIdleTick in Hidle.
  destruct (currentCPU (dispatched s)) as [c|] eqn:Hc; [done|].
  destruct (dispatch_idle (arrivalsStep s) Hc) as (_ & Hrq & Heq).
  change (dispatched s = arrivalsStep s) in Heq.
  assert (Hp1 : processes (dispatched s) !! i = Some (arr (currentTime s) p))
    by (by rewrite dispatched_lookup, Hp).
  destruct (arrived (arr (currentTime s) p)) eqn:Ha.
  - destruct (acct_live _ _ HA i _ Hp1 Ha) as ([Hin|Hcpu] & _).
    + by rewrite arr_finished.
    + rewrite Heq, Hrq in Hin. by apply elem_of_nil in Hin.
    + unfold cpuRef in Hcpu. by rewrite Hc in Hcpu.
  - destruct (acct_new _ _ HA i _ Hp1 Ha) as (_ & _ & Hlo).
    assert (arrivalTime (arr (currentTime s) p) = arrivalTime p) as Hat.
    { pose proof (arr_stat (currentTime s) p) as Hs. unfold stat in Hs. congruence. }
    lia.
Qed.

(** The remaining time of every process is at least 0, and above 0
    until it finishes. *)
Lemma Inv_remaining (s : state) (i : nat) (p : process) :
  Inv s → processes s !! i = Some p →
  0 ≤ remainingTime p ∧ (finished p = false → 0 < remainingTime p).
Proof.
  intros (HE & HA & HP) Hp.
  pose proof (acct_valid _ _ HA i p Hp) as Hb.
  destruct (finished p) eqn:Hf.
  - destruct (acct_done _ _ HA i p Hp Hf) as (-> & _). done.
  - destruct (arrived p) eqn:Ha.
    + destruct (acct_live _ _ HA i p Hp Ha Hf) as (_ & ? & Hpos & _).
      split; [done|]. intros _.
      destruct (decide (cpuRef s = Some i)) as [Hc|Hc]; [|by apply Hpos].
      unfold cpuRef in Hc. destruct (currentCPU s) as [c|] eqn:Hcs; [|done].
      cbn in Hc. injection Hc as <-. by apply (HP c p).
    + destruct (acct_new _ _ HA i p Hp Ha) as (_ & -> & _). lia.
Qed.

Lemma tick_currentTime (s : state) : currentTime (tick s) = currentTime s + 1.
Proof.
  rewrite tick_settled.
  destruct (allFinished (settled s)); apply settled_currentTime.
Qed.

Lemma reachable_arrival_le (defs : list procDef) (s : state) (i : nat) (p : process) :
  reachable defs s → processes s !! i = Some p →
  arrivalTime p ≤ maxArrival defs.
Proof.
  intros Hr Hp. pose proof (reachable_stat defs s i Hr) as Hs.
  rewrite Hp in Hs. destruct (defs !! i) as [d|] eqn:Hd; [|done].
  cbn in Hs. unfold stat in Hs.
  assert (arrivalTime p = d_arrivalTime d) as -> by congruence.
  by apply (maxArrival_ge defs i).
Qed.

Lemma ticksLeft_step (defs : list procDef) (s : state) :
  validDefs defs → reachable defs s → allFinished s = false →
  ticksLeft defs (tick s) ≤ ticksLeft defs s - 1.
Proof.
  intros Hv Hr Hnf. pose proof (Inv_reachable defs s Hv Hr) as HI.
  unfold ticksLeft. rewrite tick_remaining, tick_currentTime by done.
  destruct (isIdleTick s) eqn:Hidle; [|lia].
  destruct (not_allFinished s Hnf) as (i & p & Hp & Hf).
  pose proof (idle_tick_before_arrival s i p HI Hidle Hp Hf).
  pose proof (reachable_arrival_le defs s i p Hr Hp).
  lia.
Qed.

Lemma ticksLeft_zero (defs : list procDef) (s : state) :
  validDefs defs → reachable defs s → ticksLeft defs s ≤ 0 →
  allFinished s = true.
Proof.
  intros Hv Hr Hle. pose proof (Inv_reachable defs s Hv Hr) as HI.
  destruct (allFinished s) eqn:Hnf; [done|].
  destruct (not_allFinished s Hnf) as (i & p & Hp & Hf).
  destruct (Inv_remaining s i p HI Hp) as [_ Hpos]. specialize (Hpos Hf).
  assert (remainingTime p ≤ totalRemaining s).
  { unfold totalRemaining. apply (sumZ_lookup_le _ i).
    - intros j y Hy. rewrite list_lookup_fmap in Hy.
      destruct (processes s !! j) as [q|] eqn:Hq; simplify_eq/=.
      by destruct (Inv_remaining s j q HI Hq).
    - by rewrite list_lookup_fmap, Hp. }
  unfold ticksLeft in Hle. lia.
Qed.

Lemma allFinished_ticks (defs : list procDef) (n : nat) (s : state) :
  reachable defs s → allFinished s = true → allFinished (ticks n s) = true.
Proof.
  intros Hr Hall. induction n as [|n IH]; [done|].
  rewrite ticks_S.
  rewrite (tick_all_finished (ticks n s)); [done| |done].
  apply (Excl_reachable defs). by apply reachable_ticks.
Qed.

Lemma terminates (defs : list procDef) (n : nat) (s : state) :
  validDefs defs → reachable defs s → ticksLeft defs s ≤ Z.of_nat n →
  allFinished (ticks n s) = true.
Proof.
  intros Hv. revert s. induction n as [|n IH]; intros s Hr Hle.
  - by apply (ticksLeft_zero defs).
  - destruct (allFinished s) eqn:Hall.
    + by apply (allFinished_ticks defs).
    + rewrite ticks_S_r. apply IH; [by constructor|].
      pose proof (ticksLeft_step defs s Hv Hr Hall). lia.
Qed.

Lemma executed_units (defs : list procDef) (n : nat) (s : state) :
  validDefs defs → reachable defs s →
  totalRemaining (ticks n s) = totalRemaining s - (Z.of_nat n - idleTicks n s).
Proof.
  intros Hv Hr. induction n as [|n IH]; [cbn; lia|].
  rewrite ticks_S, tick_remaining, IH.
  - cbn [idleTicks]. destruct (isIdleTick (ticks n s)); lia.
  - apply (Inv_reachable defs); [done|]. by apply reachable_ticks.
Qed.

Lemma allFinished_totalRemaining (s : state) :
  Inv s → allFinished s = true → totalRemaining s = 0.
Proof.
  intros (_ & HA & _) Hall.
  pose proof (proj1 (allFinished_lookup s) Hall) as Hfin.
  assert (H : ∀ i p, processes s !! i = Some p → remainingTime p = 0).
  { intros i p Hp. by destruct (acct_done _ _ HA i p Hp (Hfin i p Hp)). }
  unfold totalRemaining. clear -H.
  induction (processes s) as [|q ps IH]; [done|].
  cbn. fold (sumZ (remainingTime <$> ps)).
  rewrite (H 0%nat q eq_refl), IH; [done|].
  intros i p. apply (H (S i)).
Qed.

Lemma least_true (f : nat → bool) (n : nat) :
  f n = true →
  ∃ m, (m ≤ n)%nat ∧ f m = true ∧ ∀ k, (k < m)%nat → f k = false.
Proof.
  revert f. induction n as [|n IH]; intros f Hf.
  - exists 0%nat. split; [done|]. split; [done|]. lia.
  - destruct (f 0%nat) eqn:H0.
    + exists 0%nat. split; [lia|]. split; [done|]. lia.
    + destruct (IH (λ k, f (S k)) Hf) as (m & Hle & Hm & Hlt).
      exists (S m). split; [lia|]. split; [done|].
      intros [|k] Hk; [done|]. apply Hlt. lia.
Qed.

Lemma totalRemaining_deepReset (defs : list procDef) (s : state) :
  totalRemaining (deepReset defs s) = sumBurst defs.
Proof.
  unfold totalRemaining, sumBurst. cbn. by rewrite <- list_fmap_compose.
Qed.

Lemma sumBurst_nonneg (defs : list procDef) : validDefs defs → 0 ≤ sumBurst defs.
Proof.
  intros Hv. apply sumZ_nonneg. intros j y Hy. rewrite list_lookup_fmap in Hy.
  destruct (defs !! j) as [d|] eqn:Hd; simplify_eq/=.
  destruct (Forall_lookup_1 _ _ _ _ Hv Hd). lia.
Qed.

(** C9, as stated, fails.  With P1 (burst 1, arrival 0) and P2 (burst 1,
    arrival 10) the bursts sum to 2 and there is no idle tick before the
    first arrival (the first tick runs P1), but after 2 ticks the
    simulation is not complete; it is complete after 11 ticks and not
    before, 9 of them idle ticks between the end of P1 and the arrival
    of P2. *)
Lemma C9_counterexample :
  validDefs gapDefs ∧
  sumBurst gapDefs = 2 ∧
  isIdleTick startGap = false ∧
  allFinished (ticks 2 startGap) = false ∧
  forallb (λ k, negb (allFinished (ticks k startGap))) (seq 0 11) = true ∧
  allFinished (ticks 11 startGap) = true ∧
  idleTicks 11 startGap = 9.
Proof. split; [valid_defs|]. vm_compute. repeat split. Qed.

(** C9, amended.  For every table with positive bursts and arrival
    times that are not negative, repeated ticks from the reset state
    reach the all-finished state; the number of ticks at which it is
    first reached is the sum of all burst times plus the number of idle
    ticks up to there (before the first arrival or in a later gap with
    every arrived process finished), and is at most the sum of all burst
    times plus the largest arrival time. *)
Theorem C9_termination (defs : list procDef) (s0 : state) :
  validDefs defs →
  ∃ n : nat,
    allFinished (ticks n (deepReset defs s0)) = true ∧
    (∀ k, (k < n)%nat → allFinished (ticks k (deepReset defs s0)) = false) ∧
    Z.of_nat n = sumBurst defs + idleTicks n (deepReset defs s0) ∧
    Z.of_nat n ≤ sumBurst defs + maxArrival defs.
Proof.
  intros Hv. set (s := deepReset defs s0).
  assert (Hr : reachable defs s) by constructor.
  pose proof (sumBurst_nonneg defs Hv) as Hsb.
  pose proof (maxArrival_nonneg defs) as Hma.
  assert (Hleft : ticksLeft defs s = sumBurst defs + maxArrival defs).
  { unfold ticksLeft. subst s. rewrite totalRemaining_deepReset. cbn. lia. }
  set (B := Z.to_nat (sumBurst defs + maxArrival defs)).
  assert (HB : allFinished (ticks B s) = true).
  { apply (terminates defs); [done..|]. subst B. lia. }
  destruct (least_true (λ k, allFinished (ticks k s)) B HB) as (n & Hle & Hn & Hlt).
  exists n. split; [done|]. split; [done|]. split; [|subst B; lia].
  pose proof (executed_units defs n s Hv Hr) as Hex.
  rewrite allFinished_totalRemaining in Hex.
  - subst s. rewrite totalRemaining_deepReset in Hex. lia.
  - apply (Inv_reachable defs); [done|]. by apply reachable_ticks.
  - done.
Qed.

Lemma C9_termination_witness :
  ∃ n : nat,
    allFinished (ticks n (deepReset gapDefs (loaded (Some 2)))) = true ∧
    (∀ k, (k < n)%nat →
          allFinished (ticks k (deepReset gapDefs (loaded (Some 2)))) = false) ∧
    Z.of_nat n = sumBurst gapDefs + idleTicks n (deepReset gapDefs (loaded (Some 2))) ∧
    Z.of_nat n ≤ sumBurst gapDefs + maxArrival gapDefs.
Proof.
  apply (C9_termination gapDefs (loaded (Some 2))). valid_defs.
Defined.

(** * Further properties of the engine *)

(** ** One tick on one object *)

Lemma executed_lookup_busy (s : state) (c : cpuSlot) (i : nat) :
  Excl s → currentCPU (dispatched s) = Some c →
  processes (executed s) !! i =
  (λ p, arr (currentTime s + 1)
          (unitEffect c (dispatched s) i (arr (currentTime s) p)))
    <$> processes s !! i.
Proof.
  intros HE Hc. pose proof (Excl_dispatched s HE) as [Hnd _ Hcpu _].
  destruct (Hcpu c Hc) as (Hnin & _).
  unfold executed. rewrite Hc, arrivalsStep_lookup, execUnit_lookup by done.
  rewrite dispatched_lookup.
  change (currentTime (execUnit c (dispatched s)))
    with (currentTime (dispatched s) + 1).
  rewrite dispatched_currentTime. by destruct (processes s !! i).
Qed.

Lemma executed_lookup_idle (s : state) (i : nat) :
  currentCPU (dispatched s) = None →
  processes (executed s) !! i =
  (λ p, arr (currentTime s + 1) (arr (currentTime s) p)) <$> processes s !! i.
Proof.
  intros Hc. unfold executed. rewrite Hc, arrivalsStep_lookup. cbn.
  rewrite dispatched_lookup, dispatched_currentTime.
  by destruct (processes s !! i).
Qed.

Lemma tick_lookup (s : state) (i : nat) :
  Excl s → processes (tick s) !! i = tickEffect s i <$> processes s !! i.
Proof.
  intros HE. destruct (tick_frame s) as (-> & _). unfold settled, tickEffect.
  destruct (currentCPU (dispatched s)) as [c|] eqn:Hc.
  - rewrite settle_lookup, (executed_lookup_busy s c) by done.
    by destruct (processes s !! i).
  - by apply executed_lookup_idle.
Qed.

Lemma sameEngine_refl (s : state) : sameEngine s s.
Proof. by repeat split. Qed.

(** Induction over the reachable states for a property of the engine
    fields. *)
Lemma reachable_engine_ind (defs : list procDef) (J : state → Prop) :
  (∀ s, J (deepReset defs s)) →
  (∀ s, reachable defs s → J s → J (tick s)) →
  (∀ s s', sameEngine s s' → J s → J s') →
  ∀ s, reachable defs s → J s.
Proof.
  intros Hreset Htick Hext s. induction 1 as [s|s Hr IH|q s _ IH|s _ IH|s _ IH].
  - apply Hreset.
  - by apply Htick.
  - apply (Hext s); [|done]. by repeat split.
  - apply (Hext s); [|done]. unfold startSim. destruct (running s); by repeat split.
  - apply (Hext s); [|done]. by repeat split.
Qed.

Lemma arr_arrivalTime (t : Z) (p : process) : arrivalTime (arr t p) = arrivalTime p.
Proof. unfold arr. by destruct (arrives t p). Qed.

Lemma arr_burstTime (t : Z) (p : process) : burstTime (arr t p) = burstTime p.
Proof. unfold arr. by destruct (arrives t p). Qed.

Lemma arr_completionTime (t : Z) (p : process) :
  completionTime (arr t p) = completionTime p.
Proof. unfold arr. by destruct (arrives t p). Qed.

Lemma arr_arrived_iff (t : Z) (p : process) :
  arrived (arr t p) = true ↔ arrived p = true ∨ arrivalTime p ≤ t.
Proof.
  rewrite arr_arrived, orb_true_iff, arrives_iff.
  destruct (arrived p); intuition congruence.
Qed.

Lemma unitEffect_arrivalTime c s i p :
  arrivalTime (unitEffect c s i p) = arrivalTime p.
Proof. unfold unitEffect. by repeat case_decide. Qed.

Lemma unitEffect_burstTime c s i p : burstTime (unitEffect c s i p) = burstTime p.
Proof. unfold unitEffect. by repeat case_decide. Qed.

Lemma unitEffect_waitingTime (c : cpuSlot) (s : state) (i : nat) (p : process) :
  waitingTime (unitEffect c s i p) =
  if decide (i = proc c) then waitingTime p
  else if decide (i ∈ readyQueue s) then waitingTime p + 1 else waitingTime p.
Proof. unfold unitEffect. by repeat case_decide. Qed.

Lemma settleEffect_arrived j s i p : arrived (settleEffect j s i p) = arrived p.
Proof. by destruct (settleEffect_cases j s i p) as [->|[_ ->]]. Qed.

Lemma settleEffect_arrivalTime j s i p :
  arrivalTime (settleEffect j s i p) = arrivalTime p.
Proof. by destruct (settleEffect_cases j s i p) as [->|[_ ->]]. Qed.

Lemma settleEffect_burstTime j s i p :
  burstTime (settleEffect j s i p) = burstTime p.
Proof. by destruct (settleEffect_cases j s i p) as [->|[_ ->]]. Qed.

Lemma tickEffect_arrivalTime (s : state) (i : nat) (p : process) :
  arrivalTime (tickEffect s i p) = arrivalTime p.
Proof.
  unfold tickEffect. destruct (currentCPU (dispatched s)).
  - by rewrite settleEffect_arrivalTime, arr_arrivalTime, unitEffect_arrivalTime,
      arr_arrivalTime.
  - by rewrite !arr_arrivalTime.
Qed.

Lemma tickEffect_burstTime (s : state) (i : nat) (p : process) :
  burstTime (tickEffect s i p) = burstTime p.
Proof.
  unfold tickEffect. destruct (currentCPU (dispatched s)).
  - by rewrite settleEffect_burstTime, arr_burstTime, unitEffect_burstTime,
      arr_burstTime.
  - by rewrite !arr_burstTime.
Qed.

Lemma tickEffect_arrived (s : state) (i : nat) (p : process) :
  arrived (tickEffect s i p) = true ↔
  arrived p = true ∨ arrivalTime p ≤ currentTime s + 1.
Proof.
  unfold tickEffect. destruct (currentCPU (dispatched s)).
  - rewrite settleEffect_arrived, arr_arrived_iff, unitEffect_arrived,
      unitEffect_arrivalTime, arr_arrived_iff, arr_arrivalTime. intuition lia.
  - rewrite !arr_arrived_iff, arr_arrivalTime. intuition lia.
Qed.

(** ** Arrival *)

(** X1. After every tick from a reachable state (any table), the
    processes marked arrived are exactly those whose arrival time is at
    most the clock: none enters early and none is a tick late. *)
Theorem arrived_iff_due
    (defs : list procDef) (s : state) (i : nat) (p : process) :
  reachable defs s → processes (tick s) !! i = Some p →
  (arrived p = true ↔ arrivalTime p ≤ currentTime (tick s)).
Proof.
  intros Hr Hp.
  assert (Hinv : ∀ s, reachable defs s →
            ∀ i p, processes s !! i = Some p → arrived p = true →
                   arrivalTime p ≤ currentTime s).
  { clear. apply (reachable_engine_ind defs
      (λ s, ∀ i p, processes s !! i = Some p → arrived p = true →
                   arrivalTime p ≤ currentTime s)).
    - intros s i p Hp. cbn in Hp. rewrite list_lookup_fmap in Hp.
      destruct (defs !! i); by simplify_eq/=.
    - intros s Hr IH i p' Hp' Ha'.
      rewrite tick_lookup in Hp' by (by eapply Excl_reachable).
      destruct (processes s !! i) as [p|] eqn:Hp; simplify_eq/=.
      rewrite tick_currentTime, tickEffect_arrivalTime.
      apply tickEffect_arrived in Ha' as [Ha|Hle]; [|done].
      specialize (IH i p Hp Ha). lia.
    - intros s s' (Hp & _ & Ht & _) IH i p. rewrite Hp, Ht. apply IH. }
  split.
  - apply (Hinv (tick s) (reach_tick defs s Hr) i p Hp).
  - rewrite tick_lookup in Hp by (by eapply Excl_reachable).
    destruct (processes s !! i) as [p0|] eqn:Hp0; simplify_eq/=.
    rewrite tick_currentTime, tickEffect_arrivalTime, tickEffect_arrived. auto.
Qed.

Lemma arrived_iff_due_witness :
  arrived (objP2 2 0 None true false) = true ↔
  arrivalTime (objP2 2 0 None true false) ≤ currentTime (tick startB).
Proof.
  apply (arrived_iff_due scenarioB startB 1%nat).
  - constructor.
  - reflexivity.
Defined.

(** ** Properties kept object by object *)

Lemma tickEffect_pointwise (P : process → Prop) (s : state) (i : nat) (p : process) :
  (∀ q, P q → P (set_arrived true q)) →
  (∀ q, P q → P (incWaiting q)) →
  (∀ q, P q → P (runUnit q)) →
  (∀ t q, P q → P (finishAt t q)) →
  P p → P (tickEffect s i p).
Proof.
  intros Ha Hw Hr Hf Hp.
  assert (Harr : ∀ t q, P q → P (arr t q))
    by (intros t q Hq; unfold arr; destruct (arrives t q); auto).
  assert (Hu : ∀ c s' q, P q → P (unitEffect c s' i q))
    by (intros c s' q Hq; unfold unitEffect; repeat case_decide; auto).
  unfold tickEffect. destruct (currentCPU (dispatched s)) as [c|]; [|auto].
  destruct (settleEffect_cases (proc c) (executed s) i
              (arr (currentTime s + 1)
                 (unitEffect c (dispatched s) i (arr (currentTime s) p))))
    as [->|[_ ->]]; auto.
Qed.

Lemma reachable_pointwise (defs : list procDef) (P : process → Prop) :
  (∀ d, d ∈ defs → P (freshProcess d)) →
  (∀ q, P q → P (set_arrived true q)) →
  (∀ q, P q → P (incWaiting q)) →
  (∀ q, P q → P (runUnit q)) →
  (∀ t q, P q → P (finishAt t q)) →
  ∀ s, reachable defs s → ∀ i p, processes s !! i = Some p → P p.
Proof.
  intros H0 Ha Hw Hr Hf.
  apply (reachable_engine_ind defs (λ s, ∀ i p, processes s !! i = Some p → P p)).
  - intros s i p Hp. cbn in Hp. rewrite list_lookup_fmap in Hp.
    destruct (defs !! i) as [d|] eqn:Hd; simplify_eq/=.
    apply H0. by eapply list_elem_of_lookup_2.
  - intros s Hreach IH i p' Hp'.
    rewrite tick_lookup in Hp' by (by eapply Excl_reachable).
    destruct (processes s !! i) as [p|] eqn:Hp; simplify_eq/=.
    apply tickEffect_pointwise; eauto.
  - intros s s' (Hp & _) IH i p. rewrite Hp. apply IH.
Qed.

(** The bounds that hold for every object of a valid table. *)
Lemma reachable_bounds (defs : list procDef) (s : state) (i : nat) (p : process) :
  validDefs defs → reachable defs s → processes s !! i = Some p →
  0 < burstTime p ∧ 0 ≤ arrivalTime p ∧ 0 ≤ waitingTime p ∧
  0 ≤ remainingTime p ≤ burstTime p ∧
  (finished p = false → completionTime p = None).
Proof.
  intros Hv Hr Hp. revert s Hr i p Hp.
  apply (reachable_pointwise defs (λ p,
    0 < burstTime p ∧ 0 ≤ arrivalTime p ∧ 0 ≤ waitingTime p ∧
    0 ≤ remainingTime p ≤ burstTime p ∧
    (finished p = false → completionTime p = None))).
  - intros d Hd. pose proof (proj1 (Forall_forall _ _) Hv d Hd) as [? ?].
    cbn. repeat split; (done || lia).
  - intros q (? & ? & ? & ? & ?). done.
  - intros q (? & ? & ? & ? & ?). cbn. repeat split; (done || lia).
  - intros q (? & ? & ? & ? & ?). cbn. repeat split; (done || lia).
  - intros t q (? & ? & ? & ? & ?). cbn. repeat split; (done || lia).
Qed.

(** X2. Conservation: over a valid table every reachable process record
    has [0 <= remainingTime <= burstTime] and a waiting time that is not
    negative; [remainingTime] is 0 exactly for the finished processes,
    and [completionTime] is set exactly for them. *)
Theorem remaining_time_conserved
    (defs : list procDef) (s : state) (i : nat) (p : process) :
  validDefs defs → reachable defs s → processes s !! i = Some p →
  0 ≤ remainingTime p ≤ burstTime p ∧
  0 ≤ waitingTime p ∧
  (remainingTime p = 0 ↔ finished p = true) ∧
  (is_Some (completionTime p) ↔ finished p = true).
Proof.
  intros Hv Hr Hp.
  destruct (reachable_bounds defs s i p Hv Hr Hp) as (_ & _ & Hw & Hrem & Hct).
  pose proof (Inv_reachable defs s Hv Hr) as HI.
  destruct (Inv_remaining s i p HI Hp) as [_ Hpos].
  destruct HI as (_ & HA & _).
  split; [done|]. split; [done|]. split; split.
  - intros Hz. destruct (finished p); [done|]. specialize (Hpos eq_refl). lia.
  - intros Hf. by destruct (acct_done _ _ HA i p Hp Hf).
  - intros [ct Hc]. destruct (finished p); [done|].
    rewrite Hct in Hc by done. done.
  - intros Hf. destruct (acct_done _ _ HA i p Hp Hf) as (_ & ct & -> & _). by exists ct.
Qed.

Lemma remaining_time_conserved_witness :
  0 ≤ remainingTime (objP1 1 0 None true false)
    ≤ burstTime (objP1 1 0 None true false) ∧
  0 ≤ waitingTime (objP1 1 0 None true false) ∧
  (remainingTime (objP1 1 0 None true false) = 0 ↔
   finished (objP1 1 0 None true false) = true) ∧
  (is_Some (completionTime (objP1 1 0 None true false)) ↔
   finished (objP1 1 0 None true false) = true).
Proof.
  apply (remaining_time_conserved scenarioB (ticks 2 startB) 0%nat).
  - valid_defs.
  - apply reachable_ticks. constructor.
  - reflexivity.
Defined.

(** X3. Completion bounds: over a valid table a finished process has a
    completion time between [arrivalTime + burstTime] and the clock: it
    cannot finish before it has had its burst, and its turnaround is its
    burst plus its waiting time. *)
Theorem completion_time_bounds
    (defs : list procDef) (s : state) (i : nat) (p : process) :
  validDefs defs → reachable defs s →
  processes s !! i = Some p → finished p = true →
  ∃ ct, completionTime p = Some ct ∧
        arrivalTime p + burstTime p ≤ ct ≤ currentTime s ∧
        ct - arrivalTime p = burstTime p + waitingTime p.
Proof.
  intros Hv Hr Hp Hf.
  destruct (reachable_bounds defs s i p Hv Hr Hp) as (_ & _ & Hw & _).
  destruct (Inv_reachable defs s Hv Hr) as (_ & HA & _).
  destruct (acct_done _ _ HA i p Hp Hf) as (_ & ct & Hct & Heq & Hle).
  exists ct. split; [done|]. lia.
Qed.

Lemma completion_time_bounds_witness :
  ∃ ct, completionTime (objP2 0 1 (Some 4) true true) = Some ct ∧
        arrivalTime (objP2 0 1 (Some 4) true true)
          + burstTime (objP2 0 1 (Some 4) true true) ≤ ct
          ≤ currentTime (ticks 5 startB) ∧
        ct - arrivalTime (objP2 0 1 (Some 4) true true) =
          burstTime (objP2 0 1 (Some 4) true true)
          + waitingTime (objP2 0 1 (Some 4) true true).
Proof.
  apply (completion_time_bounds scenarioB (ticks 5 startB) 1%nat).
  - valid_defs.
  - apply reachable_ticks. constructor.
  - reflexivity.
  - reflexivity.
Defined.

(** X4. A finished process is left alone: from any reachable state (any
    table) a tick does not change the record of a process that is
    already finished. *)
Theorem finished_record_frozen
    (defs : list procDef) (s : state) (i : nat) (p : process) :
  reachable defs s → processes s !! i = Some p → finished p = true →
  processes (tick s) !! i = Some p.
Proof.
  intros HE%Excl_reachable Hp Hf.
  rewrite tick_lookup, Hp by done. cbn. f_equal.
  pose proof (excl_fin s HE i p Hp Hf) as Ha.
  assert (Harr : ∀ t, arr t p = p)
    by (intros t; apply arr_id; by apply arrived_not_arrives).
  unfold tickEffect. rewrite !Harr.
  destruct (currentCPU (dispatched s)) as [c|] eqn:Hc; [|done].
  pose proof (Excl_dispatched s HE) as [_ Hq Hcpu _].
  destruct (Hcpu c Hc) as (_ & pc & Hpc & _ & Hfc).
  assert (Hpd : processes (dispatched s) !! i = Some p)
    by (by rewrite dispatched_lookup, Hp; cbn; rewrite Harr).
  assert (Hne : i ≠ proc c) by (intros ->; congruence).
  unfold unitEffect. rewrite decide_False by done.
  destruct (decide (i ∈ readyQueue (dispatched s))) as [Hi|_].
  { destruct (Hq i Hi) as (q & ? & _ & ?). congruence. }
  rewrite Harr. unfold settleEffect. by rewrite decide_False.
Qed.

Lemma finished_record_frozen_witness :
  processes (tick (ticks 4 startB)) !! 1%nat = Some (objP2 0 1 (Some 4) true true).
Proof.
  apply (finished_record_frozen scenarioB (ticks 4 startB) 1%nat).
  - apply reachable_ticks. constructor.
  - reflexivity.
  - reflexivity.
Defined.

(** ** Every ready process runs or waits *)

Lemma tick_lookup_dispatched (s : state) (c : cpuSlot) (i : nat) :
  Excl s → currentCPU (dispatched s) = Some c →
  processes (tick s) !! i =
  (λ q, settleEffect (proc c) (executed s) i
          (arr (currentTime s + 1) (unitEffect c (dispatched s) i q)))
    <$> processes (dispatched s) !! i.
Proof.
  intros HE Hc. rewrite tick_lookup, dispatched_lookup by done.
  unfold tickEffect. rewrite Hc. by destruct (processes s !! i).
Qed.

(** X5. Over a valid table, in every tick from a reachable state, each
    process that has arrived by the first scan and is not finished is
    accounted exactly one unit: either it is the one on the CPU and its
    remaining time goes down by 1 (waiting time unchanged), or it is in
    the ready queue and its waiting time goes up by 1 (remaining time
    unchanged).  In particular such a tick is not idle. *)
Theorem ready_process_runs_or_waits
    (defs : list procDef) (s : state) (i : nat) (p1 : process) :
  validDefs defs → reachable defs s →
  processes (dispatched s) !! i = Some p1 →
  arrived p1 = true → finished p1 = false →
  isIdleTick s = false ∧
  ∃ p', processes (tick s) !! i = Some p' ∧
        ((cpuRef (dispatched s) = Some i ∧
          remainingTime p' = remainingTime p1 - 1 ∧
          waitingTime p' = waitingTime p1) ∨
         (i ∈ readyQueue (dispatched s) ∧
          remainingTime p' = remainingTime p1 ∧
          waitingTime p' = waitingTime p1 + 1)).
Proof.
  intros Hv Hr Hp1 Ha Hf.
  pose proof (Inv_reachable defs s Hv Hr) as HI.
  pose proof (Excl_reachable defs s Hr) as HE.
  destruct (Inv_dispatched s HI) as (HEd & HA & HP).
  destruct (acct_live _ _ HA i p1 Hp1 Ha Hf) as (Hloc & _).
  assert (∃ c, currentCPU (dispatched s) = Some c) as [c Hc].
  { destruct (currentCPU (dispatched s)) as [c|] eqn:Hc; [by exists c|].
    destruct (dispatch_idle (arrivalsStep s) Hc) as (_ & Hrq & Heq).
    change (dispatched s = arrivalsStep s) in Heq.
    destruct Hloc as [Hin|Hcpu].
    - rewrite Heq, Hrq in Hin. by apply elem_of_nil in Hin.
    - unfold cpuRef in Hcpu. by rewrite Hc in Hcpu. }
  split; [unfold isIdleTick; by rewrite Hc|].
  rewrite (tick_lookup_dispatched s c) by done. rewrite Hp1.
  eexists. split; [done|].
  rewrite settleEffect_remainingTime, settleEffect_waitingTime.
  rewrite arr_remainingTime, arr_waitingTime.
  rewrite unitEffect_remainingTime, unitEffect_waitingTime.
  assert (Href : cpuRef (dispatched s) = Some (proc c))
    by (unfold cpuRef; by rewrite Hc).
  destruct (decide (i = proc c)) as [->|Hne].
  - left. pose proof (HP c p1 Hc Hp1). split; [done|]. split; [lia|done].
  - right. assert (i ∈ readyQueue (dispatched s)) as Hi.
    { destruct Hloc as [?|Hcpu]; [done|]. rewrite Href in Hcpu. congruence. }
    by rewrite decide_True.
Qed.

Lemma ready_process_runs_or_waits_witness :
  isIdleTick (ticks 1 startB) = false ∧
  ∃ p', processes (tick (ticks 1 startB)) !! 1%nat = Some p' ∧
        ((cpuRef (dispatched (ticks 1 startB)) = Some 1%nat ∧
          remainingTime p' = remainingTime (objP2 2 0 None true false) - 1 ∧
          waitingTime p' = waitingTime (objP2 2 0 None true false)) ∨
         (1%nat ∈ readyQueue (dispatched (ticks 1 startB)) ∧
          remainingTime p' = remainingTime (objP2 2 0 None true false) ∧
          waitingTime p' = waitingTime (objP2 2 0 None true false) + 1)).
Proof.
  apply (ready_process_runs_or_waits scenarioB (ticks 1 startB) 1%nat).
  - valid_defs.
  - apply reachable_ticks. constructor.
  - reflexivity.
  - reflexivity.
  - reflexivity.
Defined.

(** X6. Work conservation: over a valid table the CPU idles through a
    tick only when nothing can run: every process is then finished or
    has an arrival time beyond the clock at the start of the tick, and
    the tick changes no waiting or remaining time. *)
Theorem idle_only_when_nothing_ready
    (defs : list procDef) (s : state) (i : nat) (p : process) :
  validDefs defs → reachable defs s → isIdleTick s = true →
  processes s !! i = Some p →
  (finished p = true ∨ currentTime s < arrivalTime p) ∧
  ∃ p', processes (tick s) !! i = Some p' ∧
        remainingTime p' = remainingTime p ∧ waitingTime p' = waitingTime p.
Proof.
  intros Hv Hr Hidle Hp.
  pose proof (Inv_reachable defs s Hv Hr) as HI.
  pose proof (Excl_reachable defs s Hr) as HE.
  split.
  - destruct (finished p) eqn:Hf; [by left|right].
    by apply (idle_tick_before_arrival s i p).
  - rewrite tick_lookup, Hp by done. eexists. split; [done|].
    unfold tickEffect. unfold isIdleTick in Hidle.
    destruct (currentCPU (dispatched s)); [done|].
    by rewrite !arr_remainingTime, !arr_waitingTime.
Qed.

Lemma idle_only_when_nothing_ready_witness :
  (finished (Process "P2" 1 10 "#9c27b0" 1 0 None false false) = true ∨
   currentTime (ticks 3 startGap)
     < arrivalTime (Process "P2" 1 10 "#9c27b0" 1 0 None false false)) ∧
  ∃ p', processes (tick (ticks 3 startGap)) !! 1%nat = Some p' ∧
        remainingTime p' =
          remainingTime (Process "P2" 1 10 "#9c27b0" 1 0 None false false) ∧
        waitingTime p' =
          waitingTime (Process "P2" 1 10 "#9c27b0" 1 0 None false false).
Proof.
  apply (idle_only_when_nothing_ready gapDefs (ticks 3 startGap) 1%nat).
  - valid_defs.
  - apply reachable_ticks. constructor.
  - reflexivity.
  - reflexivity.
Defined.

(** ** The quantum *)

Lemma getQuantum_pos (s : state) : 1 ≤ getQuantum s.
Proof.
  unfold getQuantum. destruct (quantumInput s) as [q|]; [|done].
  destruct (0 <? q) eqn:Hq; [|done]. apply Z.ltb_lt in Hq. lia.
Qed.

(** With the CPU occupied at the start of a tick there is no dispatch. *)
Lemma dispatched_occupied (s : state) (c : cpuSlot) :
  currentCPU s = Some c → currentCPU (dispatched s) = Some c.
Proof.
  intros Hc. unfold dispatched.
  pose proof (dispatch_spec (arrivalsStep s)) as Hd.
  rewrite arrivalsStep_currentCPU, Hc in Hd.
  by rewrite Hd, arrivalsStep_currentCPU.
Qed.

Lemma dispatched_quantum (s : state) (c : cpuSlot) :
  currentCPU s = None → currentCPU (dispatched s) = Some c →
  qLeft c = getQuantum s.
Proof.
  intros Hn Hc. unfold dispatched in Hc.
  pose proof (dispatch_spec (arrivalsStep s)) as Hd.
  rewrite arrivalsStep_currentCPU, Hn in Hd.
  destruct (readyQueue (arrivalsStep s)) as [|n r].
  - rewrite Hd, arrivalsStep_currentCPU, Hn in Hc. done.
  - destruct Hd as [Hd _]. rewrite Hd in Hc. injection Hc as <-.
    cbn. by rewrite arrivalsStep_eq.
Qed.

(** The slot after a tick: cleared, or the same process with one unit
    less of quantum, which is then not 0. *)
Lemma tick_cpu_step (s : state) (c : cpuSlot) :
  Excl s → currentCPU (dispatched s) = Some c →
  currentCPU (tick s) = None ∨
  (currentCPU (tick s) = Some (CpuSlot (proc c) (Z.max 0 (qLeft c - 1))) ∧
   Z.max 0 (qLeft c - 1) ≠ 0).
Proof.
  intros HE Hc. pose proof (executed_currentCPU s c Hc) as Hc'.
  destruct (excl_cpu _ (Excl_executed s HE) _ Hc') as (_ & p & Hp & _).
  cbn [proc] in Hp.
  destruct (tick_frame s) as (_ & _ & -> & _). unfold settled. rewrite Hc.
  destruct (decide (remainingTime p = 0)) as [Hz|Hz].
  - left. by destruct (settle_finish _ _ _ Hp Hz) as (_ & _ & _ & -> & _).
  - destruct (decide (Z.max 0 (qLeft c - 1) = 0)) as [Hq|Hq].
    + left. by destruct (settle_expire _ _ _ _ Hp Hz Hc' Hq) as (_ & _ & _ & -> & _).
    + right. by rewrite (settle_continue _ _ _ _ Hp Hz Hc' Hq).
Qed.

Lemma tick_cpu_idle (s : state) :
  currentCPU (dispatched s) = None → currentCPU (tick s) = None.
Proof.
  intros Hc. destruct (tick_frame s) as (_ & _ & -> & _).
  unfold settled, executed. rewrite Hc. by rewrite arrivalsStep_currentCPU.
Qed.

Lemma reachable_qLeft_pos (defs : list procDef) (s : state) (c : cpuSlot) :
  reachable defs s → currentCPU s = Some c → 0 < qLeft c.
Proof.
  intros Hr. revert c. revert s Hr.
  apply (reachable_engine_ind defs (λ s, ∀ c, currentCPU s = Some c → 0 < qLeft c)).
  - done.
  - intros s Hr _ c' Hc'. pose proof (Excl_reachable defs s Hr) as HE.
    destruct (currentCPU (dispatched s)) as [c|] eqn:Hc.
    + destruct (tick_cpu_step s c HE Hc) as [Hn|[Hs Hq]]; [congruence|].
      rewrite Hs in Hc'. injection Hc' as <-. cbn. lia.
    + rewrite (tick_cpu_idle s Hc) in Hc'. done.
  - intros s s' (_ & _ & _ & Hc & _) IH c. rewrite Hc. apply IH.
Qed.

(** The slot is cleared within the quantum left. *)
Lemma cpu_release
    (defs : list procDef) (s : state) (c : cpuSlot) :
  reachable defs s → currentCPU s = Some c →
  0 < qLeft c ∧
  ∃ j : nat,
    (0 < j)%nat ∧ Z.of_nat j ≤ qLeft c ∧
    currentCPU (ticks j s) = None ∧
    ∀ k : nat, (k < j)%nat →
      currentCPU (ticks k s) = Some (CpuSlot (proc c) (qLeft c - Z.of_nat k)).
Proof.
  intros Hr Hc. pose proof (reachable_qLeft_pos defs s c Hr Hc) as Hpos.
  split; [done|].
  remember (Z.to_nat (qLeft c)) as n eqn:Hn.
  revert s c Hr Hc Hpos Hn. induction n as [|n IH]; intros s c Hr Hc Hpos Hn; [lia|].
  pose proof (Excl_reachable defs s Hr) as HE.
  destruct (tick_cpu_step s c HE (dispatched_occupied s c Hc)) as [Hnone|[Hs Hq]].
  - exists 1%nat. split; [lia|]. split; [lia|]. split; [done|].
    intros k Hk. assert (k = 0%nat) as -> by lia. cbn.
    rewrite Hc. f_equal. destruct c; cbn. f_equal. lia.
  - assert (Hmax : Z.max 0 (qLeft c - 1) = qLeft c - 1) by lia.
    rewrite Hmax in Hs, Hq.
    destruct (IH (tick s) (CpuSlot (proc c) (qLeft c - 1)))
      as (j & Hj & Hle & Hend & Hstay); [by constructor|done|cbn; lia|cbn; lia|].
    cbn [proc qLeft] in Hle, Hstay.
    exists (S j). split; [lia|]. split; [lia|].
    split; [by rewrite ticks_S_r|].
    intros [|k] Hk.
    + cbn. rewrite Hc. f_equal. destruct c; cbn. f_equal. lia.
    + rewrite ticks_S_r, Hstay by lia. do 2 f_equal. lia.
Qed.



Lemma arrivalsStep_onQuantumInput (q : option Z) (s : state) :
  arrivalsStep (onQuantumInput q s) = onQuantumInput q (arrivalsStep s).
Proof. by rewrite !arrivalsStep_eq. Qed.

Lemma settle_onQuantumInput (q : option Z) (i : nat) (s : state) :
  settle i (onQuantumInput q s) = onQuantumInput q (settle i s).
Proof.
  unfold settle.
  change (processes (onQuantumInput q s)) with (processes s).
  change (currentCPU (onQuantumInput q s)) with (currentCPU s).
  destruct (processes s !! i) as [p|]; [|done].
  destruct (remainingTime p =? 0).
  - cbv zeta. unfold moveToFinished. cbn. by case_bool_decide.
  - destruct (currentCPU s) as [c|]; [|done]. by destruct (qLeft c =? 0).
Qed.

(** X8. The quantum is captured at dispatch: editing the quantum field
    while a process is on the CPU does not change what the next tick
    does.  The tick after the edit gives the state of the tick without
    it, with the edit applied to the field and its display. *)
Theorem quantum_edit_while_running (q : option Z) (s : state) (c : cpuSlot) :
  currentCPU s = Some c →
  tick (onQuantumInput q s) = onQuantumInput q (tick s).
Proof.
  intros Hc.
  assert (Hd : ∀ s', currentCPU s' = Some c → dispatched s' = arrivalsStep s').
  { intros s' Hc'. unfold dispatched.
    pose proof (dispatch_spec (arrivalsStep s')) as Hd.
    by rewrite arrivalsStep_currentCPU, Hc' in Hd. }
  assert (He : settled (onQuantumInput q s) = onQuantumInput q (settled s)).
  { unfold settled, executed.
    rewrite (Hd s Hc), (Hd (onQuantumInput q s) Hc).
    rewrite arrivalsStep_onQuantumInput.
    change (currentCPU (onQuantumInput q (arrivalsStep s)))
      with (currentCPU (arrivalsStep s)).
    rewrite arrivalsStep_currentCPU, Hc.
    change (execUnit c (onQuantumInput q (arrivalsStep s)))
      with (onQuantumInput q (execUnit c (arrivalsStep s))).
    by rewrite arrivalsStep_onQuantumInput, settle_onQuantumInput. }
  rewrite !tick_settled, He.
  change (allFinished (onQuantumInput q (settled s))) with (allFinished (settled s)).
  by destruct (allFinished (settled s)).
Qed.

Lemma quantum_edit_while_running_witness :
  tick (onQuantumInput (Some 7) (ticks 1 startB)) =
  onQuantumInput (Some 7) (tick (ticks 1 startB)).
Proof.
  apply (quantum_edit_while_running (Some 7) (ticks 1 startB) (CpuSlot 0 1)).
  reflexivity.
Defined.

(** ** The ready queue is a FIFO *)

Lemma settle_queue (i : nat) (s : state) :
  ∃ e, readyQueue (settle i s) = readyQueue s ++ e.
Proof.
  unfold settle. destruct (processes s !! i) as [p|]; [|exists []; by rewrite app_nil_r].
  destruct (remainingTime p =? 0).
  - exists []. cbv zeta. unfold moveToFinished. rewrite app_nil_r. by case_bool_decide.
  - destruct (currentCPU s) as [c|]; [|exists []; by rewrite app_nil_r].
    destruct (qLeft c =? 0); [by exists [i]|exists []; by rewrite app_nil_r].
Qed.

Lemma settled_queue (s : state) :
  ∃ e, readyQueue (settled s) = readyQueue (dispatched s) ++ e.
Proof.
  unfold settled, executed. destruct (currentCPU (dispatched s)) as [c|].
  - destruct (settle_queue (proc c) (arrivalsStep (execUnit c (dispatched s))))
      as [e ->].
    rewrite arrivalsStep_eq. cbn. rewrite <- app_assoc. by eexists.
  - rewrite arrivalsStep_eq. cbn. by eexists.
Qed.

(** The queue after a tick, from the queue before it. *)
Lemma tick_queue_shape (s : state) :
  ∃ (d : nat) (added : list nat),
    (d ≤ 1)%nat ∧
    readyQueue (tick s) = drop d (readyQueue s ++ added) ∧
    (is_Some (currentCPU s) → d = 0%nat) ∧
    (d = 1%nat →
     ∃ c, currentCPU (dispatched s) = Some c ∧
          (readyQueue s ++ added) !! 0%nat = Some (proc c) ∧
          qLeft c = getQuantum s).
Proof.
  destruct (tick_frame s) as (_ & -> & _).
  destruct (settled_queue s) as [e He]. rewrite He.
  assert (Hq1 : readyQueue (arrivalsStep s) =
                readyQueue s ++ newly (currentTime s) 0 (processes s))
    by (by rewrite arrivalsStep_eq).
  set (n1 := newly (currentTime s) 0 (processes s)) in *.
  pose proof (dispatch_spec (arrivalsStep s)) as Hd.
  rewrite arrivalsStep_currentCPU in Hd. unfold dispatched in *.
  destruct (currentCPU s) as [c0|] eqn:Hc.
  - exists 0%nat, (n1 ++ e). rewrite Hd, Hq1, app_assoc. cbn.
    split; [lia|]. split; [done|]. split; [done|]. lia.
  - destruct (readyQueue (arrivalsStep s)) as [|h r] eqn:Hq.
    + exists 0%nat, (n1 ++ e). rewrite Hd, Hq. cbn.
      split; [lia|]. split.
      { by rewrite app_assoc, <- Hq1. }
      split; [done|]. lia.
    + destruct Hd as [Hcpu Hr]. exists 1%nat, (n1 ++ e).
      split; [lia|]. split.
      { by rewrite Hr, app_assoc, <- Hq1. }
      split; [by intros [? ?]|]. intros _.
      exists (CpuSlot h (getQuantum (arrivalsStep s))).
      split; [done|]. split.
      * by rewrite app_assoc, <- Hq1.
      * by rewrite arrivalsStep_eq.
Qed.

(** X9. The ready queue is a FIFO.  In any state, the queue after a
    tick is the old queue followed by the references added in that tick,
    less at most one element at the front; an element is taken only when
    the CPU is idle at the start of the tick, and the one taken is the
    process dispatched, which gets [getQuantum()] as its quantum.  The
    processes that stay in the queue keep their order. *)
Theorem ready_queue_fifo (s : state) :
  ∃ (d : nat) (added : list nat),
    (d ≤ 1)%nat ∧
    readyQueue (tick s) = drop d (readyQueue s ++ added) ∧
    (is_Some (currentCPU s) → d = 0%nat) ∧
    (d = 1%nat →
     ∃ c, currentCPU (dispatched s) = Some c ∧
          (readyQueue s ++ added) !! 0%nat = Some (proc c) ∧
          qLeft c = getQuantum s).
Proof. apply tick_queue_shape. Qed.

(** ** The log *)

Lemma newEvents_stamp (t : Z) (ps : list process) :
  Forall (λ e, e.1 = t) (newEvents t ps).
Proof.
  induction ps as [|p ps IH]; cbn; [constructor|].
  destruct (arrives t p); cbn; [constructor|]; done.
Qed.

Lemma arrivalsStep_history (s : state) :
  historyList (arrivalsStep s) =
  historyList s ++ newEvents (currentTime s) (processes s).
Proof. by rewrite arrivalsStep_eq. Qed.

Lemma dispatch_history (s : state) :
  ∃ ev, historyList (dispatch s) = historyList s ++ ev ∧
        Forall (λ e, e.1 = currentTime s) ev.
Proof.
  unfold dispatch.
  destruct (currentCPU s), (readyQueue s) as [|n r];
    try (exists []; by rewrite app_nil_r).
  destruct (processes s !! n) as [p|]; [|exists []; by rewrite app_nil_r].
  eexists [_]. split; [done|]. by repeat constructor.
Qed.

Lemma settle_history (i : nat) (s : state) :
  ∃ ev, historyList (settle i s) = historyList s ++ ev ∧
        Forall (λ e, e.1 = currentTime s) ev.
Proof.
  unfold settle.
  destruct (processes s !! i) as [p|]; [|exists []; by rewrite app_nil_r].
  destruct (remainingTime p =? 0).
  - eexists [_]. cbv zeta. unfold moveToFinished.
    split; [by case_bool_decide|]. by repeat constructor.
  - destruct (currentCPU s) as [c|]; [|exists []; by rewrite app_nil_r].
    destruct (qLeft c =? 0); [|exists []; by rewrite app_nil_r].
    eexists [_]. split; [done|]. by repeat constructor.
Qed.

Lemma dispatched_history (s : state) :
  ∃ ev, historyList (dispatched s) = historyList s ++ ev ∧
        Forall (λ e, e.1 = currentTime s) ev.
Proof.
  unfold dispatched.
  destruct (dispatch_history (arrivalsStep s)) as (ev1 & -> & Hs1).
  rewrite arrivalsStep_currentTime in Hs1. rewrite arrivalsStep_history.
  exists (newEvents (currentTime s) (processes s) ++ ev1).
  split; [by rewrite <- app_assoc|].
  apply Forall_app. split; [apply newEvents_stamp|done].
Qed.

Lemma executed_history (s : state) :
  ∃ ev, historyList (executed s) = historyList (dispatched s) ++ ev ∧
        Forall (λ e, e.1 = currentTime s + 1) ev.
Proof.
  unfold executed. destruct (currentCPU (dispatched s)) as [c|];
    rewrite arrivalsStep_history; cbn; rewrite dispatched_currentTime;
    eexists; (split; [done|apply newEvents_stamp]).
Qed.

Lemma settled_history (s : state) :
  ∃ ev, historyList (settled s) = historyList (executed s) ++ ev ∧
        Forall (λ e, e.1 = currentTime s + 1) ev.
Proof.
  unfold settled. destruct (currentCPU (dispatched s)) as [c|].
  - destruct (settle_history (proc c) (executed s)) as (ev & -> & Hs).
    rewrite executed_currentTime in Hs. by exists ev.
  - exists []. by rewrite app_nil_r.
Qed.

(** X10. The log is append-only and stamped in two phases.  In any
    state, a tick keeps every entry of the log and appends first entries
    stamped with the clock before the tick (arrivals found by the first
    scan, the dispatch), then entries stamped with the clock after it
    (arrivals found by the second scan, completion or quantum expiry). *)
Theorem tick_log_append (s : state) :
  ∃ before after,
    historyList (tick s) = historyList s ++ before ++ after ∧
    Forall (λ e, e.1 = currentTime s) before ∧
    Forall (λ e, e.1 = currentTime s + 1) after.
Proof.
  destruct (tick_frame s) as (_ & _ & _ & _ & -> & _).
  destruct (settled_history s) as (ev3 & -> & H3).
  destruct (executed_history s) as (ev2 & -> & H2).
  destruct (dispatched_history s) as (ev1 & -> & H1).
  exists ev1, (ev2 ++ ev3). split; [by rewrite <- !app_assoc|].
  split; [done|]. apply Forall_app. by split.
Qed.

Lemma stamps_constant_sorted (t : Z) (l : list (Z * event)) :
  Forall (λ e, e.1 = t) l → StronglySorted Z.le ((λ e, e.1) <$> l).
Proof.
  induction 1 as [|e l He Hl IH]; cbn; constructor; [done|].
  apply Forall_fmap. eapply Forall_impl; [exact Hl|]. cbn. intros x Hx. lia.
Qed.

(** X11. The log is chronological: in every reachable state (any
    table) the clock is not negative, the stamps of the log are in
    ascending order, and all lie between 0 and the clock. *)
Theorem log_chronological (defs : list procDef) (s : state) :
  reachable defs s →
  0 ≤ currentTime s ∧
  StronglySorted Z.le ((λ e, e.1) <$> historyList s) ∧
  Forall (λ e, 0 ≤ e.1 ≤ currentTime s) (historyList s).
Proof.
  revert s. apply (reachable_engine_ind defs (λ s,
    0 ≤ currentTime s ∧
    StronglySorted Z.le ((λ e, e.1) <$> historyList s) ∧
    Forall (λ e, 0 ≤ e.1 ≤ currentTime s) (historyList s))).
  - intros s. cbn. split; [done|]. split; constructor.
  - intros s _ (Ht & Hsorted & Hb).
    destruct (tick_frame s) as (_ & _ & _ & _ & Hh & _).
    destruct (settled_history s) as (ev3 & H3 & F3).
    destruct (executed_history s) as (ev2 & H2 & F2).
    destruct (dispatched_history s) as (ev1 & H1 & F1).
    rewrite tick_currentTime, Hh, H3, H2, H1. split; [lia|].
    assert (Fa : Forall (λ e, e.1 = currentTime s + 1) (ev2 ++ ev3))
      by (apply Forall_app; by split).
    rewrite <- (app_assoc _ ev2 ev3). rewrite <- (app_assoc _ ev1 (ev2 ++ ev3)).
    clear F2 F3. generalize dependent (ev2 ++ ev3). intros ev4 Fa.
    split.
    + rewrite !fmap_app. apply StronglySorted_app_2.
      * intros x y (e & -> & He)%list_elem_of_fmap [Hy|Hy]%elem_of_app.
        -- apply list_elem_of_fmap in Hy as (e' & -> & He').
           pose proof (proj1 (Forall_forall _ _) Hb e He).
           pose proof (proj1 (Forall_forall _ _) F1 e' He'). cbn in *. lia.
        -- apply list_elem_of_fmap in Hy as (e' & -> & He').
           pose proof (proj1 (Forall_forall _ _) Hb e He).
           pose proof (proj1 (Forall_forall _ _) Fa e' He'). cbn in *. lia.
      * done.
      * apply StronglySorted_app_2.
        -- intros x y (e & -> & He)%list_elem_of_fmap (e' & -> & He')%list_elem_of_fmap.
           pose proof (proj1 (Forall_forall _ _) F1 e He).
           pose proof (proj1 (Forall_forall _ _) Fa e' He'). cbn in *. lia.
        -- by apply (stamps_constant_sorted (currentTime s)).
        -- by apply (stamps_constant_sorted (currentTime s + 1)).
    + apply Forall_app. split; [|apply Forall_app; split].
      * eapply Forall_impl; [exact Hb|]. cbn. intros x Hx. lia.
      * eapply Forall_impl; [exact F1|]. cbn. intros x Hx. lia.
      * eapply Forall_impl; [exact Fa|]. cbn. intros x Hx. lia.
  - intros s s' (_ & _ & Ht & _ & _ & Hh) IH. by rewrite Ht, Hh.
Qed.

Lemma log_chronological_witness :
  0 ≤ currentTime (ticks 5 startB) ∧
  StronglySorted Z.le ((λ e, e.1) <$> historyList (ticks 5 startB)) ∧
  Forall (λ e, 0 ≤ e.1 ≤ currentTime (ticks 5 startB)) (historyList (ticks 5 startB)).
Proof.
  apply (log_chronological scenarioB).
  apply reachable_ticks. constructor.
Defined.

(** ** The finished lane *)

Lemma indexOf_spec (l : list string) (x : string) :
  ((x ∉ l) ∧ indexOf l x = -1) ∨
  (∃ n : nat, indexOf l x = Z.of_nat n ∧ l !! n = Some x ∧
              ∀ m : nat, (m < n)%nat → l !! m ≠ Some x).
Proof.
  induction l as [|y l IH]; cbn [indexOf].
  - left. split; [by intros ?%elem_of_nil|done].
  - case_bool_decide as Hy.
    + right. exists 0%nat. subst y. split; [done|]. split; [done|].
      intros m Hm. lia.
    + destruct IH as [[Hnin ->]|(n & -> & Hn & Hfirst)].
      * left. cbn. split; [|done]. intros [->|?]%elem_of_cons; done.
      * right. exists (S n).
        assert ((Z.of_nat n <? 0) = false) as -> by (apply Z.ltb_ge; lia).
        split; [lia|]. split; [done|].
        intros [|m] Hm; cbn; [congruence|]. apply Hfirst. lia.
Qed.

(** X12. The slot of the finished lane.  [moveToFinished] gives a
    process the slot of the first occurrence of its id in
    [finishedOrder], or a new slot at the end; afterwards the id is in
    [finishedOrder] at that slot, the slots given before are unchanged,
    and a second call for the same process changes nothing and computes
    the same slot. *)
Theorem finished_slot_stable (p : process) (s : state) :
  0 ≤ finishedSlot p s ∧
  finishedOrder (moveToFinished p s) !! Z.to_nat (finishedSlot p s) = Some (pid p) ∧
  (∀ n x, finishedOrder s !! n = Some x →
          finishedOrder (moveToFinished p s) !! n = Some x) ∧
  finishedSlot p (moveToFinished p s) = finishedSlot p s ∧
  moveToFinished p (moveToFinished p s) = moveToFinished p s.
Proof.
  unfold finishedSlot, moveToFinished.
  destruct (indexOf_spec (finishedOrder s) (pid p))
    as [[Hnin Hidx]|(n & Hidx & Hn & Hfirst)].
  - rewrite Hidx. cbn [Z.leb Z.compare]. rewrite bool_decide_eq_false_2 by done.
    cbn [finishedOrder with_finishedOrder].
    assert (Hin : pid p ∈ finishedOrder s ++ [pid p])
      by (apply elem_of_app; right; by apply list_elem_of_singleton).
    split; [lia|]. split; [|split; [|split]].
    + rewrite Nat2Z.id. by apply list_lookup_middle.
    + intros n x Hx. by apply lookup_app_l_Some.
    + destruct (indexOf_spec (finishedOrder s ++ [pid p]) (pid p))
        as [[Hnin' _]|(m & -> & Hm & Hfirst)]; [done|].
      assert ((0 <=? Z.of_nat m) = true) as -> by (apply Z.leb_le; lia).
      destruct (decide (m < length (finishedOrder s))%nat) as [Hlt|Hge].
      * rewrite lookup_app_l in Hm by done.
        apply list_elem_of_lookup_2 in Hm. done.
      * destruct (decide (m = length (finishedOrder s))) as [->|Hne]; [done|].
        apply lookup_lt_Some in Hm. rewrite length_app in Hm. cbn in Hm. lia.
    + by rewrite bool_decide_eq_true_2.
  - assert (Hin : pid p ∈ finishedOrder s) by (by eapply list_elem_of_lookup_2).
    assert (Hleb : (0 <=? Z.of_nat n) = true) by (apply Z.leb_le; lia).
    rewrite !(bool_decide_eq_true_2 _ Hin), !Hidx, !Hleb.
    split; [lia|]. split; [by rewrite Nat2Z.id|]. done.
Qed.

Lemma tickEffect_stat (s : state) (i : nat) (p : process) :
  stat (tickEffect s i p) = stat p.
Proof. by apply (tickEffect_pointwise (λ q, stat q = stat p)). Qed.

Lemma tickEffect_pid (s : state) (i : nat) (p : process) :
  pid (tickEffect s i p) = pid p.
Proof. pose proof (tickEffect_stat s i p) as H. unfold stat in H. congruence. Qed.

Lemma executed_finishedOrder (s : state) : finishedOrder (executed s) = finishedOrder s.
Proof.
  assert (Hd : finishedOrder (dispatched s) = finishedOrder s).
  { unfold dispatched, dispatch.
    destruct (currentCPU (arrivalsStep s)), (readyQueue (arrivalsStep s)) as [|n r];
      try (by rewrite arrivalsStep_eq).
    destruct (processes (arrivalsStep s) !! n); by rewrite arrivalsStep_eq. }
  unfold executed. destruct (currentCPU (dispatched s));
    by rewrite arrivalsStep_eq.
Qed.

Lemma settle_finishedOrder (i : nat) (s : state) :
  finishedOrder (settle i s) =
  match processes s !! i with
  | Some p =>
      if remainingTime p =? 0
      then (if bool_decide (pid p ∈ finishedOrder s) then finishedOrder s
            else finishedOrder s ++ [pid p])
      else finishedOrder s
  | None => finishedOrder s
  end.
Proof.
  unfold settle. destruct (processes s !! i) as [p|]; [|done].
  destruct (remainingTime p =? 0).
  - cbv zeta. unfold moveToFinished. cbn. by case_bool_decide.
  - destruct (currentCPU s) as [c|]; [|done]. by destruct (qLeft c =? 0).
Qed.

Lemma settleEffect_finished (j : nat) (s : state) (i : nat) (q : process) :
  finished (settleEffect j s i q) =
  if decide (i = j) then
    match processes s !! j with
    | Some p => if remainingTime p =? 0 then true else finished q
    | None => finished q
    end
  else finished q.
Proof.
  unfold settleEffect. case_decide; [|done].
  destruct (processes s !! j) as [p|]; [|done]. by destruct (remainingTime p =? 0).
Qed.

(** X13. [finishedOrder] lists exactly the finished processes: in
    every reachable state (any table) it holds no id twice, and an id is
    in it if and only if a finished process has that id. *)
Theorem finishedOrder_exact (defs : list procDef) (s : state) :
  reachable defs s →
  NoDup (finishedOrder s) ∧
  ∀ x, x ∈ finishedOrder s ↔
       ∃ i p, processes s !! i = Some p ∧ finished p = true ∧ pid p = x.
Proof.
  revert s. apply (reachable_engine_ind defs (λ s,
    NoDup (finishedOrder s) ∧
    ∀ x, x ∈ finishedOrder s ↔
         ∃ i p, processes s !! i = Some p ∧ finished p = true ∧ pid p = x)).
  - intros s. cbn. split; [constructor|]. intros x. split.
    + by intros ?%elem_of_nil.
    + intros (i & p & Hp & Hf & _). rewrite list_lookup_fmap in Hp.
      destruct (defs !! i); by simplify_eq/=.
  - intros s Hr [Hnd Hiff]. pose proof (Excl_reachable defs s Hr) as HE.
    destruct (tick_frame s) as (_ & _ & _ & _ & _ & Hfo). rewrite Hfo.
    assert (Hlk : ∀ i p', processes (tick s) !! i = Some p' ↔
              ∃ q, processes s !! i = Some q ∧ p' = tickEffect s i q).
    { intros i p'. rewrite tick_lookup by done.
      destruct (processes s !! i) as [q|]; cbn.
      - split; [intros [= <-]; by exists q|intros (q' & [= <-] & ->); done].
      - split; [done|]. by intros (q' & ? & _). }
    unfold settled. destruct (currentCPU (dispatched s)) as [c|] eqn:Hc.
    + pose proof (executed_currentCPU s c Hc) as Hc'.
      destruct (excl_cpu _ (Excl_executed s HE) _ Hc') as (_ & p & Hp & _).
      cbn [proc] in Hp.
      assert (Hfin : ∀ i q, finished (tickEffect s i q) =
                if decide (i = proc c)
                then (if remainingTime p =? 0 then true else finished q)
                else finished q).
      { intros i q. unfold tickEffect. rewrite Hc, settleEffect_finished, Hp.
        rewrite arr_finished, unitEffect_finished, arr_finished. done. }
      rewrite settle_finishedOrder, Hp, executed_finishedOrder.
      destruct (remainingTime p =? 0) eqn:Hz.
      * rewrite (executed_lookup_busy s c) in Hp by done.
        destruct (processes s !! proc c) as [q0|] eqn:Hq0; [|done].
        cbn in Hp. injection Hp as Hp.
        assert (Hpid : pid p = pid q0).
        { rewrite <- Hp. pose proof (arr_stat (currentTime s + 1)
            (unitEffect c (dispatched s) (proc c) (arr (currentTime s) q0))) as H1.
          assert (stat (unitEffect c (dispatched s) (proc c) (arr (currentTime s) q0))
                  = stat (arr (currentTime s) q0)) as H2
            by (unfold unitEffect; by repeat case_decide).
          pose proof (arr_stat (currentTime s) q0) as H3.
          unfold stat in *. congruence. }
        assert (Hmem : ∀ x,
          x ∈ (if bool_decide (pid p ∈ finishedOrder s) then finishedOrder s
               else finishedOrder s ++ [pid p]) ↔
          x ∈ finishedOrder s ∨ x = pid p).
        { intros x. case_bool_decide as Hin.
          - split; [by left|]. by intros [?| ->].
          - rewrite elem_of_app, list_elem_of_singleton. done. }
        split.
        -- case_bool_decide as Hin; [done|].
           apply NoDup_app. split; [done|]. split; [|apply NoDup_singleton].
           intros x Hx ->%list_elem_of_singleton. done.
        -- intros x. rewrite Hmem, Hiff. split.
           ++ intros [(i & q & Hq & Hf & Hx)| ->].
              ** exists i, (tickEffect s i q). rewrite Hlk, Hfin, tickEffect_pid.
                 split; [by exists q|]. split; [|done].
                 by destruct (decide (i = proc c)).
              ** exists (proc c), (tickEffect s (proc c) q0).
                 rewrite Hlk, Hfin, tickEffect_pid, decide_True by done.
                 split; [by exists q0|]. done.
           ++ intros (i & p' & (q & Hq & ->)%Hlk & Hf & Hx).
              rewrite Hfin in Hf. rewrite tickEffect_pid in Hx.
              destruct (decide (i = proc c)) as [->|Hne].
              ** right. congruence.
              ** left. by exists i, q.
      * assert (Hfin' : ∀ i q, finished (tickEffect s i q) = finished q)
          by (intros i q; rewrite Hfin; by destruct (decide (i = proc c))).
        clear Hfin. rename Hfin' into Hfin.
        split; [done|]. intros x. rewrite Hiff. split.
        -- intros (i & q & Hq & Hf & Hx).
           exists i, (tickEffect s i q). rewrite Hlk, Hfin, tickEffect_pid.
           split; [by exists q|]. done.
        -- intros (i & p' & (q & Hq & ->)%Hlk & Hf & Hx).
           rewrite Hfin in Hf. rewrite tickEffect_pid in Hx. by exists i, q.
    + rewrite executed_finishedOrder. split; [done|].
      assert (Hfin : ∀ i q, finished (tickEffect s i q) = finished q).
      { intros i q. unfold tickEffect. rewrite Hc. by rewrite !arr_finished. }
      intros x. rewrite Hiff. split.
      * intros (i & q & Hq & Hf & Hx).
        exists i, (tickEffect s i q). rewrite Hlk, Hfin, tickEffect_pid.
        split; [by exists q|]. done.
      * intros (i & p' & (q & Hq & ->)%Hlk & Hf & Hx).
        rewrite Hfin in Hf. rewrite tickEffect_pid in Hx. by exists i, q.
  - intros s s' (Hp & _ & _ & _ & Hfo & _) IH. by rewrite Hfo, Hp.
Qed.

Lemma finishedOrder_exact_witness :
  NoDup (finishedOrder (ticks 5 startB)) ∧
  ∀ x, x ∈ finishedOrder (ticks 5 startB) ↔
       ∃ i p, processes (ticks 5 startB) !! i = Some p ∧
              finished p = true ∧ pid p = x.
Proof.
  apply (finishedOrder_exact scenarioB).
  apply reachable_ticks. constructor.
Defined.

(** ** The controls *)

Lemma settle_controls (i : nat) (s : state) :
  running (settle i s) = running s ∧ tickHandle (settle i s) = tickHandle s ∧
  quantumInput (settle i s) = quantumInput s ∧
  quantumDisplayEl (settle i s) = quantumDisplayEl s.
Proof.
  unfold settle. destruct (processes s !! i) as [p|]; [|done].
  destruct (remainingTime p =? 0).
  - cbv zeta. unfold moveToFinished. by case_bool_decide.
  - destruct (currentCPU s) as [c|]; [|done]. by destruct (qLeft c =? 0).
Qed.

Lemma dispatched_controls (s : state) :
  running (dispatched s) = running s ∧ tickHandle (dispatched s) = tickHandle s ∧
  quantumInput (dispatched s) = quantumInput s ∧
  quantumDisplayEl (dispatched s) = quantumDisplayEl s.
Proof.
  unfold dispatched, dispatch.
  destruct (currentCPU (arrivalsStep s)), (readyQueue (arrivalsStep s)) as [|n r];
    try (by rewrite arrivalsStep_eq).
  destruct (processes (arrivalsStep s) !! n); by rewrite arrivalsStep_eq.
Qed.

Lemma settled_controls (s : state) :
  running (settled s) = running s ∧ tickHandle (settled s) = tickHandle s ∧
  quantumInput (settled s) = quantumInput s ∧
  quantumDisplayEl (settled s) = quantumDisplayEl s.
Proof.
  destruct (dispatched_controls s) as (Hr & Hh & Hq & Hd).
  assert (He : running (executed s) = running s ∧
               tickHandle (executed s) = tickHandle s ∧
               quantumInput (executed s) = quantumInput s ∧
               quantumDisplayEl (executed s) = quantumDisplayEl s).
  { unfold executed. destruct (currentCPU (dispatched s));
      rewrite arrivalsStep_eq; cbn; by rewrite Hr, Hh, Hq, Hd. }
  unfold settled. destruct (currentCPU (dispatched s)) as [c|]; [|done].
  destruct (settle_controls (proc c) (executed s)) as (-> & -> & -> & ->). done.
Qed.

Lemma tick_quantumInput (s : state) : quantumInput (tick s) = quantumInput s.
Proof.
  rewrite tick_settled. destruct (settled_controls s) as (_ & _ & Hq & _).
  by destruct (allFinished (settled s)).
Qed.

(** X14. A reset forgets the run: the state after a reset is the same
    whether it is taken at once, after any number of ticks, or after
    another reset; only the quantum field survives it. *)
Theorem reset_forgets_run (defs : list procDef) (n : nat) (s : state) :
  resetSim defs (ticks n s) = resetSim defs s ∧
  resetSim defs (ticks n (startSim s)) = resetSim defs s ∧
  resetSim defs (resetSim defs s) = resetSim defs s ∧
  resetSim defs s = deepReset defs (loaded (quantumInput s)).
Proof.
  assert (Hq : ∀ s', quantumInput (ticks n s') = quantumInput s').
  { intros s'. induction n as [|k IH]; [done|].
    by rewrite ticks_S, tick_quantumInput. }
  assert (Hreset : ∀ s1 s2, quantumInput s1 = quantumInput s2 →
                            resetSim defs s1 = resetSim defs s2).
  { intros s1 s2 H. unfold resetSim, deepReset, getQuantum. cbn. by rewrite H. }
  split; [by apply Hreset|]. split; [|split; by apply Hreset].
  apply Hreset. rewrite Hq. unfold startSim. by destruct (running s).
Qed.

(** X15. The timer.  In every reachable state the flag [running] and
    the interval handle agree.  A tick never starts the timer: after it
    the simulation is running exactly when it was running before and not
    all processes are finished, so the tick that finishes the last
    process stops the simulation.  A second press of the start button
    changes nothing. *)
Theorem timer_lifecycle (defs : list procDef) (s : state) :
  reachable defs s →
  running s = tickHandle s ∧
  running (tick s) = running s && negb (allFinished (tick s)) ∧
  tickHandle (tick s) = running (tick s) ∧
  startSim (startSim s) = startSim s.
Proof.
  intros Hr.
  assert (Hsync : running s = tickHandle s).
  { induction Hr as [s|s _ IH|q s _ IH|s _ IH|s _ IH]; try done.
    - rewrite tick_settled. destruct (settled_controls s) as (H1 & H2 & _).
      destruct (allFinished (settled s)); [done|]. by rewrite H1, H2.
    - unfold startSim. destruct (running s) eqn:E; cbn; congruence. }
  split; [done|].
  destruct (settled_controls s) as (H1 & H2 & _).
  rewrite tick_settled. destruct (allFinished (settled s)) eqn:Hall.
  - change (allFinished (stopSim (settled s))) with (allFinished (settled s)).
    change (running (stopSim (settled s))) with false.
    change (tickHandle (stopSim (settled s))) with false.
    rewrite Hall. split; [by rewrite andb_false_r|]. split; [done|].
    unfold startSim. destruct (running s) eqn:Hrun; [by rewrite Hrun|done].
  - rewrite Hall, H1, H2, andb_true_r. split; [done|]. split; [done|].
    unfold startSim. destruct (running s) eqn:Hrun; [by rewrite Hrun|done].
Qed.

Lemma timer_lifecycle_witness :
  running (startSim (ticks 4 startB)) = tickHandle (startSim (ticks 4 startB)) ∧
  running (tick (startSim (ticks 4 startB))) =
    running (startSim (ticks 4 startB))
    && negb (allFinished (tick (startSim (ticks 4 startB)))) ∧
  tickHandle (tick (startSim (ticks 4 startB))) =
    running (tick (startSim (ticks 4 startB))) ∧
  startSim (startSim (startSim (ticks 4 startB))) = startSim (startSim (ticks 4 startB)).
Proof.
  apply (timer_lifecycle scenarioB (startSim (ticks 4 startB))).
  apply reach_start. apply reachable_ticks. apply reach_reset.
Defined.

(** ** The arrival scan *)

Lemma newly_sorted (t : Z) (ps : list process) (i : nat) :
  StronglySorted lt (newly t i ps).
Proof.
  revert i. induction ps as [|p ps IH]; intros i; cbn [newly]; [constructor|].
  destruct (arrives t p); [|apply IH]. cbn. constructor; [apply IH|].
  apply Forall_forall. intros j (Hj & _)%elem_of_newly. lia.
Qed.

Lemma scan_nothing (t : Z) (i : nat) (ps : list process) :
  (∀ j p, ps !! j = Some p → arrives t p = false) →
  arr t <$> ps = ps ∧ newly t i ps = [] ∧ newEvents t ps = [].
Proof.
  revert i. induction ps as [|q ps IH]; intros i H; [done|].
  pose proof (H 0%nat q eq_refl) as Hq.
  destruct (IH (S i)) as (H1 & H2 & H3); [intros j p Hp; by apply (H (S j))|].
  cbn. rewrite H2, H3, Hq. split; [|done].
  change (arr t q :: (arr t <$> ps) = q :: ps). by rewrite H1, arr_id.
Qed.

Lemma arrivalsStep_nothing (s : state) :
  (∀ j p, processes s !! j = Some p → arrives (currentTime s) p = false) →
  arrivalsStep s = s.
Proof.
  intros H. rewrite arrivalsStep_eq.
  destruct (scan_nothing (currentTime s) 0 (processes s) H) as (-> & -> & ->).
  rewrite !app_nil_r. by destruct s.
Qed.

Lemma arrives_arr (t : Z) (p : process) : arrives t (arr t p) = false.
Proof.
  unfold arr. destruct (arrives t p) eqn:Ha; [|done].
  unfold arrives. done.
Qed.

(** X16. Arrivals join in table order.  In any state, a scan appends
    to the ready queue exactly the processes not yet arrived whose
    arrival time is at most the clock, each once, in the order of the
    process table (ascending positions), whatever their arrival times;
    it marks exactly these as arrived and leaves the queue in front
    untouched. *)
Theorem arrivals_in_table_order (s : state) :
  ∃ new : list nat,
    readyQueue (arrivalsStep s) = readyQueue s ++ new ∧
    StronglySorted lt new ∧
    (∀ i, i ∈ new ↔
          ∃ p, processes s !! i = Some p ∧ arrived p = false ∧
               arrivalTime p ≤ currentTime s) ∧
    (∀ i p, processes s !! i = Some p →
            ∃ p', processes (arrivalsStep s) !! i = Some p' ∧
                  arrived p' = arrived p || bool_decide (i ∈ new) ∧
                  set_arrived (arrived p) p' = p).
Proof.
  exists (newly (currentTime s) 0 (processes s)).
  assert (Hmem : ∀ i, i ∈ newly (currentTime s) 0 (processes s) ↔
            ∃ p, processes s !! i = Some p ∧ arrived p = false ∧
                 arrivalTime p ≤ currentTime s).
  { intros i. rewrite elem_of_newly, Nat.sub_0_r. setoid_rewrite arrives_iff.
    split.
    - intros (_ & q & ? & ? & ?). by exists q.
    - intros (q & ? & ? & ?). split; [lia|]. by exists q. }
  split; [by rewrite arrivalsStep_eq|]. split; [apply newly_sorted|].
  split; [done|].
  intros i p Hp. rewrite arrivalsStep_lookup, Hp. eexists. split; [done|].
  rewrite arr_arrived. unfold arr.
  destruct (arrives (currentTime s) p) eqn:Ha.
  - rewrite bool_decide_eq_true_2.
    + split; [done|]. apply arrives_not_arrived in Ha. rewrite Ha.
      destruct p; cbn in *. by subst.
    + apply Hmem. exists p. by apply arrives_iff in Ha as [? ?].
  - rewrite bool_decide_eq_false_2.
    + split; [done|]. by destruct p.
    + intros (q & Hq & Hq1 & Hq2)%Hmem.
      assert (q = p) as -> by congruence.
      assert (arrives (currentTime s) p = true) by (by apply arrives_iff).
      congruence.
Qed.

(** X17. A second scan at the same clock finds nothing: scanning twice
    is scanning once, and the scan at the start of a tick that follows
    another tick changes nothing (the scan at the end of the tick before
    has left nothing to find).  Only the first tick after a reset can
    find arrivals in its first scan. *)
Theorem rescan_finds_nothing (s : state) :
  arrivalsStep (arrivalsStep s) = arrivalsStep s ∧
  arrivalsStep (tick s) = tick s.
Proof.
  split.
  - apply arrivalsStep_nothing. intros j p' Hp'.
    rewrite arrivalsStep_currentTime. rewrite arrivalsStep_lookup in Hp'.
    destruct (processes s !! j) as [p|]; simplify_eq/=. apply arrives_arr.
  - apply arrivalsStep_nothing. intros j p' Hp'.
    rewrite tick_currentTime.
    destruct (tick_frame s) as (Hps & _). rewrite Hps in Hp'.
    assert (He : ∀ k q, processes (executed s) !! k = Some q →
                        arrives (currentTime s + 1) q = false).
    { assert (∃ X, processes (executed s) = arr (currentTime s + 1) <$> X)
        as [X HX].
      { unfold executed. destruct (currentCPU (dispatched s)) as [c|];
          rewrite arrivalsStep_eq; cbn [processes currentTime execUnit
            with_currentTime with_currentCPU with_processes];
          rewrite dispatched_currentTime; by eexists. }
      intros k q Hq. rewrite HX, list_lookup_fmap in Hq.
      destruct (X !! k) as [x|]; [|done]. cbn in Hq. injection Hq as <-.
      apply arrives_arr. }
    unfold settled in Hp'. destruct (currentCPU (dispatched s)) as [c|]; [|eauto].
    rewrite settle_lookup in Hp'.
    destruct (processes (executed s) !! j) as [q|] eqn:Hq; simplify_eq/=.
    specialize (He j q Hq).
    destruct (settleEffect_cases (proc c) (executed s) j q) as [->|[_ ->]]; [done|].
    unfold arrives in *. done.
Qed.

(** ** The process table *)

(** X18. The process table is fixed: in every reachable state the
    table has one record per definition, in the order of the definitions,
    with the id, burst time, arrival time and colour of its definition; no
    step adds, removes, reorders or renames a process. *)
Theorem process_table_static (defs : list procDef) (s : state) :
  reachable defs s →
  length (processes s) = length defs ∧
  stat <$> processes s =
  (λ d, (d_id d, d_burstTime d, d_arrivalTime d, d_color d)) <$> defs.
Proof.
  intros Hr.
  assert (Heq : stat <$> processes s =
    (λ d, (d_id d, d_burstTime d, d_arrivalTime d, d_color d)) <$> defs).
  { apply list_eq. intros i. rewrite !list_lookup_fmap. by apply reachable_stat. }
  split; [|done].
  apply (f_equal length) in Heq. by rewrite !length_fmap in Heq.
Qed.

Lemma process_table_static_witness :
  length (processes (ticks 5 startB)) = length scenarioB ∧
  stat <$> processes (ticks 5 startB) =
  (λ d, (d_id d, d_burstTime d, d_arrivalTime d, d_color d)) <$> scenarioB.
Proof.
  apply (process_table_static scenarioB).
  apply reachable_ticks. apply reach_reset.
Defined.

(** ** Response time *)

Lemma reachable_burst_sum (defs : list procDef) (s : state) :
  reachable defs s → sumZ (burstTime <$> processes s) = sumBurst defs.
Proof.
  intros Hr. unfold sumBurst. f_equal. apply list_eq. intros i.
  rewrite !list_lookup_fmap. pose proof (reachable_stat defs s i Hr) as Hs.
  destruct (processes s !! i) as [p|], (defs !! i) as [d|]; try done.
  cbn in Hs. unfold stat in Hs. cbn. congruence.
Qed.

Lemma tickEffect_accounted (s : state) (i : nat) (p : process) :
  accounted (tickEffect s i p) ≤
  accounted p + (if isIdleTick s then 0 else 1).
Proof.
  unfold accounted, tickEffect, isIdleTick.
  destruct (currentCPU (dispatched s)) as [c|].
  - rewrite settleEffect_waitingTime, settleEffect_burstTime,
      settleEffect_remainingTime.
    rewrite arr_waitingTime, arr_burstTime, arr_remainingTime.
    rewrite unitEffect_waitingTime, unitEffect_burstTime, unitEffect_remainingTime.
    rewrite arr_waitingTime, arr_burstTime, arr_remainingTime.
    destruct (decide (i = proc c)); [lia|].
    destruct (decide (i ∈ readyQueue (dispatched s))); lia.
  - rewrite !arr_waitingTime, !arr_burstTime, !arr_remainingTime. lia.
Qed.

(** The units accounted to one process are among the units executed by
    all. *)
Lemma reachable_accounted (defs : list procDef) (s : state) (i : nat) (p : process) :
  validDefs defs → reachable defs s → processes s !! i = Some p →
  accounted p ≤ sumBurst defs - totalRemaining s ∧
  remainingTime p ≤ totalRemaining s.
Proof.
  intros Hv Hr Hp.
  assert (Hrem : ∀ s, reachable defs s → ∀ i p, processes s !! i = Some p →
            remainingTime p ≤ totalRemaining s).
  { clear s i p Hr Hp. intros s Hr i p Hp.
    pose proof (Inv_reachable defs s Hv Hr) as HI.
    unfold totalRemaining. apply (sumZ_lookup_le _ i).
    - intros j y Hy. rewrite list_lookup_fmap in Hy.
      destruct (processes s !! j) as [q|] eqn:Hq; simplify_eq/=.
      by destruct (Inv_remaining s j q HI Hq).
    - by rewrite list_lookup_fmap, Hp. }
  split; [|by apply (Hrem s Hr i)].
  assert (Hacc : ∀ s, reachable defs s → ∀ i p, processes s !! i = Some p →
            accounted p ≤ sumBurst defs - totalRemaining s).
  { clear s i p Hr Hp Hrem.
    intros s Hr. induction Hr as [s|s Hr IH|q s _ IH|s _ IH|s _ IH]; try done.
    - intros i p Hp. rewrite totalRemaining_deepReset.
      cbn in Hp. rewrite list_lookup_fmap in Hp.
      destruct (defs !! i); simplify_eq/=. unfold accounted. cbn. lia.
    - intros i p' Hp'.
      rewrite tick_lookup in Hp' by (by eapply Excl_reachable).
      destruct (processes s !! i) as [p|] eqn:Hp; simplify_eq/=.
      rewrite tick_remaining by (by eapply Inv_reachable).
      pose proof (tickEffect_accounted s i p). specialize (IH i p Hp).
      destruct (isIdleTick s); lia.
    - unfold startSim. by destruct (running s). }
  by apply (Hacc s Hr i).
Qed.

(** X19. Response-time bound.  Over a valid table, in every reachable
    state, the waiting time of a process plus its own burst is at most
    the sum of all bursts (a process waits only while another one
    executes), so a finished process has completed no later than its
    arrival time plus the sum of all bursts. *)
Theorem response_time_bound
    (defs : list procDef) (s : state) (i : nat) (p : process) :
  validDefs defs → reachable defs s → processes s !! i = Some p →
  waitingTime p + burstTime p ≤ sumBurst defs ∧
  (finished p = true →
   ∃ ct, completionTime p = Some ct ∧ ct ≤ arrivalTime p + sumBurst defs).
Proof.
  intros Hv Hr Hp.
  destruct (reachable_accounted defs s i p Hv Hr Hp) as [Hacc Hrem].
  unfold accounted in Hacc.
  assert (Hw : waitingTime p + burstTime p ≤ sumBurst defs) by lia.
  split; [done|]. intros Hf.
  destruct (Inv_reachable defs s Hv Hr) as (_ & HA & _).
  destruct (acct_done _ _ HA i p Hp Hf) as (_ & ct & Hct & Heq & _).
  exists ct. split; [done|]. lia.
Qed.

Lemma response_time_bound_witness :
  waitingTime (objP1 0 2 (Some 5) true true)
    + burstTime (objP1 0 2 (Some 5) true true) ≤ sumBurst scenarioB ∧
  (finished (objP1 0 2 (Some 5) true true) = true →
   ∃ ct, completionTime (objP1 0 2 (Some 5) true true) = Some ct ∧
         ct ≤ arrivalTime (objP1 0 2 (Some 5) true true) + sumBurst scenarioB).
Proof.
  apply (response_time_bound scenarioB (ticks 5 startB) 0%nat).
  - valid_defs.
  - apply reachable_ticks. apply reach_reset.
  - reflexivity.
Defined.

Lemma ticks_currentTime (n : nat) (s : state) :
  currentTime (ticks n s) = currentTime s + Z.of_nat n.
Proof.
  induction n as [|n IH]; [cbn; lia|]. rewrite ticks_S, tick_currentTime, IH. lia.
Qed.

(** X20. A process alone is never delayed.  With a table of a single
    valid definition, whatever the quantum, the process is finished after
    exactly [arrivalTime + burstTime] ticks from the reset, with that
    completion time and waiting time 0, and the simulation is not
    complete at any earlier tick: returning to the queue on quantum
    expiry costs it no time. *)
Theorem lone_process_runs_through (d : procDef) (s0 : state) :
  0 < d_burstTime d → 0 ≤ d_arrivalTime d →
  ∃ p,
    processes (ticks (Z.to_nat (d_arrivalTime d + d_burstTime d)) (deepReset [d] s0))
      = [p] ∧
    finished p = true ∧
    completionTime p = Some (d_arrivalTime d + d_burstTime d) ∧
    waitingTime p = 0 ∧
    ∀ k : nat, (k < Z.to_nat (d_arrivalTime d + d_burstTime d))%nat →
      allFinished (ticks k (deepReset [d] s0)) = false.
Proof.
  intros Hb Ha.
  assert (Hv : validDefs [d]) by (by repeat constructor).
  assert (Hsum : sumBurst [d] = d_burstTime d) by (unfold sumBurst; cbn; lia).
  assert (Hfacts : ∀ k : nat, ∃ p,
    processes (ticks k (deepReset [d] s0)) = [p] ∧
    arrivalTime p = d_arrivalTime d ∧ burstTime p = d_burstTime d ∧
    waitingTime p = 0 ∧
    Inv (ticks k (deepReset [d] s0)) ∧
    currentTime (ticks k (deepReset [d] s0)) = Z.of_nat k).
  { intros k. set (s := ticks k (deepReset [d] s0)).
    assert (Hr : reachable [d] s) by (apply reachable_ticks, reach_reset).
    pose proof (reachable_stat [d] s 0%nat Hr) as Hst.
    assert (Hlen : length (processes s) = 1%nat).
    { pose proof (f_equal length (list_eq (stat <$> processes s)
        ((λ d, (d_id d, d_burstTime d, d_arrivalTime d, d_color d)) <$> [d])
        (λ i, eq_trans (list_lookup_fmap _ _ _)
           (eq_trans (reachable_stat [d] s i Hr)
              (eq_sym (list_lookup_fmap _ _ _)))))) as Hl.
      by rewrite !length_fmap in Hl. }
    destruct (processes s) as [|p [|? ?]] eqn:Hps; try done.
    exists p. split; [done|].
    cbn in Hst. unfold stat in Hst.
    assert (Hp : processes s !! 0%nat = Some p) by (by rewrite Hps).
    destruct (reachable_accounted [d] s 0%nat p Hv Hr Hp) as [Hw1 Hw2].
    split; [congruence|]. split; [congruence|]. split.
    { assert (burstTime p = d_burstTime d) by congruence.
      destruct (reachable_bounds [d] s 0%nat p Hv Hr Hp) as (_ & _ & ? & _).
      unfold accounted in Hw1. rewrite Hsum in Hw1. lia. }
    split; [by apply (Inv_reachable [d])|].
    subst s. by rewrite ticks_currentTime. }
  set (n := Z.to_nat (d_arrivalTime d + d_burstTime d)).
  destruct (Hfacts n) as (p & Hps & Hat & Hbt & Hw & HI & Ht).
  assert (Hp : processes (ticks n (deepReset [d] s0)) !! 0%nat = Some p)
    by (by rewrite Hps).
  assert (Hfin : finished p = true).
  { destruct (finished p) eqn:Hf; [done|]. exfalso.
    destruct (Inv_remaining _ 0%nat p HI Hp) as [_ Hpos]. specialize (Hpos Hf).
    destruct HI as (_ & HA & _). destruct (arrived p) eqn:Harr.
    - destruct (acct_live _ _ HA 0%nat p Hp Harr Hf) as (_ & _ & _ & Heq).
      rewrite Ht in Heq. subst n. lia.
    - destruct (acct_new _ _ HA 0%nat p Hp Harr) as (_ & _ & Hlo).
      rewrite Ht in Hlo. subst n. lia. }
  exists p. split; [done|]. split; [done|].
  destruct HI as (_ & HA & _).
  destruct (acct_done _ _ HA 0%nat p Hp Hfin) as (_ & ct & Hct & Heq & _).
  split; [rewrite Hct; f_equal; lia|]. split; [done|].
  intros k Hk. destruct (allFinished (ticks k (deepReset [d] s0))) eqn:Hall; [|done].
  exfalso. destruct (Hfacts k) as (q & Hqs & Hqa & Hqb & Hqw & (_ & HAk & _) & Hkt).
  assert (Hq : processes (ticks k (deepReset [d] s0)) !! 0%nat = Some q)
    by (by rewrite Hqs).
  pose proof (proj1 (allFinished_lookup _) Hall 0%nat q Hq) as Hqf.
  destruct (acct_done _ _ HAk 0%nat q Hq Hqf) as (_ & ct' & _ & Heq' & Hle').
  rewrite Hkt in Hle'. subst n. lia.
Qed.

Lemma lone_process_runs_through_witness :
  ∃ p,
    processes (ticks (Z.to_nat (d_arrivalTime (ProcDef "P1" 8 5 "#e91e63")
                                + d_burstTime (ProcDef "P1" 8 5 "#e91e63")))
                 (deepReset [ProcDef "P1" 8 5 "#e91e63"] (loaded (Some 3))))
      = [p] ∧
    finished p = true ∧
    completionTime p = Some (d_arrivalTime (ProcDef "P1" 8 5 "#e91e63")
                             + d_burstTime (ProcDef "P1" 8 5 "#e91e63")) ∧
    waitingTime p = 0 ∧
    ∀ k : nat, (k < Z.to_nat (d_arrivalTime (ProcDef "P1" 8 5 "#e91e63")
                              + d_burstTime (ProcDef "P1" 8 5 "#e91e63")))%nat →
      allFinished (ticks k (deepReset [ProcDef "P1" 8 5 "#e91e63"] (loaded (Some 3))))
        = false.
Proof.
  apply (lone_process_runs_through (ProcDef "P1" 8 5 "#e91e63") (loaded (Some 3)));
    cbn; lia.
Defined.

(** ** Every ready process gets its turn *)

Lemma ticks_add (a b : nat) (s : state) : ticks (a + b) s = ticks a (ticks b s).
Proof. induction a as [|a IH]; [done|]. cbn [Nat.add]. by rewrite !ticks_S, IH. Qed.

Lemma ticks_getQuantum (n : nat) (s : state) : getQuantum (ticks n s) = getQuantum s.
Proof.
  unfold getQuantum. induction n as [|n IH]; [done|].
  by rewrite ticks_S, tick_quantumInput.
Qed.

(** With the CPU occupied during the ticks, the queue only grows at its
    tail. *)
Lemma queue_grows_while_occupied (j : nat) (s : state) :
  (∀ k, (k < j)%nat → is_Some (currentCPU (ticks k s))) →
  ∃ added, readyQueue (ticks j s) = readyQueue s ++ added.
Proof.
  induction j as [|j IH]; intros Hocc.
  - exists []. cbn. by rewrite app_nil_r.
  - destruct IH as [a1 Ha1]; [intros k Hk; apply Hocc; lia|].
    destruct (tick_queue_shape (ticks j s)) as (d & a2 & _ & Hq & Hd & _).
    rewrite (Hd (Hocc j ltac:(lia))) in Hq. cbn in Hq.
    exists (a1 ++ a2). by rewrite ticks_S, Hq, Ha1, app_assoc.
Qed.

(** The CPU is free within the quantum left, with the queue grown at its
    tail only. *)
Lemma cpu_free_within (defs : list procDef) (s : state) :
  reachable defs s →
  ∃ j : nat, Z.of_nat j ≤ cpuQuantumLeft s ∧
             currentCPU (ticks j s) = None ∧
             ∃ added, readyQueue (ticks j s) = readyQueue s ++ added.
Proof.
  intros Hr. unfold cpuQuantumLeft. destruct (currentCPU s) as [c|] eqn:Hc.
  - destruct (cpu_release defs s c Hr Hc) as (_ & j & _ & Hle & Hnone & Hstay).
    exists j. split; [done|]. split; [done|].
    apply queue_grows_while_occupied. intros k Hk. rewrite (Hstay k Hk). by eexists.
  - exists 0%nat. split; [done|]. split; [done|]. exists []. cbn. by rewrite app_nil_r.
Qed.

(** A tick from an idle CPU dispatches the head of the queue. *)
Lemma tick_dispatches_head (defs : list procDef) (s : state) (h : nat) (r : list nat) :
  reachable defs s → currentCPU s = None → readyQueue s = h :: r →
  currentCPU (dispatched s) = Some (CpuSlot h (getQuantum s)) ∧
  (∃ added, readyQueue (tick s) = r ++ added) ∧
  cpuQuantumLeft (tick s) ≤ getQuantum s - 1.
Proof.
  intros Hr Hc Hq. pose proof (Excl_reachable defs s Hr) as HE.
  assert (Hd : currentCPU (dispatched s) = Some (CpuSlot h (getQuantum s))).
  { unfold dispatched. pose proof (dispatch_spec (arrivalsStep s)) as Hd.
    rewrite arrivalsStep_currentCPU, Hc in Hd.
    assert (Hrq : readyQueue (arrivalsStep s) =
                  h :: r ++ newly (currentTime s) 0 (processes s))
      by (by rewrite arrivalsStep_eq; cbn; rewrite Hq).
    rewrite Hrq in Hd. destruct Hd as [-> _]. do 2 f_equal.
    by rewrite arrivalsStep_eq. }
  split; [done|]. split.
  - destruct (tick_queue_shape s) as (d & a & Hle & Hshape & _ & Hone).
    destruct (settled_queue s) as [e He].
    destruct (tick_frame s) as (_ & Hf & _).
    unfold dispatched in He.
    pose proof (dispatch_spec (arrivalsStep s)) as Hds.
    rewrite arrivalsStep_currentCPU, Hc in Hds.
    assert (Hrq : readyQueue (arrivalsStep s) =
                  h :: r ++ newly (currentTime s) 0 (processes s))
      by (by rewrite arrivalsStep_eq; cbn; rewrite Hq).
    rewrite Hrq in Hds. destruct Hds as [_ Hrest].
    rewrite Hf, He, Hrest, <- app_assoc. by eexists.
  - pose proof (getQuantum_pos s). unfold cpuQuantumLeft.
    destruct (tick_cpu_step s _ HE Hd) as [->|[-> Hne]]; cbn; lia.
Qed.

Lemma ready_turn (defs : list procDef) (k : nat) (s : state) (i : nat) :
  reachable defs s → readyQueue s !! k = Some i →
  ∃ j : nat,
    Z.of_nat j ≤ cpuQuantumLeft s + Z.of_nat k * getQuantum s ∧
    currentCPU (ticks j s) = None ∧
    readyQueue (ticks j s) !! 0%nat = Some i ∧
    currentCPU (dispatched (ticks j s)) = Some (CpuSlot i (getQuantum s)).
Proof.
  revert s. induction k as [|k IH]; intros s Hr Hk.
  - destruct (cpu_free_within defs s Hr) as (j & Hle & Hnone & a & Hq).
    assert (Hhead : readyQueue (ticks j s) !! 0%nat = Some i)
      by (rewrite Hq; by apply lookup_app_l_Some).
    exists j. split; [lia|]. split; [done|]. split; [done|].
    destruct (readyQueue (ticks j s)) as [|h r] eqn:Hrq; [done|].
    cbn in Hhead. injection Hhead as ->.
    destruct (tick_dispatches_head defs (ticks j s) i r) as (Hd & _);
      [by apply reachable_ticks|done|done|].
    by rewrite Hd, ticks_getQuantum.
  - destruct (cpu_free_within defs s Hr) as (j0 & Hle0 & Hnone & a & Hq).
    assert (Hpos : readyQueue (ticks j0 s) !! S k = Some i)
      by (rewrite Hq; by apply lookup_app_l_Some).
    destruct (readyQueue (ticks j0 s)) as [|h r] eqn:Hrq; [done|].
    cbn in Hpos.
    assert (Hr0 : reachable defs (ticks j0 s)) by (by apply reachable_ticks).
    destruct (tick_dispatches_head defs (ticks j0 s) h r Hr0 Hnone Hrq)
      as (_ & (a' & Hq') & Hw).
    rewrite ticks_getQuantum in Hw.
    destruct (IH (tick (ticks j0 s))) as (j' & Hle' & Hn' & Hh' & Hd').
    { by constructor. }
    { rewrite Hq'. by apply lookup_app_l_Some. }
    assert (Hg : getQuantum (tick (ticks j0 s)) = getQuantum s)
      by (rewrite <- ticks_S; apply ticks_getQuantum).
    rewrite Hg in Hle', Hd'.
    exists (j' + S j0)%nat.
    rewrite ticks_add, ticks_S. split; [|done].
    pose proof (getQuantum_pos s). nia.
Qed.

(** X21. Every ready process gets its turn.  In a reachable state (any
    table), the process at position [k] of the ready queue is at the head
    of the queue with the CPU free, and is dispatched with the full
    quantum by the next tick, after at most
    [qLeft + k * quantum] ticks, [qLeft] being the quantum left to the
    process on the CPU (0 when idle) and the quantum field being left
    alone. *)
Theorem ready_process_gets_turn
    (defs : list procDef) (k : nat) (s : state) (i : nat) :
  reachable defs s → readyQueue s !! k = Some i →
  ∃ j : nat,
    Z.of_nat j ≤ cpuQuantumLeft s + Z.of_nat k * getQuantum s ∧
    currentCPU (ticks j s) = None ∧
    readyQueue (ticks j s) !! 0%nat = Some i ∧
    currentCPU (dispatched (ticks j s)) = Some (CpuSlot i (getQuantum s)).
Proof. apply ready_turn. Qed.

Lemma ready_process_gets_turn_witness :
  ∃ j : nat,
    Z.of_nat j ≤ cpuQuantumLeft (ticks 2 startB)
                 + Z.of_nat 1 * getQuantum (ticks 2 startB) ∧
    currentCPU (ticks j (ticks 2 startB)) = None ∧
    readyQueue (ticks j (ticks 2 startB)) !! 0%nat = Some 0%nat ∧
    currentCPU (dispatched (ticks j (ticks 2 startB)))
      = Some (CpuSlot 0 (getQuantum (ticks 2 startB))).
Proof.
  apply (ready_process_gets_turn scenarioB 1%nat (ticks 2 startB) 0%nat).
  - apply reachable_ticks. apply reach_reset.
  - reflexivity.
Defined.

(** ** The statistics *)

Lemma foldl_sum (f : process → Z) (l : list process) (a : Z) :
  foldl (λ acc p, acc + f p) a l = a + sumZ (f <$> l).
Proof.
  revert a. induction l as [|p l IH]; intros a; cbn; [lia|].
  rewrite IH. fold (sumZ (f <$> l)). lia.
Qed.

Lemma statsFinished_elem (s : state) (p : process) :
  p ∈ statsFinished s → finished p = true ∧ ∃ i, processes s !! i = Some p.
Proof.
  unfold statsFinished. intros Hp%list_elem_of_In%filter_In.
  destruct Hp as [Hin Hf]. split; [done|].
  by apply list_elem_of_lookup_1, list_elem_of_In.
Qed.

Lemma sumZ_fmap_ext (f g : process → Z) (l : list process) :
  (∀ p, p ∈ l → f p = g p) → sumZ (f <$> l) = sumZ (g <$> l).
Proof.
  induction l as [|p l IH]; intros H; [done|]. cbn.
  fold (sumZ (f <$> l)). fold (sumZ (g <$> l)).
  rewrite (H p) by (by left). rewrite IH; [done|]. intros q Hq. apply H. by right.
Qed.

Lemma sumZ_add (f g : process → Z) (l : list process) :
  sumZ ((λ p, f p + g p) <$> l) = sumZ (f <$> l) + sumZ (g <$> l).
Proof.
  induction l as [|p l IH]; [done|]. cbn.
  fold (sumZ ((λ p, f p + g p) <$> l)). fold (sumZ (f <$> l)). fold (sumZ (g <$> l)).
  lia.
Qed.

(** X22. The sums behind the averages of [renderStats].  Over a valid
    table, in every reachable state, every row of the statistics shows as
    [WT] the waiting time tracked for that process, which is not
    negative, and as [TAT] that waiting time plus the burst; so the sum
    of the [WT] column is the sum of the tracked waiting times of the
    finished processes, and the sum of the [TAT] column is that plus the
    sum of their bursts. *)
Theorem stats_sums (defs : list procDef) (s : state) :
  validDefs defs → reachable defs s →
  (∀ p, p ∈ statsFinished s →
        statsRow p = (pid p,
                      arrivalTime p + burstTime p + waitingTime p,
                      burstTime p + waitingTime p,
                      waitingTime p) ∧
        0 ≤ waitingTime p) ∧
  sumWT s = sumZ (waitingTime <$> statsFinished s) ∧
  sumTAT s = sumWT s + sumZ (burstTime <$> statsFinished s).
Proof.
  intros Hv Hr. destruct (Inv_reachable defs s Hv Hr) as (_ & HA & _).
  assert (Hrow : ∀ p, p ∈ statsFinished s →
            ctNum p - arrivalTime p - burstTime p = waitingTime p ∧
            0 ≤ waitingTime p).
  { intros p (Hf & i & Hp)%statsFinished_elem.
    destruct (acct_done _ _ HA i p Hp Hf) as (_ & ct & Hct & Hw & _).
    destruct (reachable_bounds defs s i p Hv Hr Hp) as (_ & _ & ? & _).
    unfold ctNum. rewrite Hct. split; [lia|done]. }
  assert (Hwt : sumWT s = sumZ (waitingTime <$> statsFinished s)).
  { unfold sumWT. rewrite foldl_sum, Z.add_0_l.
    apply sumZ_fmap_ext. intros p Hp. by destruct (Hrow p Hp). }
  split; [|split; [done|]].
  - intros p Hp. destruct (Hrow p Hp) as [Heq Hw]. split; [|done].
    unfold statsRow. repeat f_equal; lia.
  - rewrite Hwt. unfold sumTAT. rewrite foldl_sum, Z.add_0_l.
    rewrite <- sumZ_add. apply sumZ_fmap_ext.
    intros p Hp. destruct (Hrow p Hp) as [Heq _]. lia.
Qed.

Lemma stats_sums_witness :
  (∀ p, p ∈ statsFinished (ticks 5 startB) →
        statsRow p = (pid p,
                      arrivalTime p + burstTime p + waitingTime p,
                      burstTime p + waitingTime p,
                      waitingTime p) ∧
        0 ≤ waitingTime p) ∧
  sumWT (ticks 5 startB) = sumZ (waitingTime <$> statsFinished (ticks 5 startB)) ∧
  sumTAT (ticks 5 startB) =
    sumWT (ticks 5 startB) + sumZ (burstTime <$> statsFinished (ticks 5 startB)).
Proof.
  apply (stats_sums scenarioB (ticks 5 startB)).
  - valid_defs.
  - apply reachable_ticks. apply reach_reset.
Defined.

(** ** A quantum that covers every burst *)

Lemma reachable_burst_in_defs (defs : list procDef) (s : state) (i : nat) (p : process) :
  reachable defs s → processes s !! i = Some p →
  ∃ d, d ∈ defs ∧ burstTime p = d_burstTime d.
Proof.
  intros Hr Hp. pose proof (reachable_stat defs s i Hr) as Hs. rewrite Hp in Hs.
  destruct (defs !! i) as [d|] eqn:Hd; [|done]. cbn in Hs. unfold stat in Hs.
  exists d. split; [by eapply list_elem_of_lookup_2|congruence].
Qed.

Lemma fits_dispatched (defs : list procDef) (s : state) (c : cpuSlot) (p : process) :
  validDefs defs → reachable defs s → fitsQuantum s →
  (∀ d, d ∈ defs → d_burstTime d ≤ getQuantum s) →
  currentCPU (dispatched s) = Some c →
  processes (dispatched s) !! proc c = Some p →
  0 < remainingTime p ≤ qLeft c.
Proof.
  intros Hv Hr Hfit HQ Hc Hp.
  destruct (Inv_dispatched s (Inv_reachable defs s Hv Hr)) as (_ & _ & HP).
  split; [by apply (HP c p)|].
  rewrite dispatched_lookup in Hp.
  destruct (processes s !! proc c) as [p0|] eqn:Hp0; [|done].
  cbn in Hp. injection Hp as <-. rewrite arr_remainingTime.
  destruct (currentCPU s) as [c0|] eqn:Hc0.
  - rewrite (dispatched_occupied s c0 Hc0) in Hc. injection Hc as ->.
    by apply (Hfit c p0).
  - rewrite (dispatched_quantum s c Hc0 Hc).
    destruct (reachable_bounds defs s _ p0 Hv Hr Hp0) as (_ & _ & _ & [_ Hle] & _).
    destruct (reachable_burst_in_defs defs s _ p0 Hr Hp0) as (d & Hd & Hb).
    specialize (HQ d Hd). lia.
Qed.

Lemma fits_tick (defs : list procDef) (s : state) :
  validDefs defs → reachable defs s → fitsQuantum s →
  (∀ d, d ∈ defs → d_burstTime d ≤ getQuantum s) →
  fitsQuantum (tick s) ∧
  readyQueue (tick s) = readyQueue (executed s) ∧
  ∀ c, currentCPU (dispatched s) = Some c →
       ∃ p', processes (tick s) !! proc c = Some p' ∧
             (finished p' = true ∨ cpuRef (tick s) = Some (proc c)).
Proof.
  intros Hv Hr Hfit HQ. pose proof (Excl_reachable defs s Hr) as HE.
  destruct (tick_frame s) as (Hps & Hrq & Hcpu & _).
  unfold fitsQuantum, cpuRef. rewrite Hps, Hrq, Hcpu. unfold settled.
  destruct (currentCPU (dispatched s)) as [c|] eqn:Hc.
  - pose proof (executed_currentCPU s c Hc) as Hc'.
    destruct (excl_cpu _ (Excl_dispatched s HE) c Hc) as (_ & p & Hp & _).
    destruct (fits_dispatched defs s c p Hv Hr Hfit HQ Hc Hp) as [Hpos Hle].
    destruct (execUnit_lookup_cpu c (dispatched s) p Hp)
      as (p1 & Hp1 & _ & Hr1 & _).
    assert (Hp2 : processes (executed s) !! proc c =
                  Some (arr (currentTime s + 1) p1)).
    { unfold executed. rewrite Hc, arrivalsStep_lookup, Hp1. cbn.
      by rewrite dispatched_currentTime. }
    set (p2 := arr (currentTime s + 1) p1) in *.
    assert (Hr2 : remainingTime p2 = remainingTime p - 1)
      by (subst p2; rewrite arr_remainingTime; lia).
    destruct (decide (remainingTime p2 = 0)) as [Hz|Hz].
    + destruct (settle_finish _ _ _ Hp2 Hz) as (Hps' & Hrq' & _ & Hcpu' & _).
      rewrite Hps', Hrq', Hcpu'. split; [done|]. split; [done|].
      intros c' [= <-]. eexists. split.
      * apply list_lookup_insert_eq. by eapply lookup_lt_Some.
      * by left.
    + assert (Hq : Z.max 0 (qLeft c - 1) ≠ 0) by lia.
      rewrite (settle_continue _ _ _ _ Hp2 Hz Hc' Hq). rewrite Hc'.
      split; [|split; [done|]].
      * intros c' q' [= <-]. cbn [proc qLeft]. rewrite Hp2. intros [= <-]. lia.
      * intros c' [= <-]. exists p2. split; [done|]. by right.
  - split; [|split; [done|done]].
    intros c' q' Hc'. unfold executed in Hc'. rewrite Hc in Hc'.
    rewrite arrivalsStep_currentCPU in Hc'. cbn in Hc'. congruence.
Qed.

(** X23. No preemption under a generous quantum.  With a valid table
    and a quantum field that gives a quantum of at least every burst,
    from the reset state on no tick re-queues the running process: the
    queue at the end of each tick is the one left by the second scan, and
    the process on the CPU in a tick either is finished at the end of
    that tick or keeps the CPU. *)
Theorem no_preemption_when_quantum_covers_bursts
    (defs : list procDef) (s0 : state) (n : nat) :
  validDefs defs →
  (∀ d, d ∈ defs → d_burstTime d ≤ getQuantum s0) →
  readyQueue (tick (ticks n (deepReset defs s0)))
    = readyQueue (executed (ticks n (deepReset defs s0))) ∧
  ∀ c, currentCPU (dispatched (ticks n (deepReset defs s0))) = Some c →
       ∃ p', processes (tick (ticks n (deepReset defs s0))) !! proc c = Some p' ∧
             (finished p' = true ∨
              cpuRef (tick (ticks n (deepReset defs s0))) = Some (proc c)).
Proof.
  intros Hv HQ.
  assert (Hg : ∀ k, getQuantum (ticks k (deepReset defs s0)) = getQuantum s0)
    by (intros k; by rewrite ticks_getQuantum).
  assert (Hfit : ∀ k, fitsQuantum (ticks k (deepReset defs s0))).
  { induction k as [|k IH]; [done|]. rewrite ticks_S.
    apply (fits_tick defs); [done|apply reachable_ticks, reach_reset|done|].
    intros d Hd. rewrite Hg. by apply HQ. }
  destruct (fits_tick defs (ticks n (deepReset defs s0))) as (_ & Hq & Hrun);
    [done|apply reachable_ticks, reach_reset|done| |done].
  intros d Hd. rewrite Hg. by apply HQ.
Qed.

Lemma no_preemption_when_quantum_covers_bursts_witness :
  readyQueue (tick (ticks 2 (deepReset scenarioB (loaded (Some 3)))))
    = readyQueue (executed (ticks 2 (deepReset scenarioB (loaded (Some 3))))) ∧
  ∀ c, currentCPU (dispatched (ticks 2 (deepReset scenarioB (loaded (Some 3))))) = Some c →
       ∃ p', processes (tick (ticks 2 (deepReset scenarioB (loaded (Some 3)))))
               !! proc c = Some p' ∧
             (finished p' = true ∨
              cpuRef (tick (ticks 2 (deepReset scenarioB (loaded (Some 3)))))
                = Some (proc c)).
Proof.
  apply (no_preemption_when_quantum_covers_bursts scenarioB (loaded (Some 3)) 2).
  - valid_defs.
  - intros d Hd. repeat (apply elem_of_cons in Hd as [->|Hd]; [cbn; lia|]).
    by apply elem_of_nil in Hd.
Defined.
